(** * battlecode-2019-wololo: bit codec, priority queue, message outboxes,
      world knowledge and path finding

    A shallow embedding of the parts of [robot.js], [PriorityQueue.js] and
    [WorldKnowledge.js] that the specification talks about, and of the
    functions around them: the radio and castle-talk messages, the helpers
    of [Extensions.js], the tiles around a unit and their mirror images,
    and [navigationMove]; followed by the properties established for them.

    Conventions.
    - JavaScript integers are [Z]; the 32-bit operators ([<<], [>>], [&],
      [|]) wrap their operands with [ToInt32] and mask the shift count
      with 31, as ECMAScript prescribes.
    - Arrays are lists, read with [!!] and written with [<[ i := v ]>].
    - Objects used as dictionaries are [gmap]s.  Records that are shared
      between containers live in an explicit object store and are referred
      to by location.
    - A [throw] is a value of an error type; calls to the logger, to the
      host ([signal], [castleTalk]) and to registered callbacks are
      recorded as an output trace, and are taken to return.
    - [Array.prototype.sort] is a stable insertion sort, stability being
      what ECMAScript prescribes.
    - What comes from [SPECS], which is not part of the sources, is a
      parameter: the speed and the fuel per move of a unit type.
    - The loops of the queue are defined by well-founded recursion.  The
      loops of [findPath] are run for a given number of rounds, [None]
      meaning that the rounds were used up; the statements give a number
      of rounds that is enough. *)

From stdpp Require Import gmap list sorting.
From Stdlib Require Import ZArith QArith Lia.
From Equations Require Import Equations.

Local Open Scope Z_scope.

(** * Part I: the embedding *)

(** ** JavaScript numbers and 32-bit integer operators *)

Module JS.

(** A Number is a finite value, NaN or an infinity.  Every finite double is
    a rational, which is all the code below observes of it. *)
Inductive number : Type :=
| Finite (q : Q)
| NaN
| Infinity (negative : bool).

Definition of_Z (z : Z) : number := Finite (inject_Z z).

Definition MAX_SAFE_INTEGER : Z := 2 ^ 53 - 1.

(** [Number.isSafeInteger(c)]: [Some z] when [c] is the integer [z] with
    [|z| <= 2^53 - 1], [None] when the test is false. *)
Definition safeInteger (c : number) : option Z :=
  match c with
  | Finite q =>
      let r := Qred q in
      if (Qden r =? 1)%positive && (Z.abs (Qnum r) <=? MAX_SAFE_INTEGER)
      then Some (Qnum r) else None
  | NaN | Infinity _ => None
  end.

Definition isSafeInteger (c : number) : bool :=
  match safeInteger c with Some _ => true | None => false end.

(** [ToInt32]: reduction modulo 2^32 into [-2^31, 2^31). *)
Definition ToInt32 (z : Z) : Z := (z + 2 ^ 31) mod 2 ^ 32 - 2 ^ 31.

(** The shift count of [<<] and [>>] is the right operand masked with 31. *)
Definition shiftCount (p : Z) : Z := p mod 32.

(** [a << p] *)
Definition shl (a p : Z) : Z := ToInt32 (Z.shiftl (ToInt32 a) (shiftCount p)).

(** [a >> p] (sign-propagating) *)
Definition sar (a p : Z) : Z := Z.shiftr (ToInt32 a) (shiftCount p).

(** [a & b] *)
Definition band (a b : Z) : Z := Z.land (ToInt32 a) (ToInt32 b).

(** [a | b] *)
Definition bor (a b : Z) : Z := Z.lor (ToInt32 a) (ToInt32 b).

(** [eqm k a b]: [a] and [b] agree on their [k] low bits. *)
Definition eqm (k a b : Z) : Prop := exists t, a = b + t * 2 ^ k.

End JS.

(** ** BitCodec: [encodeBits] and [decodeBits] of robot.js *)

Module BitCodec.

Import JS.

(** The loop of [decodeBits] runs [i] from [pattern.length - 1] down to 0,
    stores [msg & ((1 << pattern[i]) - 1)] at [result[i]] and shifts [msg]
    right by [pattern[i]].  It is written here over the pattern taken from
    its last entry to its first; each entry found is put in front of those
    found before, which is the slot [i] of the source. *)
Fixpoint decodeBits_loop (rpattern : list nat) (msg : Z) (result : list Z)
  : list Z :=
  match rpattern with
  | [] => result
  | p :: rest =>
      let field := band msg (shl 1 (Z.of_nat p) - 1) in
      decodeBits_loop rest (sar msg (Z.of_nat p)) (field :: result)
  end.

Definition decodeBits (msg : Z) (pattern : list nat) : list Z :=
  decodeBits_loop (rev pattern) msg [].

(** The four [throw]s of [encodeBits]. *)
Inductive EncodingError : Type :=
| LengthMismatch
| NotSafeInteger (c : number)
| NegativeValue (c : Z)
| ExceedsMaximum (c : Z) (p : nat).

(** The body of the [for] loop of [encodeBits], from index [i] on:
    [contents] and [pattern] are the remaining entries of both arrays. *)
Fixpoint encodeBits_loop (msg : Z) (contents : list number)
  (pattern : list nat) : EncodingError + Z :=
  match contents, pattern with
  | c :: contents', p :: pattern' =>
      match safeInteger c with
      | None => inl (NotSafeInteger c)
      | Some z =>
          if z <? 0 then inl (NegativeValue z)
          else if shl 1 (Z.of_nat p) <=? z then inl (ExceedsMaximum z p)
          else encodeBits_loop (bor (shl msg (Z.of_nat p)) z) contents' pattern'
      end
  | _, _ => inr msg
  end.

Definition encodeBits (contents : list number) (pattern : list nat)
  : EncodingError + Z :=
  if negb (length contents =? length pattern)%nat then inl LengthMismatch
  else encodeBits_loop 0 contents pattern.

(** *** Vocabulary of the statements *)

(** The number of bits a pattern describes. *)
Definition bits (pattern : list nat) : Z := Z.of_nat (sum_list pattern).

(** The unbounded integer that holds the fields most significant first. *)
Fixpoint pack (values : list Z) (pattern : list nat) : Z :=
  match values, pattern with
  | v :: values', p :: pattern' => v * 2 ^ bits pattern' + pack values' pattern'
  | _, _ => 0
  end.

(** [fits values pattern]: as many values as widths, the value at [i] within
    [0 <= v < 2^pattern[i]]. *)
Definition fits (values : list Z) (pattern : list nat) : Prop :=
  Forall2 (fun v p => 0 <= v < 2 ^ Z.of_nat p) values pattern.

(** What the specification calls a negative value, a value that is not an
    integer, and a value of at least [2^p]. *)
Definition negative (c : number) : Prop :=
  match c with
  | Finite q => (q < 0)%Q
  | NaN => False
  | Infinity neg => neg = true
  end.

Definition integer (c : number) : Prop :=
  match c with
  | Finite q => exists z : Z, (q == inject_Z z)%Q
  | NaN | Infinity _ => False
  end.

Definition exceeds (c : number) (p : nat) : Prop :=
  match c with
  | Finite q => (inject_Z (2 ^ Z.of_nat p) <= q)%Q
  | NaN => False
  | Infinity neg => neg = false
  end.

End BitCodec.

(** ** PriorityQueue.js *)

Module PriorityQueue.

(** The error of [dequeue]. *)
Inductive error : Type :=
| EmptyQueue.

Section PriorityQueue.

Context {A : Type}.

(** [this._comparator]; [this._content] is the list the functions below
    take and return. *)
Variable comparator : A -> A -> Z.

(** [new PriorityQueue(comparator)] and [clear()] *)
Definition constructor : list A := [].

Definition count (c : list A) : nat := length c.

(** [c.pop()], for what is left in [c]. *)
Definition pop (c : list A) : list A := take (length c - 1) c.

(** The child the loop of [dequeue] goes on with: the left one at
    [parentIndex * 2 + 1], or the right one when it exists and is smaller. *)
Definition smallerChild (c : list A) (lastIndex : Z) (parentIndex : nat) : nat :=
  let childIndex := (parentIndex * 2 + 1)%nat in
  let rightChildIndex := (childIndex + 1)%nat in
  if Z.of_nat rightChildIndex <=? lastIndex then
    match c !! rightChildIndex, c !! childIndex with
    | Some rightChild, Some leftChild =>
        if comparator rightChild leftChild <? 0 then rightChildIndex else childIndex
    | _, _ => childIndex
    end
  else childIndex.

(** The [for (;;)] loop of [dequeue].  It stops when the left child is out
    of range ([childIndex > lastIndex]) or when the parent is not greater
    than the smaller child; otherwise it swaps the two and goes on from the
    child.  The indices it reads are in range, so the last clause is not
    taken. *)
Equations? dequeue_loop (c : list A) (lastIndex : Z) (parentIndex : nat) : list A
  by wf (Z.to_nat (lastIndex + 1) - parentIndex)%nat lt :=
dequeue_loop c lastIndex parentIndex
  with Z_lt_dec lastIndex (Z.of_nat (parentIndex * 2 + 1)) => {
  | left _ := c
  | right _ with c !! parentIndex, c !! smallerChild c lastIndex parentIndex => {
    | Some parent, Some child with Z_le_dec (comparator parent child) 0 => {
      | left _ := c
      | right _ :=
          dequeue_loop
            (<[smallerChild c lastIndex parentIndex := parent]>
               (<[parentIndex := child]> c))
            lastIndex (smallerChild c lastIndex parentIndex) }
    | _, _ := c } }.
Proof.
  unfold smallerChild.
  destruct (Z.leb_spec (Z.of_nat (parentIndex * 2 + 1 + 1)) lastIndex); [|lia].
  destruct (c !! _) as [rightChild|]; [|lia].
  destruct (c !! _) as [leftChild|]; [|lia].
  destruct (_ <? _); lia.
Qed.

(** [dequeue()]: the error or the front item, and the content left. *)
Definition dequeue (c : list A) : error + A * list A :=
  match c !! 0%nat with
  | None => inl EmptyQueue
  | Some front =>
      let lastIndex := Z.of_nat (length c) - 1 in
      let c := match c !! Z.to_nat lastIndex with
               | Some last => <[0%nat := last]> c
               | None => c
               end in
      let c := pop c in
      let lastIndex := lastIndex - 1 in
      inr (front, dequeue_loop c lastIndex 0)
  end.

(** The [while (childIndex > 0)] loop of [enqueue]; the parent of
    [childIndex = S k] is at [floor((childIndex - 1) / 2) = k / 2]. *)
Equations? enqueue_loop (c : list A) (childIndex : nat) : list A
  by wf childIndex lt :=
enqueue_loop c 0 := c;
enqueue_loop c (S k) with c !! S k, c !! (k / 2)%nat => {
  | Some child, Some parent with Z_le_dec 0 (comparator child parent) => {
    | left _ := c
    | right _ :=
        enqueue_loop (<[S k := parent]> (<[(k / 2)%nat := child]> c)) (k / 2)%nat }
  | _, _ := c }.
Proof.
  change (k / 2 < S k)%nat. pose proof (Nat.Div0.div_le_upper_bound k 2 k). lia.
Qed.

(** [enqueue(item)] *)
Definition enqueue (c : list A) (item : A) : list A :=
  let c := c ++ [item] in
  enqueue_loop c (length c - 1).

(** *** Vocabulary of the statements *)

(** [x] is not after [y]. *)
Definition le (x y : A) : Prop := comparator x y <= 0.

(** The heap property: no item is before its parent. *)
Definition is_heap (c : list A) : Prop :=
  forall i x y, (0 < i)%nat ->
    c !! ((i - 1) / 2)%nat = Some x -> c !! i = Some y -> le x y.

(** The heap property but for the item at [j], which may be before its
    parent, though its children are not before its parent. *)
Definition heap_up (c : list A) (j : nat) : Prop :=
  (forall i x y, (0 < i)%nat -> i ≠ j ->
     c !! ((i - 1) / 2)%nat = Some x -> c !! i = Some y -> le x y) /\
  (forall i x y, (0 < j)%nat -> (0 < i)%nat -> ((i - 1) / 2)%nat = j ->
     c !! ((j - 1) / 2)%nat = Some x -> c !! i = Some y -> le x y).

(** The heap property but for the item at [j], which may be after its
    children, though its parent is not after them. *)
Definition heap_down (c : list A) (j : nat) : Prop :=
  (forall i x y, (0 < i)%nat -> ((i - 1) / 2)%nat ≠ j ->
     c !! ((i - 1) / 2)%nat = Some x -> c !! i = Some y -> le x y) /\
  (forall i x y, (0 < j)%nat -> (0 < i)%nat -> ((i - 1) / 2)%nat = j ->
     c !! ((j - 1) / 2)%nat = Some x -> c !! i = Some y -> le x y).

(** A client of the queue: a sequence of calls, and what each call gives. *)
Inductive call : Type :=
| Enqueue (item : A)
| Dequeue.

Inductive outcome : Type :=
| Enqueued
| Dequeued (front : A)
| Threw (e : error).

(** The outcomes of the calls made one after the other on the content [c];
    a [dequeue] that throws leaves the content as it is. *)
Fixpoint run (c : list A) (calls : list call) : list outcome :=
  match calls with
  | [] => []
  | Enqueue item :: calls' => Enqueued :: run (enqueue c item) calls'
  | Dequeue :: calls' =>
      match dequeue c with
      | inl e => Threw e :: run c calls'
      | inr (front, c') => Dequeued front :: run c' calls'
      end
  end.

(** The content after the calls. *)
Fixpoint content_after (c : list A) (calls : list call) : list A :=
  match calls with
  | [] => c
  | Enqueue item :: calls' => content_after (enqueue c item) calls'
  | Dequeue :: calls' =>
      match dequeue c with
      | inl e => content_after c calls'
      | inr (front, c') => content_after c' calls'
      end
  end.

End PriorityQueue.

(** *** Scenarios *)

(** A queue of integers ordered by [x - y], as the path finder orders its
    frontier by cost. *)
Definition by_difference (x y : Z) : Z := x - y.

Section calls.
Context {A : Type}.

(** [clear()] *)
Definition clear (c : list A) : list A := [].

(** The items a sequence of calls puts in, and the items it gets out. *)
Definition enqueued (calls : list (call (A := A))) : list A :=
  calls ≫= fun c => match c with Enqueue item => [item] | Dequeue => [] end.

Definition dequeued (outcomes : list (outcome (A := A))) : list A :=
  outcomes ≫= fun o => match o with Dequeued front => [front] | _ => [] end.

End calls.

End PriorityQueue.

(** ** MessageProtocol: the two outboxes of robot.js *)

Module Outbox.

(** The fields of the robot that hold the pending radio message and the
    pending castle-talk message.  A field that was never assigned, or that
    holds [null], is [None]. *)
Record outbox : Type := {
  _util_rd_prio : option Z;
  _util_rd_msg : option (list Z);
  _util_rd_radiusSq : option Z;
  _util_ct_prio : option Z;
  _util_ct_msg : option (list Z)
}.

(** A robot that has not spoken yet. *)
Definition silent : outbox :=
  {| _util_rd_prio := None; _util_rd_msg := None; _util_rd_radiusSq := None;
     _util_ct_prio := None; _util_ct_msg := None |}.

(** The [msg] argument: one encoded part, or an array of parts. *)
Inductive message : Type :=
| Part (part : Z)
| Parts (parts : list Z).

(** [if (!Array.isArray(msg)) msg = [msg];] *)
Definition promote (msg : message) : list Z :=
  match msg with
  | Part part => [part]
  | Parts parts => parts
  end.

(** [prio != null && prio >= priority] *)
Definition outranks (prio : option Z) (priority : Z) : bool :=
  match prio with
  | Some p => priority <=? p
  | None => false
  end.

Definition radioSetEventMessage (this : outbox) (priority : Z) (msg : message)
  (radiusSq : Z) : outbox * bool :=
  if outranks (_util_rd_prio this) priority then (this, false)
  else
    ({| _util_rd_prio := Some priority;
        _util_rd_msg := Some (promote msg);
        _util_rd_radiusSq := Some radiusSq;
        _util_ct_prio := _util_ct_prio this;
        _util_ct_msg := _util_ct_msg this |}, true).

Definition castleTalkSetEventMessage (this : outbox) (priority : Z)
  (msg : message) : outbox * bool :=
  if outranks (_util_ct_prio this) priority then (this, false)
  else
    ({| _util_rd_prio := _util_rd_prio this;
        _util_rd_msg := _util_rd_msg this;
        _util_rd_radiusSq := _util_rd_radiusSq this;
        _util_ct_prio := Some priority;
        _util_ct_msg := Some (promote msg) |}, true).

(** The calls the robot makes to the host when it sends. *)
Inductive transmission : Type :=
| signal (value : Z) (radiusSq : option Z)
| castleTalk (value : Z).

(** [radioSendMessage]: the new fields and the calls made to the host.
    [slice(1)] of [first :: rest] is [rest]. *)
Definition radioSendMessage (this : outbox) : outbox * list transmission :=
  match _util_rd_msg this with
  | Some (first :: rest) =>
      ({| _util_rd_prio :=
            if bool_decide (length rest = 0%nat) then None else _util_rd_prio this;
          _util_rd_msg := Some rest;
          _util_rd_radiusSq := _util_rd_radiusSq this;
          _util_ct_prio := _util_ct_prio this;
          _util_ct_msg := _util_ct_msg this |},
       [signal first (_util_rd_radiusSq this)])
  | Some [] | None => (this, [])
  end.

Definition castleTalkSendMessage (this : outbox) : outbox * list transmission :=
  match _util_ct_msg this with
  | Some (first :: rest) =>
      ({| _util_rd_prio := _util_rd_prio this;
          _util_rd_msg := _util_rd_msg this;
          _util_rd_radiusSq := _util_rd_radiusSq this;
          _util_ct_prio :=
            if bool_decide (length rest = 0%nat) then None else _util_ct_prio this;
          _util_ct_msg := Some rest |},
       [castleTalk first])
  | Some [] | None => (this, [])
  end.

(** *** Vocabulary of the statements *)

(** The parts still queued on a channel; none when the field is unset. *)
Definition queued (msg : option (list Z)) : list Z := default [] msg.

(** The priority register and the queue stay in step: from a silent robot,
    whatever is set (with at least one part) and sent, the register is
    unset exactly when no part is queued. *)
Inductive step : outbox -> outbox -> Prop :=
| step_rd_set this priority msg radiusSq :
    promote msg <> [] ->
    step this (radioSetEventMessage this priority msg radiusSq).1
| step_ct_set this priority msg :
    promote msg <> [] ->
    step this (castleTalkSetEventMessage this priority msg).1
| step_rd_send this : step this (radioSendMessage this).1
| step_ct_send this : step this (castleTalkSendMessage this).1.

Definition in_step (this : outbox) : Prop :=
  (_util_rd_prio this = None <-> queued (_util_rd_msg this) = []) /\
  (_util_ct_prio this = None <-> queued (_util_ct_msg this) = []).

(** [radioSendMessage()] called [turns] times, once a turn as [turn()]
    does, with the calls made to the host. *)
Fixpoint radioSendMessage_turns (turns : nat) (this : outbox)
  : outbox * list transmission :=
  match turns with
  | O => (this, [])
  | S turns' =>
      let '(this', sent) := radioSendMessage this in
      let '(this'', sent') := radioSendMessage_turns turns' this' in
      (this'', sent ++ sent')
  end.

Fixpoint castleTalkSendMessage_turns (turns : nat) (this : outbox)
  : outbox * list transmission :=
  match turns with
  | O => (this, [])
  | S turns' =>
      let '(this', sent) := castleTalkSendMessage this in
      let '(this'', sent') := castleTalkSendMessage_turns turns' this' in
      (this'', sent ++ sent')
  end.

End Outbox.

(** ** WorldKnowledge.js *)

Module WorldKnowledge.

(** A robot record: [id], [team] and [unit] are set when the record is
    created; the other properties are absent until they are assigned. *)
Record bot : Type := {
  id : Z;
  team : Z;
  unit : Z;
  x : option Z;
  y : option Z;
  posUpdateTurn : option Z;
  damage : option Z
}.

(** Records are JavaScript objects: the dictionary of known bots and the
    list of known structures hold references to the same record, so the
    records live in a store and are named by their location. *)
Definition loc : Type := positive.

Record state : Type := {
  objects : gmap loc bot;
  _util_known_bots : gmap Z loc;
  _util_known_structures : list loc;
  (** whether a logger was given to the constructor *)
  _logger : bool
}.

(** [new WorldKnowledge(logger)] *)
Definition constructor (logger : bool) : state :=
  {| objects := ∅; _util_known_bots := ∅; _util_known_structures := [];
     _logger := logger |}.

(** What the class tells the outside: the messages given to the logger and
    the records handed to the first-sighting callback. *)
Inductive log_message : Type :=
| ChangeTeam (id from to : Z)
| ChangeUnit (id from to : Z)
| ChangeByTrueVision
| MoveStructure (unit : Z) (from : option Z * option Z) (to : Z * Z)
| CannotRecover.

Inductive event : Type :=
| Logged (msg : log_message)
| InitialSighting (record : loc).

(** [log(msg) { if (this._logger) this._logger(msg); }] *)
Definition log (this : state) (msg : log_message) : list event :=
  if _logger this then [Logged msg] else [].

(** [this._util_known_bots[id]], as a reference and as the record read
    through it. *)
Definition findRef (this : state) (id : Z) : option (loc * bot) :=
  l ← _util_known_bots this !! id; b ← objects this !! l; Some (l, b).

Definition findById (this : state) (id : Z) : option bot :=
  snd <$> findRef this id.

(** The assignment [this._util_known_bots[id] = {id, team, unit}] followed
    by the call of the first-sighting callback on the new record. *)
Definition register (this : state) (id team unit : Z) : state * list event :=
  let l := fresh (dom (objects this)) in
  let record := {| id := id; team := team; unit := unit; x := None; y := None;
                   posUpdateTurn := None; damage := None |} in
  ({| objects := <[l := record]> (objects this);
      _util_known_bots := <[id := l]> (_util_known_bots this);
      _util_known_structures := _util_known_structures this;
      _logger := _logger this |},
   [InitialSighting l]).

(** [initialSighting(id, team, unit, trueVision)]; an omitted [trueVision]
    is [None] and counts as [false]. *)
Definition initialSighting (this : state) (id team unit : Z)
  (trueVision : option bool) : state * list event :=
  let trueVision := default false trueVision in
  match findById this id with
  | Some known =>
      let complaint :=
        if bool_decide (WorldKnowledge.team known ≠ team)
        then Some (ChangeTeam id (WorldKnowledge.team known) team)
        else if bool_decide (WorldKnowledge.unit known ≠ unit)
        then Some (ChangeUnit id (WorldKnowledge.unit known) unit)
        else None in
      match complaint with
      | None => (this, [])
      | Some msg =>
          if negb trueVision then (this, log this msg)
          else
            let '(this', called) := register this id team unit in
            (this', log this msg ++ log this ChangeByTrueVision ++ called)
      end
  | None => register this id team unit
  end.

Inductive error : Type :=
| NoTurnSpecified
| BotNotKnown.

(** [bot.posUpdateTurn != null && bot.posUpdateTurn >= turn] *)
Definition outdated (b : bot) (turn : Z) : bool :=
  match posUpdateTurn b with
  | Some t => turn <=? t
  | None => false
  end.

(** The three assignments that end [updatePosition], on the record at [l]. *)
Definition store_position (this : state) (l : loc) (b : bot) (x y turn : Z)
  : state :=
  {| objects :=
       <[l := {| id := id b; team := team b; unit := unit b;
                 x := Some x; y := Some y; posUpdateTurn := Some turn;
                 damage := damage b |}]> (objects this);
     _util_known_bots := _util_known_bots this;
     _util_known_structures := _util_known_structures this;
     _logger := _logger this |}.

(** [this._util_known_structures.push(bot)] *)
Definition push_structure (this : state) (l : loc) : state :=
  {| objects := objects this;
     _util_known_bots := _util_known_bots this;
     _util_known_structures := _util_known_structures this ++ [l];
     _logger := _logger this |}.

(** [updatePosition(id, x, y, turn, trueVision)]; a [turn] that is [null]
    or omitted is [None].  [trueVision] is not read. *)
Definition updatePosition (this : state) (id x y : Z) (turn : option Z)
  (trueVision : option bool) : error + state * list event :=
  match turn with
  | None => inl NoTurnSpecified
  | Some turn =>
      match findRef this id with
      | None => inr (this, [])
      | Some (l, b) =>
          if outdated b turn then inr (this, [])
          else if unit b <? 2 then
            match WorldKnowledge.x b with
            | Some bx =>
                if bool_decide (bx ≠ x \/ WorldKnowledge.y b ≠ Some y) then
                  inr (this,
                       log this (MoveStructure (unit b)
                                   (WorldKnowledge.x b, WorldKnowledge.y b) (x, y))
                       ++ log this CannotRecover)
                else inr (store_position this l b x y turn, [])
            | None =>
                inr (store_position (push_structure this l) l b x y turn, [])
            end
          else inr (store_position this l b x y turn, [])
      end
  end.

(** [applyDamage(id, damage)] *)
Definition applyDamage (this : state) (id amount : Z) : error + state :=
  match findRef this id with
  | None => inl BotNotKnown
  | Some (l, b) =>
      let total := match damage b with Some d => d + amount | None => amount end in
      inr {| objects :=
               <[l := {| id := WorldKnowledge.id b; team := team b; unit := unit b;
                         x := x b; y := y b; posUpdateTurn := posUpdateTurn b;
                         damage := Some total |}]> (objects this);
             _util_known_bots := _util_known_bots this;
             _util_known_structures := _util_known_structures this;
             _logger := _logger this |}
  end.

(** [updateBot(r, turn, trueVision)] for a robot object [r] with the given
    [id], [team], [unit], [x] and [y]. *)
Definition updateBot (this : state) (r_id r_team r_unit r_x r_y : Z)
  (turn : option Z) (trueVision : option bool) : error + state * list event :=
  let '(this1, said1) := initialSighting this r_id r_team r_unit trueVision in
  match updatePosition this1 r_id r_x r_y turn trueVision with
  | inl e => inl e
  | inr (this2, said2) => inr (this2, said1 ++ said2)
  end.

(** *** Vocabulary of the statements *)

(** A structure is a castle (unit type 0) or a church (unit type 1); the
    code tests [unit < 2]. *)
Definition structure (b : bot) : Prop := unit b < 2.

(** The record made for a first sighting. *)
Definition fresh_record (id team unit : Z) : bot :=
  {| id := id; team := team; unit := unit; x := None; y := None;
     posUpdateTurn := None; damage := None |}.

Definition is_logged (e : event) : Prop :=
  match e with Logged _ => True | InitialSighting _ => False end.

(** *** Scenarios *)

(** A castle (unit type 0) of team 0 with id 7, seen at (1, 1) on turn 5 by
    a robot that logs. *)
Definition castle_seen : state :=
  match updateBot (constructor true) 7 0 0 1 1 (Some 5) (Some true) with
  | inr (this, _) => this
  | inl _ => constructor true
  end.

(** A pilgrim (unit type 2) of team 1 with id 9, known from a report, seen
    at (4, 6) on turn 2 and damaged by 10. *)
Definition pilgrim_reported : state :=
  match updateBot (constructor true) 9 1 2 4 6 (Some 2) None with
  | inr (this, _) =>
      match applyDamage this 9 10 with inr this' => this' | inl _ => this end
  | inl _ => constructor true
  end.

(** The linear search of [markTerminated] and its swap and pop: the list
    without its first entry whose record has the given [id], the last
    entry taking its place. *)
Definition remove_structure (this : state) (id : Z) : list loc :=
  let structs := _util_known_structures this in
  match
    list_find (fun l => (WorldKnowledge.id <$> objects this !! l) = Some id) structs
  with
  | Some (i, _) =>
      match structs !! (length structs - 1)%nat with
      | Some last => take (length structs - 1) (<[i := last]> structs)
      | None => structs
      end
  | None => structs
  end.

(** [markTerminated(id)]: the error, or the state left and the record
    handed to the terminate callback. *)
Definition markTerminated (this : state) (id : Z) : error + state * loc :=
  match findRef this id with
  | None => inl BotNotKnown
  | Some (l, b) =>
      inr ({| objects := objects this;
              _util_known_bots := delete id (_util_known_bots this);
              _util_known_structures :=
                if unit b <? 2 then remove_structure this id
                else _util_known_structures this;
              _logger := _logger this |},
           l)
  end.

(** *** Vocabulary of the statements on calls *)

(** A call of one of the methods that change what is known. *)
Inductive call : Type :=
| InitialSightingCall (id team unit : Z) (trueVision : option bool)
| UpdatePositionCall (id x y : Z) (turn : option Z) (trueVision : option bool)
| ApplyDamageCall (id amount : Z)
| MarkTerminatedCall (id : Z).

(** The state a call leaves; a call that throws has changed nothing. *)
Definition after (this : state) (c : call) : state :=
  match c with
  | InitialSightingCall id team unit trueVision =>
      (initialSighting this id team unit trueVision).1
  | UpdatePositionCall id x y turn trueVision =>
      match updatePosition this id x y turn trueVision with
      | inr (this', _) => this'
      | inl _ => this
      end
  | ApplyDamageCall id amount =>
      match applyDamage this id amount with
      | inr this' => this'
      | inl _ => this
      end
  | MarkTerminatedCall id =>
      match markTerminated this id with
      | inr (this', _) => this'
      | inl _ => this
      end
  end.

(** What the class keeps true of its state: the record filed under an id
    has that id; the list of structures holds each record once, and
    holds records of structures (unit types below 2) whose position is
    known. *)
Definition consistent (this : state) : Prop :=
  (forall id l, _util_known_bots this !! id = Some l ->
     exists b, objects this !! l = Some b /\ WorldKnowledge.id b = id) /\
  NoDup (_util_known_structures this) /\
  (forall l, l ∈ _util_known_structures this ->
     exists b, objects this !! l = Some b /\ unit b < 2 /\
               is_Some (x b) /\ is_Some (y b) /\ is_Some (posUpdateTurn b)).

(** The record of a bot once a position has been stored for it. *)
Definition positioned (b : bot) (x y turn : Z) : bot :=
  {| id := WorldKnowledge.id b; team := team b; unit := unit b;
     x := Some x; y := Some y; posUpdateTurn := Some turn; damage := damage b |}.

End WorldKnowledge.

(** ** The path finder of robot.js *)

Module PathFinder.

Import PriorityQueue.

(** A tile [[x, y]]. *)
Abbreviation cell := (Z * Z)%type.

(** A two-dimensional array, indexed [grid[y][x]]. *)
Abbreviation grid A := (list (list A)).

(** [Array.filled2D(i, j, val)] *)
Definition filled2D {A} (i j : nat) (val : A) : grid A :=
  replicate i (replicate j val).

(** [grid[y][x]] for the tile [[x, y]]; [None] stands for [undefined]. *)
Definition at_ {A} (g : grid A) (c : cell) : option A :=
  row ← g !! Z.to_nat c.2; row !! Z.to_nat c.1.

(** [grid[y][x] = val] *)
Definition put {A} (g : grid A) (c : cell) (val : A) : grid A :=
  alter (fun row => <[Z.to_nat c.1 := val]> row) (Z.to_nat c.2) g.

(** An entry of [gScore]: a cost, or [Infinity]. *)
Inductive score : Type :=
| Cost (g : Z)
| Infinity.

(** What the robot knows when it searches: itself, the terrain
    ([this.map], which is also what [getPassableMap()] gives) and the map
    [generateTrueVisionPassableMap()] gives on this turn. *)
Record Me : Type := { x : Z; y : Z; unit : Z }.

Record robot : Type := {
  me : Me;
  map : grid bool;
  trueVisionPassableMap : grid bool
}.

(** The [flags] argument: [map], [unit] and [tvmap], each possibly absent. *)
Record Flags : Type := {
  flags_map : option bool;
  flags_unit : option Z;
  flags_tvmap : option (grid bool)
}.

(** [{}], which an omitted [flags] is replaced with. *)
Definition no_flags : Flags :=
  {| flags_map := None; flags_unit := None; flags_tvmap := None |}.

(** The [targets] argument: one target [[x, y]] or a list of targets. *)
Inductive Targets : Type :=
| target (x y : Z)
| targets (ts : list cell).

(** The entries of the frontier: [{cost, elem, came_from}]. *)
Record item : Type := { cost : Z; elem : cell; came_from : option cell }.

(** [(x, y) => x.cost - y.cost] *)
Definition by_cost (x y : item) : Z := cost x - cost y.

(** What a call gives: a path, [null], the score map of the mapping mode,
    or a [TypeError]. *)
Inductive result : Type :=
| path (cells : list cell)
| null
| scores (gScore : grid score).

Inductive outcome : Type :=
| returns (r : result)
| throws_TypeError.

Section findPath.

(** From [SPECS], which is not part of the sources: the moves
    [listPossibleMoves(unit)] lists for a unit type, that is
    [listDeltaTiles(1, SPECS.UNITS[unit].SPEED)], and
    [SPECS.UNITS[unit].FUEL_PER_MOVE]. *)
Variable listPossibleMoves : Z -> list (Z * Z).
Variable FUEL_PER_MOVE : Z -> Z.

Variable this : robot.

Definition height : Z := Z.of_nat (length (map this)).
Definition width : Z := Z.of_nat (length (default [] (map this !! 0%nat))).

(** [truelyPassableDelta(dx, dy, tvmap)]; an entry of [tvmap] that is
    missing reads as [undefined], which counts as [false]. *)
Definition truelyPassableDelta (dx dy : Z) (tvmap : option (grid bool)) : bool :=
  let tvmap := default (trueVisionPassableMap this) tvmap in
  let x := x (me this) + dx in
  let y := y (me this) + dy in
  if (x <? 0) || (y <? 0) || (width <=? x) || (height <=? y) then false
  else default false (at_ tvmap (x, y)).

(** [truelyPassableAbsolute(x, y, tvmap)] *)
Definition truelyPassableAbsolute (c : cell) (tvmap : option (grid bool)) : bool :=
  truelyPassableDelta (c.1 - x (me this)) (c.2 - y (me this)) tvmap.

(** The Manhattan distance to the closest target.  The search runs it on
    a list that holds a target, so that [best] is not left at [Infinity];
    were it, 0 is given here. *)
Definition heuristic (targets : list cell) (pos : cell) : Z :=
  let best :=
    foldl (fun best t =>
             let score := Z.abs (pos.1 - t.1) + Z.abs (pos.2 - t.2) in
             match best with
             | Infinity => Cost score
             | Cost b => if score <? b then Cost score else best
             end)
          Infinity targets in
  match best with Cost b => b | Infinity => 0 end.

(** The parameters the loops below do not change. *)
Variable mappingMode : bool.
Variable goals : list cell.
Variable tvmap : grid bool.
Variable deltaActions : list (Z * Z).
Variable fuelFactor timeFactor : Z.

(** What the main loop changes. *)
Record search : Type := {
  frontier : list item;
  closedSet : grid bool;
  cameFrom : grid (option cell);
  gScore : grid score
}.

(** One round of the loop over [deltaActions], for the tile [current]. *)
Definition visit (current : cell) (closedSet : grid bool)
  (st : list item * grid score) (action : Z * Z) : list item * grid score :=
  let '(frontier, gScore) := st in
  let fuelCost :=
    FUEL_PER_MOVE (unit (me this)) * (action.1 * action.1 + action.2 * action.2) in
  let totalActionCost := fuelCost * fuelFactor + 1 * timeFactor in
  let new : cell := (current.1 + action.1, current.2 + action.2) in
  if negb (truelyPassableAbsolute new (Some tvmap)) then st
  else if default false (at_ closedSet new) then st
  else
    match default Infinity (at_ gScore current) with
    | Infinity => st
    | Cost g =>
        let tentativeGScore := g + totalActionCost in
        let improves :=
          match default Infinity (at_ gScore new) with
          | Infinity => true
          | Cost old => tentativeGScore <? old
          end in
        if improves then
          let expectedTotalCost :=
            tentativeGScore + (if mappingMode then 0 else heuristic goals new) in
          (enqueue by_cost frontier
             {| cost := expectedTotalCost; elem := new;
                came_from := Some current |},
           put gScore new (Cost tentativeGScore))
        else st
    end.

(** [while (curr) { ret.push(curr); curr = cameFrom[curr[1]][curr[0]]; }]
    run for at most [rounds] rounds; [None] if it has not ended by then. *)
Fixpoint reconstruct (rounds : nat) (cameFrom : grid (option cell))
  (curr : option cell) (ret : list cell) : option (list cell) :=
  match curr with
  | None => Some ret
  | Some c =>
      match rounds with
      | O => None
      | S rounds' =>
          reconstruct rounds' cameFrom (default None (at_ cameFrom c)) (ret ++ [c])
      end
  end.

(** [currentX === targets[i][0] && currentY === targets[i][1]] for some [i] *)
Definition onTarget (current : cell) : bool :=
  existsb (fun t => (current.1 =? t.1) && (current.2 =? t.2)) goals.

(** The [while (frontier.count() > 0)] loop, run for at most [rounds]
    rounds, the same bound being given to the loop that rebuilds the path;
    [None] if it has not ended by then. *)
Fixpoint search_loop (rounds : nat) (st : search) : option result :=
  match rounds with
  | O => None
  | S rounds' =>
      if (count (frontier st) =? 0)%nat then
        Some (if mappingMode then scores (gScore st) else null)
      else
        match dequeue by_cost (frontier st) with
        | inl _ => None
        | inr (current, frontier') =>
            if default false (at_ (closedSet st) (elem current)) then
              search_loop rounds'
                {| frontier := frontier'; closedSet := closedSet st;
                   cameFrom := cameFrom st; gScore := gScore st |}
            else
              let closedSet' := put (closedSet st) (elem current) true in
              let cameFrom' := put (cameFrom st) (elem current) (came_from current) in
              if negb mappingMode && onTarget (elem current) then
                ret ← reconstruct (S rounds') cameFrom' (Some (elem current)) [];
                Some (path (reverse ret))
              else
                let '(frontier'', gScore') :=
                  foldl (visit (elem current) closedSet') (frontier', gScore st)
                    deltaActions in
                search_loop rounds'
                  {| frontier := frontier''; closedSet := closedSet';
                     cameFrom := cameFrom'; gScore := gScore' |}
        end
  end.

End findPath.

(** [findPath(targets, mode, start, flags)], its loops run for at most
    [rounds] rounds: [None] if they have not ended by then.

    An empty [targets] is not an array of arrays, so it is wrapped like a
    single target and the search is given the one target [[]].  Unless
    the mapping mode then empties the list again, the first passable test
    is the call [truelyPassableAbsolute(tvmap)]: [x] and [y] are not
    numbers, no bound is exceeded, and [tvmap[y][x]] reads a property of
    [undefined], which throws a [TypeError]. *)
Definition findPath (listPossibleMoves : Z -> list (Z * Z)) (FUEL_PER_MOVE : Z -> Z)
  (this : robot) (rounds : nat) (targets_ : Targets) (mode : option Z)
  (start : option cell) (flags : option Flags) : option outcome :=
  let mode := default 0 mode in
  let flags := default no_flags flags in
  let mappingMode := default false (flags_map flags) in
  let unit :=
    match flags_unit flags with
    | Some u => if u =? 0 then unit (me this) else u
    | None => unit (me this)
    end in
  let '(fuelFactor, timeFactor) := if mode =? 0 then (10, 1) else (1, 10) in
  let start := default (x (me this), y (me this)) start in
  let goals : option (list cell) :=
    if mappingMode then Some []
    else match targets_ with
         | target x y => Some [(x, y)]
         | targets [] => None
         | targets ts => Some ts
         end in
  match goals with
  | None => Some throws_TypeError
  | Some goals =>
      let tvmap :=
        if mappingMode then map this
        else default (trueVisionPassableMap this) (flags_tvmap flags) in
      let hasPassableTarget :=
        existsb (fun t => truelyPassableAbsolute this t (Some tvmap)) goals in
      if negb hasPassableTarget && negb mappingMode then Some (returns null)
      else
        let deltaActions := listPossibleMoves unit in
        let rows := length (map this) in
        let cols := length (default [] (map this !! 0%nat)) in
        let st :=
          {| frontier :=
               enqueue by_cost (constructor (A := item))
                 {| cost := 0; elem := start; came_from := None |};
             closedSet := filled2D rows cols false;
             cameFrom := filled2D rows cols None;
             gScore := put (filled2D rows cols Infinity) start (Cost 0) |} in
        returns <$>
          search_loop FUEL_PER_MOVE this mappingMode goals tvmap deltaActions
            fuelFactor timeFactor rounds st
  end.

(** *** Vocabulary of the statements *)

(** A tile of the map. *)
Definition on_map (this : robot) (c : cell) : Prop :=
  0 <= c.1 < width this /\ 0 <= c.2 < height this.

(** A grid with a row for every row of the map and an entry for every
    tile of the row. *)
Definition map_shaped {A} (this : robot) (g : grid A) : Prop :=
  length g = length (map this) /\
  Forall (fun row => Z.of_nat (length row) = width this) g.

(** A move from [a] to [b] that the mover can make: one of its possible
    moves, onto a passable tile. *)
Definition legal_move (this : robot) (deltaActions : list (Z * Z))
  (tvmap : grid bool) (a b : cell) : Prop :=
  (exists action, action ∈ deltaActions /\
     b = (a.1 + action.1, a.2 + action.2)) /\
  truelyPassableAbsolute this b (Some tvmap) = true.

(** A route: consecutive tiles are legal moves apart. *)
Fixpoint legal_route (this : robot) (deltaActions : list (Z * Z))
  (tvmap : grid bool) (cells : list cell) : Prop :=
  match cells with
  | a :: (b :: _) as rest =>
      legal_move this deltaActions tvmap a b /\
      legal_route this deltaActions tvmap rest
  | _ => True
  end.

(** The tiles of the map. *)
Definition all_cells (this : robot) : list cell :=
  x ← seqZ 0 (width this); y ← seqZ 0 (height this); [(x, y)].

(** [came_along cameFrom start c ret]: following [cameFrom] from the tile
    [c] leads to [start], where it finds [null]; [ret] lists the tiles
    met, [c] first, each a legal move after the next. *)
Inductive came_along (this : robot) (deltaActions : list (Z * Z))
  (tvmap : grid bool) (cameFrom : grid (option cell)) (start : cell)
  : cell -> list cell -> Prop :=
| came_start :
    at_ cameFrom start = Some None ->
    came_along this deltaActions tvmap cameFrom start start [start]
| came_step c p ret :
    at_ cameFrom c = Some (Some p) ->
    legal_move this deltaActions tvmap p c ->
    came_along this deltaActions tvmap cameFrom start p ret ->
    came_along this deltaActions tvmap cameFrom start c (c :: ret).

(** What is asked of a path: it begins on [start], ends on a goal, and is
    a route. *)
Definition route_to (this : robot) (deltaActions : list (Z * Z))
  (tvmap : grid bool) (start : cell) (goals cells : list cell) : Prop :=
  head cells = Some start /\
  (exists goal, last cells = Some goal /\ goal ∈ goals) /\
  legal_route this deltaActions tvmap cells.

(** The list of targets the search works with, for a target or a list
    that holds one. *)
Definition goals_of (targets_ : Targets) : list cell :=
  match targets_ with
  | target x y => [(x, y)]
  | targets ts => ts
  end.

(** The unit type whose moves are searched: [flags.unit || this.me.unit]. *)
Definition mover (this : robot) (flags : Flags) : Z :=
  match flags_unit flags with
  | Some u => if u =? 0 then unit (me this) else u
  | None => unit (me this)
  end.

(** What the loop of the search may return: a route in the search for
    targets, [null] in the search for targets, the scores in the mapping
    mode. *)
Definition expected (this : robot) (deltaActions : list (Z * Z))
  (tvmap : grid bool) (mappingMode : bool) (start : cell) (goals : list cell)
  (r : result) : Prop :=
  match r with
  | path cells => mappingMode = false /\ route_to this deltaActions tvmap start goals cells
  | null => mappingMode = false
  | scores _ => mappingMode = true
  end.

(** A number of rounds that is enough for the loops of [findPath]. *)
Definition enough_rounds (this : robot) (deltaActions : list (Z * Z)) : nat :=
  length (all_cells this) * (length deltaActions + 1)
  + length (all_cells this) + 2.

(** What holds of the search whenever its loop comes round, [order]
    listing the tiles closed so far, the last closed first. *)
Definition search_invariant (this : robot)
  (deltaActions : list (Z * Z)) (tvmap : grid bool) (start : cell)
  (order : list cell) (st : search) : Prop :=
  map_shaped this (closedSet st) /\
  map_shaped this (cameFrom st) /\
  NoDup order /\
  Forall (on_map this) order /\
  (forall c, on_map this c -> at_ (closedSet st) c = Some true <-> c ∈ order) /\
  (forall c, c ∈ order ->
     exists ret, came_along this deltaActions tvmap (cameFrom st) start c ret /\
                 Forall (fun c' => c' ∈ order) ret /\
                 (length ret <= length order)%nat) /\
  (forall it, it ∈ frontier st ->
     on_map this (elem it) /\
     match came_from it with
     | None => elem it = start
     | Some p => p ∈ order /\ legal_move this deltaActions tvmap p (elem it)
     end).

(** *** Scenarios *)

(** A 4 by 4 map without obstacles, a pilgrim at (0, 0) that moves one tile
    along a row or a column for one unit of fuel. *)
Definition open_field : robot :=
  {| me := {| x := 0; y := 0; unit := 2 |};
     map := filled2D 4 4 true;
     trueVisionPassableMap := put (filled2D 4 4 true) (0, 0) false |}.

Definition rook_moves (unit : Z) : list (Z * Z) := [(0, -1); (-1, 0); (1, 0); (0, 1)].

Definition one_fuel (unit : Z) : Z := 1.

End PathFinder.

(** ** The radio and castle-talk messages of robot.js *)

Module Radio.

Import JS BitCodec.

(** The object [encodeRadio] is given and [decodeRadio] returns, by its
    [type].  A property read for its truth ([obj.crusader ? 1 : 0]) is a
    [bool], an absent one being [false]; a property compared with [false]
    ([obj.clearExisting === false ? 0 : 1]) is [None] when it is absent.
    [other] stands for an object of any other type. *)
Inductive radio : Type :=
| hold
| repulse
| charge (crusader archer mage : bool) (direction : Z)
| target (clearExisting : option bool) (x y : Z)
| mine (construct : bool) (x y : Z)
| scout (update : option bool) (churches crusaders prophets preachers direction : Z)
| targetOnConstruct (alsoMirror : bool) (x y : Z)
| other.

(** What [encodeRadio] throws: an error of [encodeBits], or "Radio message
    type not understood". *)
Inductive error : Type :=
| Encoding (e : EncodingError)
| NotUnderstood.

(** [flag ? 1 : 0] *)
Definition truthy (flag : bool) : Z := if flag then 1 else 0.

(** [flag === false ? 0 : 1] *)
Definition unless_false (flag : option bool) : Z :=
  match flag with
  | Some false => 0
  | Some true | None => 1
  end.

Definition encode (contents : list Z) (pattern : list nat) : error + Z :=
  match encodeBits (map of_Z contents) pattern with
  | inl e => inl (Encoding e)
  | inr msg => inr msg
  end.

Definition encodeRadio (obj : radio) : error + Z :=
  match obj with
  | hold => encode [1; 0] [3; 13]%nat
  | repulse => encode [1; 1] [3; 13]%nat
  | charge crusader archer mage direction =>
      encode [1; 1; 0; truthy crusader; truthy archer; truthy mage; direction]
        [3; 3; 4; 1; 1; 1; 3]%nat
  | target clearExisting x y =>
      encode [0; unless_false clearExisting; x; y] [3; 1; 6; 6]%nat
  | mine construct x y =>
      encode [2; truthy construct; x; y] [3; 1; 6; 6]%nat
  | scout update churches crusaders prophets preachers direction =>
      encode [3; unless_false update; churches; crusaders; prophets; preachers;
              direction]
        [3; 1; 2; 2; 2; 2; 4]%nat
  | targetOnConstruct alsoMirror x y =>
      encode [4; truthy alsoMirror; x; y] [3; 1; 6; 6]%nat
  | other => inl NotUnderstood
  end.

(** What [decodeRadio] comes to: an object it returns, or the statement
    [this.log("Failed to decode radio transmission: " + message)] that
    precedes [return {}]. *)
Inductive decoded : Type :=
| understood (obj : radio)
| failed_to_decode.

(** [!!flag] *)
Definition set (flag : Z) : bool := negb (flag =? 0).

(** [decodeRadio(message)].  [decodeBits] gives as many fields as the
    pattern has entries, so the clauses for other lists are not taken. *)
Definition decodeRadio (message : Z) : decoded :=
  match decodeBits message [3; 13]%nat with
  | [baseHeader; baseContent] =>
      if baseHeader =? 0 then
        match decodeBits baseContent [1; 6; 6]%nat with
        | [clearExisting; x; y] => understood (target (Some (set clearExisting)) x y)
        | _ => failed_to_decode
        end
      else if baseHeader =? 1 then
        match decodeBits baseContent [3; 10]%nat with
        | [eventType; eventPayload] =>
            if eventType =? 0 then
              if eventPayload =? 0 then understood hold
              else if eventPayload =? 1 then understood repulse
              else failed_to_decode
            else if eventType =? 1 then
              match decodeBits eventPayload [4; 1; 1; 1; 3]%nat with
              | [_; c; a; m; d] => understood (charge (set c) (set a) (set m) d)
              | _ => failed_to_decode
              end
            else failed_to_decode
        | _ => failed_to_decode
        end
      else if baseHeader =? 2 then
        match decodeBits baseContent [1; 6; 6]%nat with
        | [construct; x; y] => understood (mine (set construct) x y)
        | _ => failed_to_decode
        end
      else if baseHeader =? 4 then
        match decodeBits baseContent [1; 6; 6]%nat with
        | [m; x; y] => understood (targetOnConstruct (set m) x y)
        | _ => failed_to_decode
        end
      else failed_to_decode
  | _ => failed_to_decode
  end.

(** *** Vocabulary of the statements *)

(** The messages [decodeRadio] knows, with fields that fit their widths. *)
Definition decodable (obj : radio) : Prop :=
  match obj with
  | hold | repulse => True
  | charge _ _ _ direction => 0 <= direction < 8
  | target _ x y | mine _ x y | targetOnConstruct _ x y =>
      0 <= x < 64 /\ 0 <= y < 64
  | scout _ _ _ _ _ _ | other => False
  end.

(** The object as [decodeRadio] writes it: the flag of a target is
    present. *)
Definition received (obj : radio) : radio :=
  match obj with
  | target clearExisting x y => target (Some (set (unless_false clearExisting))) x y
  | _ => obj
  end.

End Radio.

Module CastleTalk.

Import JS BitCodec.

(** [calculateTileSize(mapSize)]: [Math.ceil(mapSize / 8)] *)
Definition calculateTileSize (mapSize : Z) : Z := - ((- mapSize) / 8).

(** The arguments [message_type] and [message_content] of
    [castleTalkMessage]: a position [[x, y]], the unit type of an
    identification, the direction of an alert; [other] stands for any
    other type. *)
Inductive talk : Type :=
| position (x y : Z)
| ident (unit : Z)
| dbgClock
| alert (direction : Z)
| important
| other.

Inductive error : Type :=
| Encoding (e : EncodingError)
| UnknownMessageType.

Definition encode (contents : list number) (pattern : list nat) : error + Z :=
  match encodeBits contents pattern with
  | inl e => inl (Encoding e)
  | inr msg => inr msg
  end.

(** A message of one part. *)
Definition one_part (encoded : error + Z) : error + Outbox.message :=
  match encoded with
  | inl e => inl e
  | inr msg => inr (Outbox.Part msg)
  end.

(** [Math.floor(a / tileSize)] for integers, [tileSize] being
    [calculateTileSize(map_size)].  A tile size of zero is [-0] when
    [map_size] is negative, and the quotient is then an infinity or [NaN]. *)
Definition floor_quotient (a map_size : Z) : number :=
  let tileSize := calculateTileSize map_size in
  if tileSize =? 0 then
    if a =? 0 then NaN else Infinity (xorb (a <? 0) (map_size <? 0))
  else of_Z (a / tileSize).

(** [a % tileSize] for integers: the remainder has the sign of [a], and is
    [NaN] for a tile size of zero. *)
Definition remainder (a map_size : Z) : number :=
  let tileSize := calculateTileSize map_size in
  if tileSize =? 0 then NaN else of_Z (Z.rem a tileSize).

(** [castleTalkMessage(message_type, message_content, map_size = -1)]: one
    part or, for a position, two. *)
Definition castleTalkMessage (message : talk) (map_size : option Z)
  : error + Outbox.message :=
  let map_size := default (-1) map_size in
  match message with
  | position x y =>
      let xGrid := floor_quotient x map_size in
      let yGrid := floor_quotient y map_size in
      match encode [of_Z 2; xGrid; yGrid] [2; 3; 3]%nat with
      | inl e => inl e
      | inr rough =>
          match encode [of_Z 2; remainder x map_size; remainder y map_size]
                  [2; 3; 3]%nat with
          | inl e => inl e
          | inr fine => inr (Outbox.Parts [rough; fine])
          end
      end
  | ident unit => one_part (encode (map of_Z [0; 0; unit + 1]) [2; 3; 3]%nat)
  | dbgClock => one_part (encode (map of_Z [0; 7]) [2; 6]%nat)
  | alert direction => one_part (encode (map of_Z [0; 5; direction]) [2; 3; 3]%nat)
  | important => inr (Outbox.Part 64)
  | other => inl UnknownMessageType
  end.

(** What [decryptCastleTalk] returns, by its [type]. *)
Inductive decrypted : Type :=
| is_position (content : list Z)
| is_important
| is_ident (unit : Z)
| is_dbgClock
| is_alert (direction : Z)
| is_event.

(** [decryptCastleTalk(message)] *)
Definition decryptCastleTalk (message : Z) : decrypted :=
  match decodeBits message [2; 6]%nat with
  | [header; body] =>
      if header =? 2 then is_position (decodeBits body [3; 3]%nat)
      else if header =? 1 then is_important
      else if (1 <=? body) && (body <=? 6) then is_ident (body - 1)
      else if body =? 7 then is_dbgClock
      else if (40 <=? body) && (body <=? 47) then is_alert (body - 40)
      else is_event
  | _ => is_event
  end.

(** *** Vocabulary of the statements *)

(** The parts of a message, first to last. *)
Definition parts (msg : Outbox.message) : list Z := Outbox.promote msg.

End CastleTalk.

(** ** Extensions.js: what the program adds to [Array] and [Number] *)

Module Extensions.

(** [a % b] on integers: the remainder has the sign of [a]; [None] stands
    for [NaN], which a zero [b] gives. *)
Definition remainder (a b : Z) : option Z :=
  if b =? 0 then None else Some (Z.rem a b).

(** [Number.positiveMod(k, n)]: [((k % n) + n) % n] *)
Definition positiveMod (k n : Z) : option Z :=
  r ← remainder k n; remainder (r + n) n.

Section scoring.

Context {A : Type}.

(** The scores are numbers that compare, fractions included. *)
Variable scoringFunction : A -> Q.

(** [fnMin]: [best] and [bestScore] after the items of the loop; [None]
    is the [null] that [best] starts with.  The items are taken not to be
    [null] themselves. *)
Definition fnMin_loop (this : list A) : option (A * Q) :=
  foldl (fun acc item =>
           let score := scoringFunction item in
           match acc with
           | None => Some (item, score)
           | Some (best, bestScore) =>
               if Qlt_le_dec score bestScore then Some (item, score) else acc
           end)
    None this.

Definition fnMin (this : list A) : option A := fst <$> fnMin_loop this.

(** [fnValMin]: the least score, [null] for no item. *)
Definition fnValMin (this : list A) : option Q :=
  foldl (fun bestScore item =>
           let score := scoringFunction item in
           match bestScore with
           | None => Some score
           | Some best => if Qlt_le_dec score best then Some score else bestScore
           end)
    None this.

End scoring.

(** [argmax]: [bestIndex] after the loop from index [i] on, [best] holding
    [bestIndex] and [bestValue] once an entry has been taken; before that
    [bestValue] is [-Infinity], which every entry exceeds. *)
Fixpoint argmax_loop (i : nat) (best : option (nat * Z)) (this : list Z)
  : option nat :=
  match this with
  | [] => fst <$> best
  | value :: rest =>
      let better :=
        match best with
        | None => true
        | Some (_, bestValue) => bestValue <? value
        end in
      argmax_loop (S i) (if better then Some (i, value) else best) rest
  end.

(** [argmax()]; [None] is the [undefined] an empty array gives. *)
Definition argmax (this : list Z) : option nat := argmax_loop 0 None this.

End Extensions.

(** ** The helper functions of robot.js *)

Module Helpers.

Import PathFinder.

(** [chebyshevDistance(x1, y1, x2, y2)] *)
Definition chebyshevDistance (x1 y1 x2 y2 : Z) : Z :=
  Z.max (Z.abs (x1 - x2)) (Z.abs (y1 - y2)).

(** [squaredEuclideanDistance(x1, y1, x2, y2)] *)
Definition squaredEuclideanDistance (x1 y1 x2 y2 : Z) : Z :=
  let dx := x1 - x2 in
  let dy := y1 - y2 in
  dx * dx + dy * dy.

(** [Array.prototype.sort(compare)].  The sort is stable, as ECMAScript
    prescribes: of two items that compare equal the one that came first
    stays first.  Here every item is put, from the last to the first, in
    front of the first item it is not after. *)
Fixpoint sort_insert {A} (compare : A -> A -> Z) (item : A) (sorted : list A)
  : list A :=
  match sorted with
  | [] => [item]
  | next :: rest =>
      if compare item next <=? 0 then item :: sorted
      else next :: sort_insert compare item rest
  end.

Definition sort {A} (compare : A -> A -> Z) (a : list A) : list A :=
  foldr (sort_insert compare) [] a.

(** [(x, y) => x[0] - y[0] || x[1] - y[1]] *)
Definition by_coordinates (x y : cell) : Z :=
  if x.1 - y.1 =? 0 then x.2 - y.2 else x.1 - y.1.

(** The loop of [coordinatesRemoveDoubles] from index [i] on, [previous]
    being [a[i - 1]], or [None] for [i === 0]. *)
Fixpoint removeDoubles_loop (previous : option cell) (a : list cell) : list cell :=
  match a with
  | [] => []
  | c :: rest =>
      let keep :=
        match previous with
        | None => true
        | Some p => negb (c.1 =? p.1) || negb (c.2 =? p.2)
        end in
      (if keep then [c] else []) ++ removeDoubles_loop (Some c) rest
  end.

(** [coordinatesRemoveDoubles(a)]: the array [a] as the call leaves it,
    and the array returned. *)
Definition coordinatesRemoveDoubles (a : list cell) : list cell * list cell :=
  let a := sort by_coordinates a in
  (a, removeDoubles_loop None a).

End Helpers.

(** ** Tiles around a unit, and the mirror image of a tile *)

Module Tiles.

Import PathFinder Helpers.

(** [Math.ceil(Math.sqrt(n))] for an integer [n] that is not negative. *)
Definition ceil_sqrt (n : Z) : Z :=
  let root := Z.sqrt n in
  if root * root =? n then root else root + 1.

(** [(l, r) => l[0] * l[0] + l[1] * l[1] - r[0] * r[0] - r[1] * r[1]] *)
Definition by_radius (l r : Z * Z) : Z :=
  l.1 * l.1 + l.2 * l.2 - r.1 * r.1 - r.2 * r.2.

(** [listDeltaTiles(minRadiusSq, maxRadiusSq)] for integer radii.  The
    root of a negative [maxRadiusSq] is [NaN], and the loops are not
    entered. *)
Definition listDeltaTiles (minRadiusSq maxRadiusSq : Z) : list (Z * Z) :=
  if maxRadiusSq <? 0 then []
  else
    let maxRadius := ceil_sqrt maxRadiusSq in
    let result :=
      dx ← seqZ (- maxRadius) (2 * maxRadius + 1);
      dy ← seqZ (- maxRadius) (2 * maxRadius + 1);
      let radiusSq := dx * dx + dy * dy in
      if (minRadiusSq <=? radiusSq) && (radiusSq <=? maxRadiusSq)
      then [(dx, dy)] else [] in
    sort by_radius result.

(** [listPossibleMoves(unit)], [SPEED] being [SPECS.UNITS[unit].SPEED]
    and an omitted [unit] the robot's own. *)
Definition listPossibleMoves (SPEED : Z -> Z) (this : robot) (unit : option Z)
  : list (Z * Z) :=
  let unit := default (PathFinder.unit (me this)) unit in
  listDeltaTiles 1 (SPEED unit).

(** [listDistanceTiles(units, minRadiusSq, maxRadiusSq)], the units given
    by their positions [[u.x, u.y]]; a single unit is a list of one. *)
Definition listDistanceTiles (this : robot) (units : list cell)
  (minRadiusSq maxRadiusSq : Z) : list cell :=
  let deltas := listDeltaTiles minRadiusSq maxRadiusSq in
  let size := Z.of_nat (length (map this)) in
  let result :=
    u ← units;
    d ← deltas;
    let x := u.1 + d.1 in
    let y := u.2 + d.2 in
    if (x <? 0) || (y <? 0) || (size <=? x) || (size <=? y) then []
    else [(x, y)] in
  (coordinatesRemoveDoubles result).2.

(** [listDropoffTiles(units)] *)
Definition listDropoffTiles (this : robot) (units : list cell) : list cell :=
  listDistanceTiles this units 1 2.

(** What reading a property of [undefined] throws. *)
Inductive thrown : Type :=
| TypeError.

(** The tiles [isXAxisMirrored] looks at, in the order of its loops. *)
Definition quadrant (width height : Z) : list cell :=
  x ← seqZ 0 (width / 2); y ← seqZ 0 (height / 2); [(x, y)].

(** The body of the loops, run over the tiles still to look at: [Some]
    for a [return] from within, [None] when the loops end. *)
Fixpoint isXAxisMirrored_loop (map : grid bool) (width height : Z)
  (cells : list cell) : option bool :=
  match cells with
  | [] => None
  | (x, y) :: rest =>
      let mirroredX := width - 1 - x in
      let mirroredY := height - 1 - y in
      if negb (bool_decide (at_ map (x, y) = at_ map (x, mirroredY)))
      then Some false
      else if negb (bool_decide (at_ map (x, y) = at_ map (mirroredX, y)))
      then Some true
      else isXAxisMirrored_loop map width height rest
  end.

(** [isXAxisMirrored()], with the cache [this._util_xmirror] it reads and
    the cache it leaves.  On a map without rows [this.map[0].length]
    throws. *)
Definition isXAxisMirrored (this : robot) (_util_xmirror : option bool)
  : thrown + bool * option bool :=
  match _util_xmirror with
  | Some cached => inr (cached, _util_xmirror)
  | None =>
      match map this !! 0%nat with
      | None => inl TypeError
      | Some _ =>
          let result :=
            default true
              (isXAxisMirrored_loop (map this) (width this) (height this)
                 (quadrant (width this) (height this))) in
          inr (result, Some result)
      end
  end.

(** [mirror(x, y)] *)
Definition mirror (this : robot) (_util_xmirror : option bool) (c : cell)
  : thrown + cell * option bool :=
  match isXAxisMirrored this _util_xmirror with
  | inl e => inl e
  | inr (true, cache) => inr ((c.1, height this - 1 - c.2), cache)
  | inr (false, cache) =>
      match map this !! 0%nat with
      | None => inl TypeError
      | Some _ => inr ((width this - 1 - c.1, c.2), cache)
      end
  end.

(** [isSameSide(x1, y1, x2, y2)].  [half] is [(this.map.length - 1) / 2],
    a fraction on a map of even size; the comparisons are made here on
    the doubles of both sides. *)
Definition isSameSide (this : robot) (_util_xmirror : option bool)
  (c1 c2 : cell) : thrown + bool * option bool :=
  let twice_half := height this - 1 in
  let same (a1 a2 : Z) : bool :=
    if (2 * a1 =? twice_half) || (2 * a2 =? twice_half) then true
    else bool_decide ((2 * a1 <? twice_half) = (2 * a2 <? twice_half)) in
  match isXAxisMirrored this _util_xmirror with
  | inl e => inl e
  | inr (true, cache) => inr (same c1.2 c2.2, cache)
  | inr (false, cache) => inr (same c1.1 c2.1, cache)
  end.

(** *** Vocabulary of the statements *)

(** A map that is its own image when turned upside down ([y] becomes
    [height - 1 - y]), which the code calls mirrored across the x axis,
    and one that is its own image left to right. *)
Definition mirrored_across_x (this : robot) : Prop :=
  forall c, on_map this c -> at_ (map this) c = at_ (map this) (c.1, height this - 1 - c.2).

Definition mirrored_across_y (this : robot) : Prop :=
  forall c, on_map this c -> at_ (map this) c = at_ (map this) (width this - 1 - c.1, c.2).

End Tiles.

(** ** What the search of [findPath] reaches *)

Module Reach.

Import PathFinder.

(** A tile the search has given a cost: its entry in [gScore] is not
    [Infinity] any more. *)
Definition scored (gScore : grid score) (c : cell) : Prop :=
  exists g, at_ gScore c = Some (Cost g).

(** A tile that legal moves lead to from [start], which is the tile of
    no move at all. *)
Definition reachable (this : robot) (deltaActions : list (Z * Z))
  (tvmap : grid bool) (start c : cell) : Prop :=
  exists cells,
    head cells = Some start /\ last cells = Some c /\
    legal_route this deltaActions tvmap cells.

(** What holds of the scores whenever the loop of the search comes round,
    [order] listing the tiles closed so far: the start has a cost; a tile
    with a cost is closed or waits in the frontier; the closed tiles and
    the tiles in the frontier have a cost, and so has every tile a legal
    move away from a closed tile; and in the search for targets no closed
    tile is a target. *)
Definition search_covering (this : robot) (deltaActions : list (Z * Z))
  (tvmap : grid bool) (mappingMode : bool) (goals : list cell) (start : cell)
  (order : list cell) (st : search) : Prop :=
  map_shaped this (gScore st) /\
  scored (gScore st) start /\
  (forall c, on_map this c -> scored (gScore st) c ->
     c ∈ order \/ exists it, it ∈ frontier st /\ elem it = c) /\
  (forall c, c ∈ order -> scored (gScore st) c) /\
  (forall it, it ∈ frontier st -> scored (gScore st) (elem it)) /\
  (forall c n, c ∈ order -> legal_move this deltaActions tvmap c n ->
     scored (gScore st) n) /\
  (mappingMode = false -> forall c, c ∈ order -> c ∉ goals).

End Reach.

(** ** What the path of [findPath] costs *)

Module Cheapest.

Import PriorityQueue PathFinder Reach.

Section costs.

Variable FUEL_PER_MOVE : Z -> Z.
Variable this : robot.
Variable fuelFactor timeFactor : Z.

(** [totalActionCost] for the move from [a] to [b]. *)
Definition step_cost (a b : cell) : Z :=
  let action := (b.1 - a.1, b.2 - a.2) in
  let fuelCost :=
    FUEL_PER_MOVE (unit (me this)) * (action.1 * action.1 + action.2 * action.2) in
  fuelCost * fuelFactor + 1 * timeFactor.

(** The cost of a route: the sum of the costs of its moves. *)
Fixpoint route_cost (cells : list cell) : Z :=
  match cells with
  | a :: (b :: _) as rest => step_cost a b + route_cost rest
  | _ => 0
  end.

End costs.

(** The [heuristic] of the search: 0 in the mapping mode. *)
Definition estimate (mappingMode : bool) (goals : list cell) (c : cell) : Z :=
  if mappingMode then 0 else heuristic goals c.

(** [fuelFactor] and [timeFactor] for a [mode]. *)
Definition factors (mode : option Z) : Z * Z :=
  if default 0 mode =? 0 then (10, 1) else (1, 10).

(** What holds of the costs whenever the loop of the search comes round,
    [order] listing the tiles closed so far.  The frontier is a heap.  The
    start has the score 0; before any tile is closed it alone has a score
    and its item is alone in the frontier, and it is the first tile
    closed.  The score of a closed tile is the cost of the way [cameFrom]
    records for it, and no route to the tile costs less.  Once the start
    is closed, an item of the frontier stands for a way to its tile
    through the tile it came from, and its cost is the cost of this way
    and the estimate; the score of the tile is no more; and for the score
    of a tile that is not closed an item waits in the frontier.  The score
    of a tile a legal move away from a closed tile is no more than the
    score of the closed tile and the cost of the move.  In the search for
    targets no closed tile is a target. *)
Definition search_optimal (FUEL_PER_MOVE : Z -> Z) (this : robot)
  (mappingMode : bool) (goals : list cell) (tvmap : grid bool)
  (deltaActions : list (Z * Z)) (fuelFactor timeFactor : Z) (start : cell)
  (order : list cell) (st : search) : Prop :=
  map_shaped this (gScore st) /\
  is_heap by_cost (frontier st) /\
  at_ (gScore st) start = Some (Cost 0) /\
  (order = [] ->
   (exists it, frontier st = [it] /\ elem it = start /\ came_from it = None) /\
   forall c g, on_map this c -> at_ (gScore st) c = Some (Cost g) -> c = start) /\
  (order <> [] -> start ∈ order) /\
  (forall c, c ∈ order ->
     exists g ret,
       at_ (gScore st) c = Some (Cost g) /\
       came_along this deltaActions tvmap (cameFrom st) start c ret /\
       Forall (fun c' => c' ∈ order) ret /\
       route_cost FUEL_PER_MOVE this fuelFactor timeFactor (reverse ret) = g /\
       forall cells,
         head cells = Some start -> last cells = Some c ->
         legal_route this deltaActions tvmap cells ->
         g <= route_cost FUEL_PER_MOVE this fuelFactor timeFactor cells) /\
  (order <> [] ->
   forall it, it ∈ frontier st ->
     exists g gs,
       cost it = g + estimate mappingMode goals (elem it) /\
       at_ (gScore st) (elem it) = Some (Cost gs) /\ gs <= g /\
       match came_from it with
       | None => g = 0
       | Some p =>
           exists gp,
             at_ (gScore st) p = Some (Cost gp) /\
             g = gp + step_cost FUEL_PER_MOVE this fuelFactor timeFactor p (elem it)
       end) /\
  (order <> [] ->
   forall c g, on_map this c -> c ∉ order -> at_ (gScore st) c = Some (Cost g) ->
     exists it, it ∈ frontier st /\ elem it = c /\
                cost it = g + estimate mappingMode goals c) /\
  (forall c n, c ∈ order -> legal_move this deltaActions tvmap c n ->
     exists gc gn,
       at_ (gScore st) c = Some (Cost gc) /\ at_ (gScore st) n = Some (Cost gn) /\
       gn <= gc + step_cost FUEL_PER_MOVE this fuelFactor timeFactor c n) /\
  (mappingMode = false -> forall c, c ∈ order -> c ∉ goals).

End Cheapest.

(** ** Navigation: [equalsnd] and [navigationMove] of robot.js *)

Module Navigation.

Import PathFinder Helpers Tiles.

(** What [equalsnd] is given: a number, [null], [undefined], or an array
    of such values. *)
#[local] Unset Elimination Schemes.

Inductive nd : Type :=
| Num (z : Z)
| Null
| Undefined
| Arr (items : list nd).

#[local] Set Elimination Schemes.

(** [Array.isArray(a)] *)
Definition isArray (a : nd) : bool :=
  match a with Arr _ => true | _ => false end.

(** [a === b] for two entries met in an array of numbers.  Two arrays
    are the same only if they are one object, which two entries of two
    arrays are taken not to be. *)
Definition strictly_equal (a b : nd) : bool :=
  match a, b with
  | Num x, Num y => x =? y
  | Null, Null | Undefined, Undefined => true
  | _, _ => false
  end.

(** [equalsnd(a, b)].  The [length] of a number is [undefined], and so is
    its entry 0; reading the [length] of [null] or [undefined] throws.
    The loop over the entries of two arrays of arrays stops at the first
    pair that differs. *)
Fixpoint equalsnd (a b : nd) {struct a} : thrown + bool :=
  match a, b with
  | (Null | Undefined), _ => inl TypeError
  | (Num _ | Arr _), (Null | Undefined) => inl TypeError
  | Num _, Num _ => inr true
  | Num _, Arr _ | Arr _, Num _ => inr false
  | Arr xs, Arr ys =>
      if negb (length xs =? length ys)%nat then inr false
      else
        match xs, ys with
        | [], _ => inr true
        | x0 :: _, y0 :: _ =>
            if negb (eqb (isArray x0) (isArray y0)) then inr false
            else if isArray x0 then
              (fix loop (xs ys : list nd) {struct xs} : thrown + bool :=
                 match xs, ys with
                 | x :: xs', y :: ys' =>
                     match equalsnd x y with
                     | inl e => inl e
                     | inr false => inr false
                     | inr true => loop xs' ys'
                     end
                 | _, _ => inr true
                 end) xs ys
            else inr (forallb (fun xy => strictly_equal xy.1 xy.2) (zip xs ys))
        | _ :: _, [] => inr true
        end
  end.

(** The array [[x, y]] of a tile, and the array of the arrays of tiles. *)
Definition of_cell (c : cell) : nd := Arr [Num c.1; Num c.2].

Definition of_cells (cells : list cell) : nd := Arr (of_cell <$> cells).

(** The fields [navigationMove] keeps between the turns: the path ([None]
    for [undefined] and for [null]), the targets and the mode it was
    found for. *)
Record cache : Type := {
  _util_path : option (list cell);
  _util_path_targets : option (list cell);
  _util_path_mode : option Z
}.

(** What a call of [navigationMove] comes to: the value returned
    ([None] for [null]), the fields it leaves and whether it has logged
    its refusal; or a [TypeError]. *)
Inductive outcome : Type :=
| returned (navMove : option (Z * Z)) (kept : cache) (refused : bool)
| threw_TypeError.

Section navigationMove.

(** From [SPECS], which is not part of the sources. *)
Variable SPEED : Z -> Z.
Variable FUEL_PER_MOVE : Z -> Z.

(** The robot on this turn, with [this._util_frozen], [this.me.time] and
    [this.fuel]. *)
Variable this : robot.
Variable _util_frozen : bool.
Variable time : Z.
Variable fuel : Z.

(** The decision to search again, in the order of the four tests; the
    third and the fourth read the path that was kept. *)
Definition recalculate (kept : cache) (targets_ : nd) (mode : Z)
  : thrown + bool :=
  let stale_targets :=
    match _util_path_targets kept with
    | None => inr true
    | Some cached =>
        match equalsnd (of_cells cached) targets_ with
        | inl e => inl e
        | inr equal => inr (negb equal)
        end
    end in
  match stale_targets with
  | inl e => inl e
  | inr true => inr true
  | inr false =>
      if negb (bool_decide (_util_path_mode kept = Some mode)) then inr true
      else
        match _util_path kept with
        | None => inl TypeError
        | Some path_ =>
            match
              equalsnd (default Undefined (of_cell <$> path_ !! 0%nat))
                (of_cell (x (me this), y (me this)))
            with
            | inl e => inl e
            | inr false => inr true
            | inr true =>
                match path_ !! 1%nat with
                | None => inl TypeError
                | Some next => inr (negb (truelyPassableAbsolute this next None))
                end
            end
        end
  end.

(** The end of [navigationMove], from "Calculate delta" on. *)
Definition step_along (kept : cache) : outcome :=
  match _util_path kept with
  | None => threw_TypeError
  | Some path_ =>
      match path_ !! 1%nat with
      | None => threw_TypeError
      | Some next =>
          let dx := next.1 - x (me this) in
          let dy := next.2 - y (me this) in
          let fuelCost := FUEL_PER_MOVE (unit (me this)) * (dx * dx + dy * dy) in
          if fuel <? fuelCost then returned None kept false
          else
            returned (Some (dx, dy))
              {| _util_path := Some (drop 1 path_);
                 _util_path_targets := _util_path_targets kept;
                 _util_path_mode := _util_path_mode kept |}
              false
      end
  end.

(** [navigationMove(targets, mode)], the loops of [findPath] run for at
    most [rounds] rounds: [None] if they have not ended by then.  The
    search is made without the map flag, so that it gives a path or
    [null]. *)
Definition navigationMove (rounds : nat) (kept : cache) (targets_ : Targets)
  (mode : option Z) : option outcome :=
  if _util_frozen || (time <? 40) then Some (returned None kept true)
  else
    let promoted :=
      match targets_ with
      | target x y => Arr [of_cell (x, y)]
      | targets [] => Arr [Arr []]
      | targets ts => of_cells ts
      end in
    let goals := goals_of targets_ in
    let mode := default 0 mode in
    if existsb (fun t => (x (me this) =? t.1) && (y (me this) =? t.2)) goals
    then Some (returned None kept false)
    else
      match recalculate kept promoted mode with
      | inl _ => Some threw_TypeError
      | inr false => Some (step_along kept)
      | inr true =>
          match
            findPath (fun unit => listPossibleMoves SPEED this (Some unit))
              FUEL_PER_MOVE this rounds (targets goals) (Some mode) None None
          with
          | None => None
          | Some throws_TypeError => Some threw_TypeError
          | Some (returns (path found)) =>
              Some (step_along
                      {| _util_path := Some found;
                         _util_path_targets := Some goals;
                         _util_path_mode := Some mode |})
          | Some (returns (null | scores _)) =>
              Some (returned None
                      {| _util_path := None;
                         _util_path_targets := None;
                         _util_path_mode := _util_path_mode kept |}
                      false)
          end
      end.

End navigationMove.

(** *** Vocabulary of the statements *)

(** An array all of whose entries are at the same depth: numbers, [null]
    and [undefined] at depth 0, arrays of entries of depth [d] at depth
    [d + 1]. *)
Fixpoint uniform (depth : nat) (a : nd) : Prop :=
  match depth, a with
  | O, (Num _ | Null | Undefined) => True
  | S d, Arr items => Forall (uniform d) items
  | _, _ => False
  end.

(** Consecutive tiles of a path are possible moves apart. *)
Fixpoint steps_along (moves : list (Z * Z)) (path_ : list cell) : Prop :=
  match path_ with
  | a :: (b :: _) as rest =>
      (b.1 - a.1, b.2 - a.2) ∈ moves /\ steps_along moves rest
  | _ => True
  end.

(** What [navigationMove] keeps true of its fields, [moves] being the
    possible moves of the robot: when targets are kept, so is a path that
    ends on one of them and is made of possible moves. *)
Definition kept_well (moves : list (Z * Z)) (kept : cache) : Prop :=
  forall cached, _util_path_targets kept = Some cached ->
    exists path_,
      _util_path kept = Some path_ /\
      (exists goal, last path_ = Some goal /\ goal ∈ cached) /\
      steps_along moves path_.

End Navigation.

(** * Part II: properties *)

(** ** BitCodec *)

Module JSFacts.

Import JS.

Lemma eqm_refl k a : eqm k a a.
Proof. exists 0. lia. Qed.

Lemma eqm_trans k a b c : eqm k a b -> eqm k b c -> eqm k a c.
Proof. intros [t ->] [u ->]. exists (u + t). lia. Qed.

Lemma eqm_weaken k j a b : 0 <= j <= k -> eqm k a b -> eqm j a b.
Proof.
  intros Hj [t ->]. exists (t * 2 ^ (k - j)).
  replace k with (k - j + j) at 1 by lia. rewrite Z.pow_add_r by lia. lia.
Qed.

Lemma eqm_mod k a b : 0 <= k -> eqm k a b -> a mod 2 ^ k = b mod 2 ^ k.
Proof. intros Hk [t ->]. apply Z.mod_add. pose proof (Z.pow_pos_nonneg 2 k). lia. Qed.

Lemma ToInt32_range z : - 2 ^ 31 <= ToInt32 z < 2 ^ 31.
Proof. unfold ToInt32. pose proof (Z.mod_pos_bound (z + 2 ^ 31) (2 ^ 32)). lia. Qed.

Lemma ToInt32_small z : - 2 ^ 31 <= z < 2 ^ 31 -> ToInt32 z = z.
Proof. intros H. unfold ToInt32. rewrite Z.mod_small; lia. Qed.

Lemma ToInt32_eqm z : eqm 32 (ToInt32 z) z.
Proof.
  exists (- ((z + 2 ^ 31) / 2 ^ 32)). unfold ToInt32.
  rewrite Z.mod_eq; lia.
Qed.

Lemma shl_one p : 0 <= p <= 30 -> shl 1 p = 2 ^ p.
Proof.
  intros Hp. unfold shl, shiftCount. rewrite Z.mod_small by lia.
  rewrite (ToInt32_small 1) by lia. rewrite Z.shiftl_mul_pow2 by lia.
  assert (0 < 2 ^ p) by (apply Z.pow_pos_nonneg; lia).
  assert (2 ^ p <= 2 ^ 30) by (apply Z.pow_le_mono_r; lia).
  rewrite Z.mul_1_l. apply ToInt32_small. lia.
Qed.

Lemma band_mask m p : 0 <= p <= 30 -> band m (2 ^ p - 1) = m mod 2 ^ p.
Proof.
  intros Hp. unfold band.
  assert (0 < 2 ^ p) by (apply Z.pow_pos_nonneg; lia).
  assert (2 ^ p <= 2 ^ 30) by (apply Z.pow_le_mono_r; lia).
  rewrite (ToInt32_small (2 ^ p - 1)) by lia.
  replace (2 ^ p - 1) with (Z.ones p) by (rewrite Z.ones_equiv; lia).
  rewrite Z.land_ones by lia.
  apply eqm_mod; [lia|]. apply (eqm_weaken 32); [lia|]. apply ToInt32_eqm.
Qed.

Lemma sar_div m p : 0 <= p <= 30 -> sar m p = ToInt32 m / 2 ^ p.
Proof.
  intros Hp. unfold sar, shiftCount. rewrite Z.mod_small by lia.
  apply Z.shiftr_div_pow2. lia.
Qed.

Lemma lor_low a z p : 0 <= p -> 0 <= z < 2 ^ p -> Z.lor (a * 2 ^ p) z = a * 2 ^ p + z.
Proof.
  intros Hp Hz. symmetry. apply Z.add_nocarry_lor.
  apply Z.bits_inj'. intros n Hn. rewrite Z.land_spec, Z.bits_0.
  destruct (Z.lt_ge_cases n p).
  - rewrite Z.mul_pow2_bits_low by lia. done.
  - assert (Z.testbit z n = false) as ->; [|apply andb_false_r].
    destruct (decide (z = 0)) as [->|]; [apply Z.bits_0|].
    apply Z.bits_above_log2; [lia|].
    apply Z.log2_lt_pow2; [lia|].
    assert (2 ^ p <= 2 ^ n) by (apply Z.pow_le_mono_r; lia). lia.
Qed.

Lemma bor_shl msg p z :
  0 <= p <= 30 -> 0 <= z < 2 ^ p -> eqm 32 (bor (shl msg p) z) (msg * 2 ^ p + z).
Proof.
  intros Hp Hz. unfold bor, shl, shiftCount. rewrite Z.mod_small by lia.
  assert (0 < 2 ^ p) by (apply Z.pow_pos_nonneg; lia).
  assert (2 ^ p <= 2 ^ 30) by (apply Z.pow_le_mono_r; lia).
  rewrite (ToInt32_small z) by lia.
  rewrite (ToInt32_small (ToInt32 _)) by apply ToInt32_range.
  rewrite Z.shiftl_mul_pow2 by lia.
  destruct (ToInt32_eqm msg) as [t Ht].
  destruct (ToInt32_eqm (ToInt32 msg * 2 ^ p)) as [u Hu].
  assert (E : 2 ^ 32 = 2 ^ (32 - p) * 2 ^ p).
  { rewrite <- Z.pow_add_r by lia. f_equal. lia. }
  rewrite Hu, Ht, E.
  replace ((msg + t * (2 ^ (32 - p) * 2 ^ p)) * 2 ^ p + u * (2 ^ (32 - p) * 2 ^ p))
    with ((msg + t * (2 ^ (32 - p) * 2 ^ p) + u * 2 ^ (32 - p)) * 2 ^ p) by ring.
  rewrite lor_low by lia.
  exists (t * 2 ^ p + u). unfold eqm. rewrite E. ring.
Qed.

End JSFacts.

Module BitCodecFacts.

Import JS JSFacts BitCodec.

Lemma safeInteger_of_Z z :
  Z.abs z <= MAX_SAFE_INTEGER -> safeInteger (of_Z z) = Some z.
Proof.
  intros Hz. unfold safeInteger, of_Z.
  rewrite inject_Z_Qred. simpl.
  by apply Z.leb_le in Hz as ->.
Qed.

Lemma bits_cons p pattern : bits (p :: pattern) = Z.of_nat p + bits pattern.
Proof. unfold bits. simpl. lia. Qed.

Lemma bits_app pattern pattern' : bits (pattern ++ pattern') = bits pattern + bits pattern'.
Proof. unfold bits. rewrite sum_list_with_app. lia. Qed.

Lemma bits_nonneg pattern : 0 <= bits pattern.
Proof. unfold bits. lia. Qed.

Lemma fits_length values pattern : fits values pattern -> length values = length pattern.
Proof. apply Forall2_length. Qed.

Lemma pack_range values pattern :
  fits values pattern -> 0 <= pack values pattern < 2 ^ bits pattern.
Proof.
  induction 1 as [|v p values pattern Hv _ IH]; simpl; [unfold bits; simpl; lia|].
  rewrite bits_cons, Z.pow_add_r by (pose proof (bits_nonneg pattern); lia).
  nia.
Qed.

Lemma pack_snoc values pattern v p :
  length values = length pattern ->
  pack (values ++ [v]) (pattern ++ [p]) = pack values pattern * 2 ^ Z.of_nat p + v.
Proof.
  revert pattern. induction values as [|w values IH]; intros [|q pattern] Hlen;
    simplify_eq/=.
  - unfold bits. simpl. lia.
  - rewrite IH by done. rewrite bits_app, bits_cons.
    replace (bits []) with 0 by done.
    rewrite Z.add_0_r, Z.pow_add_r by (pose proof (bits_nonneg pattern); lia).
    ring.
Qed.

(** The encoder's loop started on [msg] holds, modulo 2^32, [msg] shifted
    left by the whole pattern with the packed fields below it. *)
Lemma encodeBits_loop_eqm values pattern :
  fits values pattern -> Forall (fun p => (p <= 30)%nat) pattern ->
  forall msg, exists m,
    encodeBits_loop msg (map of_Z values) pattern = inr m /\
    eqm 32 m (msg * 2 ^ bits pattern + pack values pattern).
Proof.
  induction 1 as [|v p values pattern Hv _ IH]; intros Hp msg.
  - exists msg. split; [done|]. exists 0. simpl. unfold bits. simpl. lia.
  - apply Forall_cons in Hp as [Hp30 Hp]. cbn [encodeBits_loop map pack].
    rewrite shl_one by lia.
    assert (2 ^ Z.of_nat p <= 2 ^ 30) by (apply Z.pow_le_mono_r; lia).
    rewrite safeInteger_of_Z by (unfold MAX_SAFE_INTEGER; lia).
    destruct (Z.ltb_spec v 0); [lia|].
    destruct (Z.leb_spec (2 ^ Z.of_nat p) v); [lia|].
    destruct (IH Hp (bor (shl msg (Z.of_nat p)) v)) as (m & -> & [t Ht]).
    exists m. split; [done|].
    destruct (bor_shl msg (Z.of_nat p) v) as [u Hu]; [lia..|].
    exists (t + u * 2 ^ bits pattern). rewrite Ht, Hu, bits_cons.
    rewrite Z.pow_add_r by (pose proof (bits_nonneg pattern); lia). ring.
Qed.

(** The decoder's loop only reads the low [bits] bits of the message. *)
Lemma decodeBits_loop_eqm values pattern :
  fits values pattern -> Forall (fun p => (p <= 30)%nat) pattern ->
  bits pattern <= 32 ->
  forall msg result,
    eqm (bits pattern) msg (pack values pattern) ->
    decodeBits_loop (rev pattern) msg result = values ++ result.
Proof.
  intros Hfit. pose proof (fits_length _ _ Hfit) as Hlen. revert Hfit.
  revert values Hlen. induction pattern as [|p pattern IH] using rev_ind;
    intros values Hlen Hfit Hp Hbits msg result Hm.
  - destruct values; [done|]. simpl in Hlen. lia.
  - destruct values as [|v values _] using rev_ind;
      [rewrite length_app in Hlen; simpl in Hlen; lia|].
    rewrite !length_app in Hlen. simpl in Hlen.
    apply Forall2_app_inv in Hfit as [Hfit Hv]; [|lia].
    apply Forall2_cons_1 in Hv as [Hv _].
    apply Forall_app in Hp as [Hp Hp30]. apply Forall_cons in Hp30 as [Hp30 _].
    rewrite bits_app, bits_cons in Hbits, Hm. replace (bits []) with 0 in * by done.
    pose proof (bits_nonneg pattern) as Hnn.
    rewrite rev_app_distr. simpl.
    rewrite shl_one, band_mask, sar_div by lia.
    rewrite pack_snoc in Hm by lia.
    assert (0 < 2 ^ Z.of_nat p) by (apply Z.pow_pos_nonneg; lia).
    assert (Hfield : msg mod 2 ^ Z.of_nat p = v).
    { rewrite (eqm_mod (Z.of_nat p) msg (pack values pattern * 2 ^ Z.of_nat p + v)).
      - rewrite Z.add_comm, Z.mod_add by lia. apply Z.mod_small. lia.
      - lia.
      - eapply eqm_weaken; [|done]. lia. }
    rewrite Hfield, (IH values); [by rewrite <- app_assoc|lia|done|done|lia|].
    assert (Hm' : eqm (bits pattern + Z.of_nat p) (ToInt32 msg)
                    (pack values pattern * 2 ^ Z.of_nat p + v)).
    { eapply eqm_trans; [|rewrite Z.add_0_r in Hm; exact Hm].
      eapply eqm_weaken; [|apply ToInt32_eqm]. lia. }
    destruct Hm' as [t ->]. exists t.
    rewrite Z.pow_add_r by lia.
    replace (pack values pattern * 2 ^ Z.of_nat p + v
             + t * (2 ^ bits pattern * 2 ^ Z.of_nat p))
      with (v + (pack values pattern + t * 2 ^ bits pattern) * 2 ^ Z.of_nat p) by ring.
    rewrite Z.div_add by lia. rewrite Z.div_small by lia. lia.
Qed.

Lemma safeInteger_Some c z :
  safeInteger c = Some z -> exists q, c = Finite q /\ (q == inject_Z z)%Q.
Proof.
  destruct c as [q| |]; [|done..]. unfold safeInteger. cbv zeta.
  destruct (Pos.eqb_spec (Qden (Qred q)) 1) as [Hden|]; simpl; [|done].
  destruct (Z.abs _ <=? _); [|done]. intros [= <-].
  exists q. split; [done|]. rewrite <- (Qred_correct q) at 1.
  destruct (Qred q) as [n d]. simpl in *. subst d. reflexivity.
Qed.

Lemma safeInteger_integer c : ~ integer c -> safeInteger c = None.
Proof.
  intros Hc. destruct (safeInteger c) as [z|] eqn:Hz; [|done].
  destruct Hc. apply safeInteger_Some in Hz as (q & -> & Hq). by exists z.
Qed.

Lemma safeInteger_negative c z : negative c -> safeInteger c = Some z -> z < 0.
Proof.
  intros Hc (q & -> & Hq)%safeInteger_Some. simpl in Hc.
  rewrite Hq in Hc. unfold Qlt in Hc. simpl in Hc. lia.
Qed.

Lemma safeInteger_exceeds c p z :
  exceeds c p -> safeInteger c = Some z -> 2 ^ Z.of_nat p <= z.
Proof.
  intros Hc (q & -> & Hq)%safeInteger_Some. simpl in Hc.
  rewrite Hq in Hc. unfold Qle in Hc. simpl in Hc. lia.
Qed.

(** Whatever the width, [1 << p] is at most [2^p]: the shift count wraps
    at 32 and [1 << 31] is negative. *)
Lemma shl_one_le (p : nat) : shl 1 (Z.of_nat p) <= 2 ^ Z.of_nat p.
Proof.
  unfold shl, shiftCount. rewrite (ToInt32_small 1) by lia.
  pose proof (Z.mod_pos_bound (Z.of_nat p) 32) as Hk.
  pose proof (Z.mod_le (Z.of_nat p) 32) as Hle.
  set (k := Z.of_nat p mod 32) in *.
  rewrite Z.shiftl_mul_pow2, Z.mul_1_l by lia.
  assert (0 < 2 ^ k) by (apply Z.pow_pos_nonneg; lia).
  assert (2 ^ k <= 2 ^ Z.of_nat p) by (apply Z.pow_le_mono_r; lia).
  destruct (decide (k = 31)) as [->|].
  - change (ToInt32 (2 ^ 31)) with (- 2 ^ 31). lia.
  - assert (2 ^ k <= 2 ^ 30) by (apply Z.pow_le_mono_r; lia).
    rewrite ToInt32_small; lia.
Qed.

Lemma encodeBits_loop_rejects contents : forall pattern msg i c p,
  contents !! i = Some c -> pattern !! i = Some p ->
  negative c \/ ~ integer c \/ exceeds c p ->
  exists e, encodeBits_loop msg contents pattern = inl e.
Proof.
  induction contents as [|c0 contents IH]; intros [|p0 pattern] msg i c p Hc Hp Hbad;
    try done.
  cbn [encodeBits_loop].
  destruct (safeInteger c0) as [z|] eqn:Hz; [|by eexists].
  destruct (Z.ltb_spec z 0); [by eexists|].
  destruct (Z.leb_spec (shl 1 (Z.of_nat p0)) z); [by eexists|].
  destruct i as [|i]; simplify_eq/=.
  - destruct Hbad as [Hneg|[Hint|Hex]].
    + pose proof (safeInteger_negative _ _ Hneg Hz). lia.
    + apply safeInteger_integer in Hint. congruence.
    + pose proof (safeInteger_exceeds _ _ _ Hex Hz).
      pose proof (shl_one_le p). lia.
  - by eapply IH.
Qed.

(** C1, the law as the specification words it, fails once the pattern is
    wider than the 32 bits of the shift operators: three 16-bit fields
    holding 1, 0, 0 encode to 0, which decodes to 0, 0, 0. *)
Lemma roundtrip_fails_beyond_32_bits :
  let values := [1; 0; 0] in
  let pattern := [16; 16; 16]%nat in
  fits values pattern /\
  encodeBits (map of_Z values) pattern = inr 0 /\
  decodeBits 0 pattern = [0; 0; 0] /\
  ~ (exists m, encodeBits (map of_Z values) pattern = inr m /\
               decodeBits m pattern = values).
Proof.
  assert (He : encodeBits (map of_Z [1; 0; 0]) [16; 16; 16]%nat = inr 0)
    by (vm_compute; reflexivity).
  assert (Hd : decodeBits 0 [16; 16; 16]%nat = [0; 0; 0])
    by (vm_compute; reflexivity).
  cbv zeta. split; [|split; [exact He|split; [exact Hd|]]].
  - unfold fits. repeat constructor; lia.
  - intros (m & Hm & Hdec). rewrite He in Hm. injection Hm as <-.
    rewrite Hd in Hdec. discriminate Hdec.
Qed.

(** A 31-bit field cannot be encoded at all: [1 << 31] is negative, so every
    value is reported as exceeding the maximum. *)
Example encode_width_31 :
  encodeBits [of_Z 0] [31%nat] = inl (ExceedsMaximum 0 31).
Proof. vm_compute. reflexivity. Qed.

(** C1 (amended): for widths of at most 30 bits each and at most 32 bits in
    total, and values with [0 <= values[i] < 2^widths[i]], the encoder
    succeeds and decoding its result with the same widths gives back the
    values in the same order. *)
Theorem decodeBits_encodeBits values pattern :
  fits values pattern ->
  Forall (fun p => (p <= 30)%nat) pattern ->
  bits pattern <= 32 ->
  exists m, encodeBits (map of_Z values) pattern = inr m /\
            decodeBits m pattern = values.
Proof.
  intros Hfit Hp Hbits.
  destruct (encodeBits_loop_eqm values pattern Hfit Hp 0) as (m & Hm & Heqm).
  exists m. unfold encodeBits.
  rewrite length_map, (fits_length _ _ Hfit), Nat.eqb_refl. split; [done|].
  unfold decodeBits.
  rewrite (decodeBits_loop_eqm values pattern Hfit Hp Hbits m []); [apply app_nil_r|].
  eapply eqm_weaken; [|exact Heqm]. pose proof (bits_nonneg pattern). lia.
Qed.

Lemma decodeBits_encodeBits_witness :
  exists m, encodeBits (map of_Z [5; 1; 63; 0]) [3; 1; 6; 6]%nat = inr m /\
            decodeBits m [3; 1; 6; 6]%nat = [5; 1; 63; 0].
Proof.
  apply decodeBits_encodeBits.
  - unfold fits. repeat constructor; lia.
  - repeat constructor; lia.
  - vm_compute. discriminate.
Defined.

(** C8: [encodeBits] throws, and so returns no message, when the two arrays
    differ in length or when some value is negative, is not an integer, or
    is at least [2^width] for its width; [encodeBits([3], [1])] and
    [encodeBits([-1], [4])] throw. *)
Theorem encodeBits_throws :
  (forall contents pattern,
     (length contents <> length pattern \/
      exists i c p, contents !! i = Some c /\ pattern !! i = Some p /\
                    (negative c \/ ~ integer c \/ exceeds c p)) ->
     exists e, encodeBits contents pattern = inl e) /\
  encodeBits [of_Z 3] [1%nat] = inl (ExceedsMaximum 3 1) /\
  encodeBits [of_Z (-1)] [4%nat] = inl (NegativeValue (-1)).
Proof.
  split; [|split; vm_compute; reflexivity].
  intros contents pattern Hbad. unfold encodeBits.
  destruct (Nat.eqb_spec (length contents) (length pattern)) as [Hlen|Hlen];
    simpl; [|by eexists].
  destruct Hbad as [?|(i & c & p & Hc & Hp & Hbad)]; [done|].
  by eapply encodeBits_loop_rejects.
Qed.

Lemma encodeBits_throws_witness :
  exists e, encodeBits [of_Z 2; Finite (1 # 2)] [4; 4]%nat = inl e.
Proof.
  apply (proj1 encodeBits_throws). right.
  exists 1%nat, (Finite (1 # 2)), 4%nat. split; [reflexivity|].
  split; [reflexivity|]. right. left.
  intros [z Hz]. unfold Qeq in Hz. simpl in Hz. lia.
Defined.

Example encode_radio_target :
  encodeBits (map of_Z [0; 1; 17; 42]) [3; 1; 6; 6]%nat = inr 5226.
Proof. reflexivity. Qed.

Example decode_radio_target :
  decodeBits 5226 [3; 1; 6; 6]%nat = [0; 1; 17; 42].
Proof. reflexivity. Qed.

Example decode_doc_example : decodeBits 23 [1; 2; 3]%nat = [0; 2; 7].
Proof. reflexivity. Qed.

End BitCodecFacts.

(** ** MessageProtocol *)

Module OutboxFacts.

Import Outbox.

Example arbitration_scenario :
  let '(s1, r1) := radioSetEventMessage silent 10 (Part 1) 4 in
  let '(s2, r2) := radioSetEventMessage s1 5 (Part 2) 4 in
  let '(s3, r3) := radioSetEventMessage s2 20 (Parts [3; 4]) 9 in
  (r1, r2, r3) = (true, false, true) /\
  _util_rd_msg s2 = Some [1] /\ _util_rd_msg s3 = Some [3; 4] /\
  _util_rd_prio s3 = Some 20 /\ _util_rd_radiusSq s3 = Some 9.
Proof. repeat split. Qed.




Example drain_scenario :
  let '(s1, _) := castleTalkSetEventMessage silent 3 (Parts [8; 9]) in
  let '(s2, t2) := castleTalkSendMessage s1 in
  let '(s3, t3) := castleTalkSendMessage s2 in
  let '(s4, t4) := castleTalkSendMessage s3 in
  (t2, t3, t4) = ([castleTalk 8], [castleTalk 9], []) /\
  _util_ct_prio s2 = Some 3 /\ _util_ct_prio s3 = None /\ s4 = s3.
Proof. repeat split. Qed.

(** C9: with parts [first :: rest] queued on a channel, one send transmits
    exactly [first], leaves [rest] queued and touches nothing else, except
    that the priority register is reset when [rest] is empty, after which a
    message of any priority is accepted; with nothing queued a send
    transmits nothing and leaves every field as it was. *)
Theorem sendMessage_drains_one_part (this : outbox) :
  (forall first rest, _util_rd_msg this = Some (first :: rest) ->
     let '(this', sent) := radioSendMessage this in
     sent = [signal first (_util_rd_radiusSq this)] /\
     _util_rd_msg this' = Some rest /\
     (rest <> [] -> _util_rd_prio this' = _util_rd_prio this) /\
     (rest = [] -> _util_rd_prio this' = None /\
        forall priority msg radiusSq,
          (radioSetEventMessage this' priority msg radiusSq).2 = true) /\
     _util_rd_radiusSq this' = _util_rd_radiusSq this /\
     _util_ct_prio this' = _util_ct_prio this /\
     _util_ct_msg this' = _util_ct_msg this) /\
  (queued (_util_rd_msg this) = [] -> radioSendMessage this = (this, [])) /\
  (forall first rest, _util_ct_msg this = Some (first :: rest) ->
     let '(this', sent) := castleTalkSendMessage this in
     sent = [castleTalk first] /\
     _util_ct_msg this' = Some rest /\
     (rest <> [] -> _util_ct_prio this' = _util_ct_prio this) /\
     (rest = [] -> _util_ct_prio this' = None /\
        forall priority msg,
          (castleTalkSetEventMessage this' priority msg).2 = true) /\
     _util_rd_prio this' = _util_rd_prio this /\
     _util_rd_msg this' = _util_rd_msg this /\
     _util_rd_radiusSq this' = _util_rd_radiusSq this) /\
  (queued (_util_ct_msg this) = [] -> castleTalkSendMessage this = (this, [])).
Proof.
  unfold radioSendMessage, castleTalkSendMessage, radioSetEventMessage,
    castleTalkSetEventMessage, queued.
  split_and!.
  - intros first rest ->. simpl. split_and!; try done.
    + intros Hrest. by destruct rest.
    + by intros ->.
  - by destruct (_util_rd_msg this) as [[|??]|].
  - intros first rest ->. simpl. split_and!; try done.
    + intros Hrest. by destruct rest.
    + by intros ->.
  - by destruct (_util_ct_msg this) as [[|??]|].
Qed.

Lemma sendMessage_drains_one_part_witness :
  let this := (radioSetEventMessage silent 7 (Parts [1; 2]) 16).1 in
  let '(this', sent) := radioSendMessage this in
  sent = [signal 1 (Some 16)] /\
  _util_rd_msg this' = Some [2] /\
  ([2] <> [] -> _util_rd_prio this' = Some 7) /\
  ([2] = [] -> _util_rd_prio this' = None /\
     forall priority msg radiusSq,
       (radioSetEventMessage this' priority msg radiusSq).2 = true) /\
  _util_rd_radiusSq this' = Some 16 /\
  _util_ct_prio this' = None /\
  _util_ct_msg this' = None.
Proof.
  exact (proj1 (sendMessage_drains_one_part
                  (radioSetEventMessage silent 7 (Parts [1; 2]) 16).1)
           1 [2] eq_refl).
Defined.

(** X14: the priority register and the queue of a channel stay in step.
    From a silent robot, whatever messages of one part at least are set
    and whatever calls send them, on either channel and in any order, the
    priority register of a channel is unset exactly when no part is
    queued on it. *)
Lemma in_step_reachable this : rtc step silent this -> in_step this.
Proof.
  intros Hrtc. revert this Hrtc. apply rtc_ind_r; [by split|].
  intros this0 this' _ Hstep [Hrd Hct]. unfold in_step.
  destruct Hstep as [this priority msg r Hmsg|this priority msg Hmsg|this|this].
  - unfold radioSetEventMessage. destruct outranks; simpl; [done|].
    split; [|done]. split; [done|]. intros Hq. by destruct Hmsg.
  - unfold castleTalkSetEventMessage. destruct outranks; simpl; [done|].
    split; [done|]. split; [done|]. intros Hq. by destruct Hmsg.
  - unfold radioSendMessage.
    destruct (_util_rd_msg this) as [[|first rest]|] eqn:Hm; simpl;
      [by rewrite Hm| |by rewrite Hm].
    split; [|done]. case_bool_decide as Hlen.
    + by apply nil_length_inv in Hlen as ->.
    + rewrite Hrd. simpl. split; [done|]. by intros ->.
  - unfold castleTalkSendMessage.
    destruct (_util_ct_msg this) as [[|first rest]|] eqn:Hm; simpl;
      [by rewrite Hm| |by rewrite Hm].
    split; [done|]. case_bool_decide as Hlen.
    + by apply nil_length_inv in Hlen as ->.
    + rewrite Hct. simpl. split; [done|]. by intros ->.
Qed.

Lemma in_step_reachable_witness :
  in_step (radioSendMessage (radioSetEventMessage silent 7 (Parts [1; 2]) 16).1).1.
Proof.
  apply in_step_reachable.
  eapply rtc_l; [apply (step_rd_set silent 7 (Parts [1; 2]) 16); discriminate|].
  apply rtc_once, step_rd_send.
Defined.

End OutboxFacts.

(** ** WorldKnowledge *)

Module WorldKnowledgeFacts.

Import WorldKnowledge.

Example castle_seen_record :
  findById castle_seen 7 =
    Some {| id := 7; team := 0; unit := 0; x := Some 1; y := Some 1;
            posUpdateTurn := Some 5; damage := None |} /\
  length (_util_known_structures castle_seen) = 1%nat.
Proof. split; vm_compute; reflexivity. Qed.

Lemma findById_findRef this id b :
  findById this id = Some b -> exists l, findRef this id = Some (l, b).
Proof.
  unfold findById. destruct (findRef this id) as [[l b']|]; [|done].
  intros [= <-]. by exists l.
Qed.

Lemma findRef_lookup this id l b :
  findRef this id = Some (l, b) <->
  _util_known_bots this !! id = Some l /\ objects this !! l = Some b.
Proof.
  unfold findRef. destruct (_util_known_bots this !! id) as [l'|]; simpl.
  - destruct (objects this !! l') as [b'|] eqn:Hb; simpl.
    + split; [by intros [= <- <-]|]. intros [[= <-] Hb']. congruence.
    + split; [done|]. intros [[= <-] Hb']. congruence.
  - split; [done|]. by intros [? _].
Qed.

Lemma findRef_register this id team unit :
  findRef (register this id team unit).1 id =
    Some (fresh (dom (objects this)), fresh_record id team unit).
Proof.
  apply findRef_lookup. simpl. by rewrite !lookup_insert_eq.
Qed.

Lemma outdated_true b turn :
  outdated b turn = true <-> exists t, posUpdateTurn b = Some t /\ turn <= t.
Proof.
  unfold outdated. destruct (posUpdateTurn b) as [t|].
  - rewrite Z.leb_le. split; [by exists t|]. by intros (t' & [= <-] & Hle).
  - split; [done|]. by intros (t' & Ht' & _).
Qed.

(** C4: for a known id whose record holds the position-update turn [t0], a
    call of [updatePosition] with a turn [turn <= t0] returns normally and
    leaves the whole state, and so every field of the record, as it was,
    reporting nothing; in particular, once an update of turn 5 is stored,
    an update of turn 3 changes nothing. *)
Theorem updatePosition_outdated this id b t0 :
  findById this id = Some b -> posUpdateTurn b = Some t0 ->
  (forall x y turn trueVision, turn <= t0 ->
     updatePosition this id x y (Some turn) trueVision = inr (this, [])) /\
  (t0 = 5 -> forall x y trueVision,
     updatePosition this id x y (Some 3) trueVision = inr (this, [])).
Proof.
  intros [l Hb]%findById_findRef Ht0.
  assert (Hgen : forall x y turn trueVision, turn <= t0 ->
            updatePosition this id x y (Some turn) trueVision = inr (this, [])).
  { intros x' y' turn tv Hturn. unfold updatePosition. rewrite Hb.
    assert (outdated b turn = true) as ->; [|done].
    apply outdated_true. eauto. }
  split; [done|]. intros -> x' y' tv. by apply Hgen.
Qed.

Lemma updatePosition_outdated_witness :
  updatePosition castle_seen 7 2 2 (Some 3) None = inr (castle_seen, []).
Proof.
  eapply (proj2 (updatePosition_outdated castle_seen 7 _ 5 (proj1 castle_seen_record)
                   eq_refl)).
  reflexivity.
Defined.

(** An update that is stored is found again with its turn. *)
Lemma findById_store_position this id l b x y turn :
  findRef this id = Some (l, b) ->
  findById (store_position this l b x y turn) id =
    Some {| id := WorldKnowledge.id b; team := team b; unit := unit b;
            x := Some x; y := Some y; posUpdateTurn := Some turn;
            damage := damage b |}.
Proof.
  intros [Hl Hb]%findRef_lookup. unfold findById.
  erewrite (proj2 (findRef_lookup _ _ _ _)); [done|].
  simpl. by rewrite lookup_insert_eq.
Qed.

(** C5, as the specification words it, fails for an update that is not
    newer than the stored one: a castle recorded at (1, 1) on turn 5 is
    reported at (2, 2) with turn 3; the report is dropped by the turn test,
    before the structure test, and nothing is logged although a logger is
    installed. *)
Lemma outdated_structure_move_is_not_logged :
  _logger castle_seen = true /\
  (exists b, findById castle_seen 7 = Some b /\ structure b /\
             x b = Some 1 /\ y b = Some 1) /\
  updatePosition castle_seen 7 2 2 (Some 3) (Some true) = inr (castle_seen, []) /\
  ~ (exists said, updatePosition castle_seen 7 2 2 (Some 3) (Some true)
                    = inr (castle_seen, said) /\ Exists is_logged said).
Proof.
  assert (Hu : updatePosition castle_seen 7 2 2 (Some 3) (Some true)
               = inr (castle_seen, [])) by (vm_compute; reflexivity).
  split_and!; [done| |exact Hu|].
  - eexists. split; [apply castle_seen_record|]. unfold structure. simpl.
    split_and!; (done || lia).
  - intros (said & Hsaid & Hlog). rewrite Hu in Hsaid.
    injection Hsaid as <-. by apply Exists_nil in Hlog.
Qed.

(** C5 (amended): for a structure whose position is recorded, an update for
    the same id that reports other coordinates returns normally and leaves
    the whole state, and so the stored position, as it was.  When its turn
    is newer than the stored one the two complaints go to [log], which
    hands them to the logger if there is one; when its turn is not newer
    nothing is said. *)
Theorem updatePosition_structure_stays this id b bx x' y' turn trueVision :
  findById this id = Some b -> structure b -> x b = Some bx ->
(bx ≠ x') \/ (y b ≠ Some y') ->
  let complaints :=
    [Logged (MoveStructure (unit b) (x b, y b) (x', y')); Logged CannotRecover] in
  (outdated b turn = false -> _logger this = true ->
     updatePosition this id x' y' (Some turn) trueVision = inr (this, complaints)) /\
  (outdated b turn = false -> _logger this = false ->
     updatePosition this id x' y' (Some turn) trueVision = inr (this, [])) /\
  (outdated b turn = true ->
     updatePosition this id x' y' (Some turn) trueVision = inr (this, [])) /\
  (exists said, updatePosition this id x' y' (Some turn) trueVision = inr (this, said)) /\
  (forall this' said,
     updatePosition this id x' y' (Some turn) trueVision = inr (this', said) ->
     findById this' id = Some b).
Proof.
  intros Hfind Hs Hx Hne. pose proof Hfind as [l Hb]%findById_findRef.
  unfold structure in Hs. unfold updatePosition. rewrite Hb. cbv zeta.
  destruct (outdated b turn).
  { split_and!; try done; [by eexists|]. by intros ?? [= <- <-]. }
  assert ((unit b <? 2) = true) as -> by (apply Z.ltb_lt; lia).
  rewrite Hx. rewrite bool_decide_true by done. unfold log.
  destruct (_logger this); simpl.
  all: split_and!; try done; [by eexists|]; by intros ?? [= <- <-].
Qed.

Lemma updatePosition_structure_stays_witness :
  updatePosition castle_seen 7 2 1 (Some 6) (Some true) =
    inr (castle_seen,
         [Logged (MoveStructure 0 (Some 1, Some 1) (2, 1)); Logged CannotRecover]).
Proof.
  refine (proj1 (updatePosition_structure_stays castle_seen 7 _ 1 2 1 6 (Some true)
                   (proj1 castle_seen_record) _ eq_refl _) eq_refl eq_refl).
  - unfold structure. simpl. lia.
  - left. lia.
Defined.

Example pilgrim_reported_record :
  findById pilgrim_reported 9 =
    Some {| id := 9; team := 1; unit := 2; x := Some 4; y := Some 6;
            posUpdateTurn := Some 2; damage := Some 10 |}.
Proof. vm_compute. reflexivity. Qed.

Lemma initialSighting_conflict this id b team' unit' trueVision :
  findById this id = Some b -> (team b ≠ team') \/ (unit b ≠ unit') ->
  exists msg,
    initialSighting this id team' unit' trueVision =
      if negb (default false trueVision) then (this, log this msg)
      else ((register this id team' unit').1,
            log this msg ++ log this ChangeByTrueVision
            ++ [InitialSighting (fresh (dom (objects this)))]).
Proof.
  intros Hb Hne. unfold initialSighting. rewrite Hb. cbv zeta.
  destruct (decide (team b = team')) as [Ht|Ht].
  - destruct Hne as [Hne|Hne]; [done|].
    rewrite bool_decide_false by (by intros ?).
    rewrite bool_decide_true by done. by eexists.
  - rewrite bool_decide_true by done. by eexists.
Qed.

(** C6: for a known id, a sighting that reports another team or another
    unit type leaves the whole state as it was when [trueVision] is false
    or omitted, and makes the stored team and unit type the reported ones
    when [trueVision] is true; a sighting with the stored team and unit
    type changes nothing and reports nothing. *)
Theorem initialSighting_known this id b team' unit' :
  findById this id = Some b ->
  ((team b ≠ team') \/ (unit b ≠ unit') ->
     (forall trueVision, trueVision = None \/ trueVision = Some false ->
        (initialSighting this id team' unit' trueVision).1 = this) /\
     (exists b', findById (initialSighting this id team' unit' (Some true)).1 id
                   = Some b' /\ team b' = team' /\ unit b' = unit')) /\
  (team b = team' /\ unit b = unit' ->
     forall trueVision,
       initialSighting this id team' unit' trueVision = (this, [])).
Proof.
  intros Hb. split.
  - intros Hne. split.
    + intros tv Htv.
      destruct (initialSighting_conflict this id b team' unit' tv Hb Hne) as [msg ->].
      by destruct Htv as [-> | ->].
    + destruct (initialSighting_conflict this id b team' unit' (Some true) Hb Hne)
        as [msg ->].
      exists (fresh_record id team' unit'). split; [|done]. simpl negb. cbv iota.
      unfold findById. cbn [fst]. by rewrite findRef_register.
  - intros [Ht Hu] tv. unfold initialSighting. rewrite Hb. cbv zeta.
    by rewrite !bool_decide_false by (by intros ?).
Qed.

Lemma initialSighting_known_witness :
  (initialSighting pilgrim_reported 9 0 2 None).1 = pilgrim_reported.
Proof.
  refine (proj1 (proj1 (initialSighting_known pilgrim_reported 9 _ 0 2
                          pilgrim_reported_record) _) None _).
  - left. simpl. lia.
  - by left.
Defined.



(** The list of known structures is not touched by the replacement: a
    structure that was positioned stays listed through its old record. *)
Lemma initialSighting_keeps_structures this id team' unit' trueVision :
  _util_known_structures (initialSighting this id team' unit' trueVision).1
  = _util_known_structures this.
Proof.
  unfold initialSighting. cbv zeta.
  destruct (findById this id) as [b|]; [|done].
  repeat case_bool_decide; try done; by destruct (default false trueVision).
Qed.

End WorldKnowledgeFacts.

(** ** PriorityQueue *)

Module PriorityQueueFacts.

Import PriorityQueue.

Section Facts.

Context {A : Type}.
Variable comparator : A -> A -> Z.

Local Abbreviation le := (le comparator).
Local Abbreviation is_heap := (is_heap comparator).
Local Abbreviation heap_up := (heap_up comparator).
Local Abbreviation heap_down := (heap_down comparator).
Local Abbreviation enqueue := (enqueue comparator).
Local Abbreviation dequeue := (dequeue comparator).
Local Abbreviation enqueue_loop := (enqueue_loop comparator).
Local Abbreviation dequeue_loop := (dequeue_loop comparator).
Local Abbreviation smallerChild := (smallerChild comparator).

#[local] Arguments Nat.div : simpl never.
#[local] Arguments Nat.mul : simpl never.
#[local] Arguments Nat.add : simpl never.
#[local] Arguments PriorityQueue.smallerChild : simpl never.

(** Two readings of the same place give the same item. *)
Ltac same_item :=
  repeat match goal with
  | H : ?i = S ?k |- _ => subst i; rewrite ?Nat.sub_succ, ?Nat.sub_0_r in *
  | H : Some ?a = Some ?b |- _ =>
      first [ constr_eq a b; clear H
            | injection H as H; first [subst b | subst a] ]
  | H1 : ?l !! ?i = Some ?a, H2 : ?l !! ?i = Some ?b |- _ =>
      first [ constr_eq a b; clear H2
            | assert (b = a) by congruence; first [subst b | subst a]; clear H2 ]
  end.

(** *** The loops, one step at a time *)

Lemma parentIndex_lt (k : nat) : (k / 2 < S k)%nat.
Proof. pose proof (Nat.Div0.div_le_upper_bound k 2 k). lia. Qed.

Lemma smallerChild_bounds c lastIndex parentIndex :
  Z.of_nat (parentIndex * 2 + 1) <= lastIndex ->
  (parentIndex < smallerChild c lastIndex parentIndex)%nat /\
  Z.of_nat (smallerChild c lastIndex parentIndex) <= lastIndex.
Proof.
  intros H. unfold PriorityQueue.smallerChild.
  destruct (Z.leb_spec (Z.of_nat (parentIndex * 2 + 1 + 1)) lastIndex); [|lia].
  destruct (c !! _) as [r|]; [|lia]. destruct (c !! _) as [l|]; [|lia].
  destruct (_ <? _); lia.
Qed.

Lemma enqueue_loop_step c k child parent :
  c !! S k = Some child -> c !! (k / 2)%nat = Some parent ->
  enqueue_loop c (S k) =
    if decide (0 <= comparator child parent) then c
    else enqueue_loop (<[S k := parent]> (<[(k / 2)%nat := child]> c)) (k / 2)%nat.
Proof.
  intros Hc Hp. match goal with |- _ = ?r => set (rhs := r) end.
  simp enqueue_loop. rewrite Hc. simp enqueue_loop. rewrite Hp. simp enqueue_loop.
  subst rhs.
  destruct (Z_le_dec 0 (comparator child parent)); simp enqueue_loop; by case_decide.
Qed.

Lemma enqueue_loop_out_of_range c k :
  c !! S k = None \/ c !! (k / 2)%nat = None -> enqueue_loop c (S k) = c.
Proof.
  intros Hout. simp enqueue_loop.
  destruct (c !! S k) as [child|], (c !! (k / 2)%nat) as [parent|];
    simp enqueue_loop; try done.
  by destruct Hout.
Qed.

Lemma dequeue_loop_stop c lastIndex parentIndex :
  lastIndex < Z.of_nat (parentIndex * 2 + 1) ->
  dequeue_loop c lastIndex parentIndex = c.
Proof.
  intros Hlast. simp dequeue_loop.
  destruct (Z_lt_dec lastIndex (Z.of_nat (parentIndex * 2 + 1))); [done|lia].
Qed.

Lemma dequeue_loop_step c lastIndex parentIndex parent child :
  Z.of_nat (parentIndex * 2 + 1) <= lastIndex ->
  c !! parentIndex = Some parent ->
  c !! smallerChild c lastIndex parentIndex = Some child ->
  dequeue_loop c lastIndex parentIndex =
    if decide (comparator parent child <= 0) then c
    else dequeue_loop
           (<[smallerChild c lastIndex parentIndex := parent]>
              (<[parentIndex := child]> c))
           lastIndex (smallerChild c lastIndex parentIndex).
Proof.
  intros Hlast Hp Hc. match goal with |- _ = ?r => set (rhs := r) end.
  simp dequeue_loop.
  destruct (Z_lt_dec lastIndex (Z.of_nat (parentIndex * 2 + 1))); [lia|].
  simp dequeue_loop. rewrite Hp. simp dequeue_loop. rewrite Hc. simp dequeue_loop.
  subst rhs.
  destruct (Z_le_dec (comparator parent child) 0); simp dequeue_loop; by case_decide.
Qed.

(** *** Reading a content in which two items were exchanged *)

Lemma lookup_exchange (c : list A) i j a b k :
  c !! i = Some a -> c !! j = Some b ->
  <[j := a]> (<[i := b]> c) !! k =
    if decide (k = j) then Some a else if decide (k = i) then Some b else c !! k.
Proof.
  intros Hi Hj.
  pose proof (lookup_lt_Some _ _ _ Hi). pose proof (lookup_lt_Some _ _ _ Hj).
  case_decide as Hkj.
  { subst k. apply list_lookup_insert_eq. by rewrite length_insert. }
  rewrite list_lookup_insert_ne by done.
  case_decide as Hki.
  { subst k. by apply list_lookup_insert_eq. }
  by rewrite list_lookup_insert_ne.
Qed.

Lemma insert_Permutation (c : list A) i a b :
  c !! i = Some a -> b :: c ≡ₚ a :: <[i := b]> c.
Proof.
  revert i. induction c as [|x c IH]; intros [|i] Hi; simplify_eq/=.
  - apply perm_swap.
  - rewrite (perm_swap x b), (IH i Hi). apply perm_swap.
Qed.

Lemma exchange_Permutation (c : list A) i j a b :
  c !! i = Some a -> c !! j = Some b -> <[j := a]> (<[i := b]> c) ≡ₚ c.
Proof.
  intros Hi Hj. destruct (decide (i = j)) as [->|Hne].
  { rewrite Hi in Hj. injection Hj as ->.
    rewrite list_insert_insert_eq. by rewrite list_insert_id. }
  apply (inj (cons b)).
  rewrite <- (insert_Permutation (<[i := b]> c) j b a)
    by (by rewrite list_lookup_insert_ne).
  symmetry. by apply insert_Permutation.
Qed.

(** Either loop returns its content or exchanges two items and goes on. *)
Lemma enqueue_loop_cases c j :
  enqueue_loop c j = c \/
  exists k child parent,
    j = S k /\ c !! S k = Some child /\ c !! (k / 2)%nat = Some parent /\
    ~ 0 <= comparator child parent /\
    enqueue_loop c j =
      enqueue_loop (<[S k := parent]> (<[(k / 2)%nat := child]> c)) (k / 2)%nat.
Proof.
  destruct j as [|k]; [left; by simp enqueue_loop|].
  destruct (c !! S k) as [child|] eqn:Hc;
    [|left; apply enqueue_loop_out_of_range; by left].
  destruct (c !! (k / 2)%nat) as [parent|] eqn:Hp;
    [|left; apply enqueue_loop_out_of_range; by right].
  rewrite (enqueue_loop_step c k child parent) by done.
  case_decide; [by left|right]. by exists k, child, parent.
Qed.

Lemma dequeue_loop_cases c lastIndex parentIndex :
  dequeue_loop c lastIndex parentIndex = c \/
  exists parent child,
    Z.of_nat (parentIndex * 2 + 1) <= lastIndex /\
    c !! parentIndex = Some parent /\
    c !! smallerChild c lastIndex parentIndex = Some child /\
    ~ comparator parent child <= 0 /\
    dequeue_loop c lastIndex parentIndex =
      dequeue_loop
        (<[smallerChild c lastIndex parentIndex := parent]>
           (<[parentIndex := child]> c))
        lastIndex (smallerChild c lastIndex parentIndex).
Proof.
  destruct (Z_lt_dec lastIndex (Z.of_nat (parentIndex * 2 + 1))) as [Hlast|Hlast];
    [left; by apply dequeue_loop_stop|].
  destruct (c !! parentIndex) as [parent|] eqn:Hp,
    (c !! smallerChild c lastIndex parentIndex) as [child|] eqn:Hc.
  2-4: left; simp dequeue_loop;
    destruct (Z_lt_dec lastIndex (Z.of_nat (parentIndex * 2 + 1))); [done|];
    simp dequeue_loop; rewrite Hp; simp dequeue_loop; rewrite ?Hc;
    by simp dequeue_loop.
  rewrite (dequeue_loop_step c lastIndex parentIndex parent child) by (done || lia).
  case_decide; [by left|right]. exists parent, child. split_and!; (done || lia).
Qed.

Lemma dequeue_loop_Permutation c lastIndex parentIndex :
  dequeue_loop c lastIndex parentIndex ≡ₚ c.
Proof.
  remember (Z.to_nat (lastIndex + 1) - parentIndex)%nat as n eqn:Hn.
  revert c parentIndex Hn. induction n as [n IH] using lt_wf_ind.
  intros c parentIndex ->.
  destruct (dequeue_loop_cases c lastIndex parentIndex)
    as [->|(parent & child & Hlast & Hp & Hc & _ & ->)]; [done|].
  destruct (smallerChild_bounds c lastIndex parentIndex Hlast).
  erewrite IH; [by apply exchange_Permutation| |done]. lia.
Qed.

(** *** Order *)

Hypothesis comparator_trans :
  forall x y z, comparator x y <= 0 -> comparator y z <= 0 -> comparator x z <= 0.
Hypothesis comparator_total :
  forall x y, 0 <= comparator x y -> comparator y x <= 0.

Lemma le_trans x y z : le x y -> le y z -> le x z.
Proof. apply comparator_trans. Qed.

Lemma le_total x y : ~ le x y -> le y x.
Proof. unfold PriorityQueue.le. intros H. apply comparator_total. lia. Qed.

Lemma le_refl x : le x x.
Proof.
  unfold PriorityQueue.le. destruct (Z.le_gt_cases (comparator x x) 0); [done|].
  apply comparator_total. lia.
Qed.

(** *** Parents and children *)

Lemma parent_cases (i : nat) :
  (0 < i)%nat -> (i = (i - 1) / 2 * 2 + 1 \/ i = (i - 1) / 2 * 2 + 1 + 1)%nat.
Proof.
  intros Hi. pose proof (Nat.div_mod_eq (i - 1) 2).
  pose proof (Nat.mod_upper_bound (i - 1) 2). lia.
Qed.

Lemma parent_left (p : nat) : ((p * 2 + 1 - 1) / 2 = p)%nat.
Proof. replace (p * 2 + 1 - 1)%nat with (p * 2)%nat by lia. apply Nat.div_mul. lia. Qed.

Lemma parent_right (p : nat) : ((p * 2 + 1 + 1 - 1) / 2 = p)%nat.
Proof.
  replace (p * 2 + 1 + 1 - 1)%nat with (1 + p * 2)%nat by lia.
  rewrite Nat.div_add by lia. reflexivity.
Qed.

Lemma parent_child (i p : nat) :
  (i = p * 2 + 1 \/ i = p * 2 + 1 + 1)%nat -> ((i - 1) / 2 = p)%nat.
Proof. intros [-> | ->]; [apply parent_left|apply parent_right]. Qed.

Lemma parent_lt (i : nat) : (0 < i)%nat -> ((i - 1) / 2 < i)%nat.
Proof. intros Hi. destruct (parent_cases i Hi); lia. Qed.

(** Gives [lia] the two shapes of every index that has a parent. *)
Ltac parents :=
  repeat match goal with
  | Hi : (0 < ?i)%nat |- _ =>
      lazymatch goal with
      | _ : (i = (i - 1) / 2 * 2 + 1 \/ i = (i - 1) / 2 * 2 + 1 + 1)%nat |- _ => fail
      | _ => pose proof (parent_cases i Hi)
      end
  end.

(** *** [enqueue] keeps the heap property *)

Lemma heap_up_root c : heap_up c 0 -> is_heap c.
Proof. intros [Hup _] i x y Hi. apply Hup; lia. Qed.

Lemma is_heap_heap_up_snoc c item :
  is_heap c -> heap_up (c ++ [item]) (length c).
Proof.
  intros Hheap. split.
  - intros i x y Hi Hne Hx Hy.
    assert (i < length c)%nat.
    { apply lookup_lt_Some in Hy. rewrite length_app in Hy. simpl in Hy. lia. }
    pose proof (parent_lt i Hi).
    rewrite lookup_app_l in Hx, Hy by lia. by eapply Hheap.
  - intros i x y _ Hi Hp _ Hy.
    apply lookup_lt_Some in Hy. rewrite length_app in Hy. simpl in Hy.
    pose proof (parent_lt i Hi). lia.
Qed.

Lemma enqueue_loop_length c j : length (enqueue_loop c j) = length c.
Proof.
  revert c. induction j as [j IH] using lt_wf_ind. intros c.
  destruct j as [|k]; [by simp enqueue_loop|].
  destruct (c !! S k) as [child|] eqn:Hc;
    [|by rewrite enqueue_loop_out_of_range by by left].
  destruct (c !! (k / 2)%nat) as [parent|] eqn:Hp;
    [|by rewrite enqueue_loop_out_of_range by by right].
  rewrite (enqueue_loop_step c k child parent) by done.
  case_decide; [done|].
  rewrite IH by apply parentIndex_lt. by rewrite !length_insert.
Qed.

Lemma enqueue_loop_Permutation c j : enqueue_loop c j ≡ₚ c.
Proof.
  revert c. induction j as [j IH] using lt_wf_ind. intros c.
  destruct j as [|k]; [by simp enqueue_loop|].
  destruct (c !! S k) as [child|] eqn:Hc;
    [|by rewrite enqueue_loop_out_of_range by by left].
  destruct (c !! (k / 2)%nat) as [parent|] eqn:Hp;
    [|by rewrite enqueue_loop_out_of_range by by right].
  rewrite (enqueue_loop_step c k child parent) by done.
  case_decide; [done|].
  rewrite IH by apply parentIndex_lt. by apply exchange_Permutation.
Qed.

Lemma enqueue_loop_heap j : forall c,
  (j < length c)%nat -> heap_up c j -> is_heap (enqueue_loop c j).
Proof.
  induction j as [j IH] using lt_wf_ind. intros c Hj Hup.
  destruct j as [|k]; [simp enqueue_loop; by apply heap_up_root|].
  pose proof (parentIndex_lt k) as Hk.
  destruct (lookup_lt_is_Some_2 c (S k) Hj) as [child Hc].
  destruct (lookup_lt_is_Some_2 c (k / 2)%nat ltac:(lia)) as [parent Hp].
  rewrite (enqueue_loop_step c k child parent) by done.
  destruct Hup as [Hup Hgrand]. case_decide as Hcmp.
  - (* the child is not before its parent: the loop stops *)
    intros i x y Hi Hx Hy. destruct (decide (i = S k)) as [->|Hne].
    + replace (S k - 1)%nat with k in Hx by lia. same_item.
      by apply comparator_total.
    + by eapply Hup.
  - (* the child is before its parent: they are exchanged *)
    assert (Hcp : le child parent) by (unfold PriorityQueue.le; lia).
    apply IH; [done|by rewrite !length_insert; lia|].
    split.
    + intros i x y Hi Hne.
      rewrite !(lookup_exchange c (k / 2)%nat (S k) parent child) by done.
      pose proof (parent_lt i Hi) as Hlt.
      repeat case_decide; intros Hx Hy; same_item; try lia.
      * (* [i] is a child of the item that went down *)
        eapply (Hgrand i); [lia|done|done| |done].
        by rewrite Nat.sub_succ, Nat.sub_0_r.
      * exact Hcp.
      * (* [i] is the other child of the place the item went up to *)
        eapply le_trans; [exact Hcp|]. eapply (Hup i); [done|done| |done].
        congruence.
      * by eapply (Hup i).
    + intros i x y Hk0 Hi Hpar.
      rewrite !(lookup_exchange c (k / 2)%nat (S k) parent child) by done.
      pose proof (parent_lt _ Hk0) as Hlt. pose proof (parent_lt i Hi) as Hlt'.
      repeat case_decide; intros Hx Hy; same_item; try lia.
      * eapply (Hup (k / 2)%nat); [done|lia|done|done].
      * eapply (le_trans _ parent).
        -- eapply (Hup (k / 2)%nat); [done|lia|done|done].
        -- eapply (Hup i); [done|done| |done]. congruence.
Qed.

Lemma enqueue_heap c item : is_heap c -> is_heap (enqueue c item).
Proof.
  intros Hheap. unfold PriorityQueue.enqueue. cbv zeta.
  rewrite length_app. simpl.
  replace (length c + 1 - 1)%nat with (length c) by lia.
  apply enqueue_loop_heap; [rewrite length_app; simpl; lia|].
  by apply is_heap_heap_up_snoc.
Qed.

Lemma enqueue_Permutation c item : enqueue c item ≡ₚ item :: c.
Proof.
  unfold PriorityQueue.enqueue. cbv zeta. rewrite enqueue_loop_Permutation.
  by rewrite Permutation_app_comm.
Qed.

Lemma enqueue_length c item : length (enqueue c item) = S (length c).
Proof. by rewrite enqueue_Permutation. Qed.

(** *** [dequeue] keeps the heap property *)

(** The child the loop goes on with is a child, is in range, and is not
    after either child. *)
Lemma smallerChild_spec c parentIndex :
  (parentIndex * 2 + 1 < length c)%nat ->
  let m := smallerChild c (Z.of_nat (length c) - 1) parentIndex in
  (m = parentIndex * 2 + 1 \/ m = parentIndex * 2 + 1 + 1)%nat /\
  (m < length c)%nat /\
  forall i y z, ((i - 1) / 2 = parentIndex)%nat -> (0 < i)%nat ->
    c !! i = Some y -> c !! m = Some z -> le z y.
Proof.
  intros Hleft. unfold PriorityQueue.smallerChild. cbv zeta.
  destruct (lookup_lt_is_Some_2 c _ Hleft) as [leftChild Hl]. rewrite Hl.
  assert (Hchildren : forall i, ((i - 1) / 2 = parentIndex)%nat -> (0 < i)%nat ->
            (i = parentIndex * 2 + 1 \/ i = parentIndex * 2 + 1 + 1)%nat).
  { intros i Hpar Hi. destruct (parent_cases i Hi); lia. }
  destruct (Z.leb_spec (Z.of_nat (parentIndex * 2 + 1 + 1)) (Z.of_nat (length c) - 1))
    as [Hright|Hright].
  - destruct (lookup_lt_is_Some_2 c (parentIndex * 2 + 1 + 1)%nat ltac:(lia))
      as [rightChild Hr].
    rewrite Hr. destruct (Z.ltb_spec (comparator rightChild leftChild) 0).
    + split_and!; [by right|lia|]. intros i y z Hpar Hi Hy Hz.
      destruct (Hchildren i Hpar Hi) as [-> | ->]; same_item.
      * unfold PriorityQueue.le. lia.
      * apply le_refl.
    + split_and!; [by left|lia|]. intros i y z Hpar Hi Hy Hz.
      destruct (Hchildren i Hpar Hi) as [-> | ->]; same_item.
      * apply le_refl.
      * by apply comparator_total.
  - split_and!; [by left|lia|]. intros i y z Hpar Hi Hy Hz.
    destruct (Hchildren i Hpar Hi) as [-> | ->]; same_item.
    + apply le_refl.
    + apply lookup_lt_Some in Hy. lia.
Qed.

Lemma dequeue_loop_heap n : forall c parentIndex,
  n = (length c - parentIndex)%nat ->
  heap_down c parentIndex ->
  is_heap (dequeue_loop c (Z.of_nat (length c) - 1) parentIndex).
Proof.
  induction n as [n IH] using lt_wf_ind. intros c j -> [Hdown Hgrand].
  destruct (Z_lt_dec (Z.of_nat (length c) - 1) (Z.of_nat (j * 2 + 1))) as [Hlast|Hlast].
  { (* no child: the loop stops *)
    rewrite dequeue_loop_stop by done. intros i x y Hi Hx Hy.
    eapply Hdown; [done| |done|done]. apply lookup_lt_Some in Hy. parents. lia. }
  pose proof (smallerChild_spec c j ltac:(lia)) as (Hm & Hmlen & Hsmall).
  set (m := smallerChild c (Z.of_nat (length c) - 1) j) in *.
  destruct (lookup_lt_is_Some_2 c j ltac:(lia)) as [parent Hp].
  destruct (lookup_lt_is_Some_2 c m Hmlen) as [child Hc].
  rewrite (dequeue_loop_step c _ j parent child) by (done || lia).
  fold m. pose proof (parent_child m j Hm) as Hparm. case_decide as Hcmp.
  - (* the parent is not after its smaller child: the loop stops *)
    intros i x y Hi Hx Hy. destruct (decide (((i - 1) / 2)%nat = j)) as [Hpar|Hpar].
    + rewrite Hpar in Hx. same_item.
      eapply le_trans; [exact Hcmp|]. by eapply Hsmall.
    + by eapply Hdown.
  - (* the parent is after its smaller child: they are exchanged *)
    assert (Hcp : le child parent) by (apply comparator_total; lia).
    assert (Hjm : (j < m)%nat) by lia.
    replace (length c) with
      (length (<[m := parent]> (<[j := child]> c))) by by rewrite !length_insert.
    eapply IH; [|done|]; [rewrite !length_insert; lia|].
    split.
    + intros i x y Hi Hpar.
      rewrite !(lookup_exchange c j m parent child) by done.
      repeat case_decide; intros Hx Hy; same_item; parents; try lia.
      * exact Hcp.
      * (* [i] is the other child of the place the item went down from *)
        eapply Hsmall; [|done|done|done]. congruence.
      * (* [i] is the place the item went down from *)
        eapply (Hgrand m); [lia|lia|done| |done]. congruence.
      * by eapply Hdown.
    + intros i x y Hm0 Hi Hpar.
      rewrite !(lookup_exchange c j m parent child) by done.
      repeat case_decide; intros Hx Hy; same_item; parents; try lia.
      eapply (Hdown i); [done|lia| |done]. congruence.
Qed.

Lemma dequeue_empty : dequeue [] = inl EmptyQueue.
Proof. reflexivity. Qed.

Lemma pop_length (c : list A) : length (pop c) = (length c - 1)%nat.
Proof. unfold pop. rewrite length_take. lia. Qed.

Lemma pop_lookup (c : list A) i y : pop c !! i = Some y -> c !! i = Some y.
Proof. unfold pop. by intros [? _]%lookup_take_Some. Qed.

Lemma pop_replace_root (front : A) (rest : list A) (last : A) :
  (front :: rest) !! length rest = Some last ->
  rest ≡ₚ pop (<[0%nat := last]> (front :: rest)).
Proof.
  cbn [insert list_insert]. unfold pop.
  destruct rest as [|x rest _] using rev_ind; [done|].
  rewrite length_app. simpl.
  replace (length rest + 1)%nat with (S (length rest)) by lia.
  rewrite lookup_cons_ne_0 by lia. simpl.
  rewrite lookup_app_r by lia. rewrite Nat.sub_diag. intros [= ->].
  rewrite length_app. simpl.
  replace (length rest + 1 - 0)%nat with (S (length rest)) by lia.
  cbn [take]. rewrite take_app_length. by rewrite Permutation_app_comm.
Qed.

Lemma dequeue_unfold front rest :
  exists last,
    (front :: rest) !! length rest = Some last /\
    dequeue (front :: rest) =
      inr (front,
           dequeue_loop (pop (<[0%nat := last]> (front :: rest)))
             (Z.of_nat (length rest) - 1) 0).
Proof.
  destruct (lookup_lt_is_Some_2 (front :: rest) (length rest)) as [last Hlast];
    [simpl; lia|].
  exists last. split; [done|].
  unfold PriorityQueue.dequeue. cbn [lookup list_lookup length]. cbv zeta.
  replace (Z.to_nat (Z.of_nat (S (length rest)) - 1)) with (length rest) by lia.
  rewrite Hlast. do 3 f_equal. lia.
Qed.

Lemma dequeue_cons_Permutation front rest :
  exists c', dequeue (front :: rest) = inr (front, c') /\ rest ≡ₚ c'.
Proof.
  destruct (dequeue_unfold front rest) as (last & Hlast & ->).
  eexists. split; [done|].
  rewrite dequeue_loop_Permutation. by apply pop_replace_root.
Qed.

Lemma dequeue_cons front rest :
  exists c', dequeue (front :: rest) = inr (front, c') /\
             front :: rest ≡ₚ front :: c' /\
             (is_heap (front :: rest) -> is_heap c').
Proof.
  destruct (dequeue_unfold front rest) as (last & Hlast & ->).
  eexists. split_and!; [done| |].
  - rewrite dequeue_loop_Permutation. by apply perm_skip, pop_replace_root.
  - intros Hheap.
    replace (Z.of_nat (length rest) - 1)
      with (Z.of_nat (length (pop (<[0%nat := last]> (front :: rest)))) - 1)
      by (rewrite pop_length, length_insert; simpl; lia).
    eapply dequeue_loop_heap; [done|]. split; [|intros; lia].
    intros i x y Hi Hpar Hx%pop_lookup Hy%pop_lookup.
    rewrite list_lookup_insert_ne in Hx, Hy by lia. by eapply Hheap.
Qed.

Lemma dequeue_inr c front c' :
  dequeue c = inr (front, c') ->
  c !! 0%nat = Some front /\ c ≡ₚ front :: c' /\ (is_heap c -> is_heap c').
Proof.
  destruct c as [|x rest]; [done|].
  destruct (dequeue_cons x rest) as (c'' & -> & Hperm & Hheap).
  by intros [= <- <-].
Qed.

Lemma dequeue_inl c e : dequeue c = inl e -> c = [].
Proof.
  destruct c as [|x rest]; [done|].
  by destruct (dequeue_cons x rest) as (c'' & -> & _).
Qed.

(** *** The front of a heap *)

Lemma root_min c front :
  is_heap c -> c !! 0%nat = Some front -> forall y, y ∈ c -> le front y.
Proof.
  intros Hheap Hfront y [i Hy]%list_elem_of_lookup. revert y Hy.
  induction i as [i IH] using lt_wf_ind. intros y Hy.
  destruct (decide (i = 0%nat)) as [->|Hi].
  { same_item. apply le_refl. }
  assert (Hlt : ((i - 1) / 2 < i)%nat) by (apply parent_lt; lia).
  destruct (lookup_lt_is_Some_2 c ((i - 1) / 2)%nat) as [z Hz].
  { apply lookup_lt_Some in Hy. lia. }
  eapply le_trans; [by eapply IH|]. eapply (Hheap i); [lia|done|done].
Qed.

(** *** Sequences of calls *)

Local Abbreviation run := (run comparator).
Local Abbreviation content_after := (content_after comparator).

Lemma is_heap_nil : is_heap [].
Proof. by intros i x y _ ?. Qed.

Lemma content_after_heap calls : forall c,
  is_heap c -> is_heap (content_after c calls).
Proof.
  induction calls as [|[item|] calls IH]; intros c Hheap; simpl; [done|..].
  - by apply IH, enqueue_heap.
  - destruct (dequeue c) as [e|[front c']] eqn:Hdeq; [by apply IH|].
    apply IH. by apply (dequeue_inr _ _ _ Hdeq).
Qed.

(** Two dequeues in a row give their items in order. *)
Lemma run_adjacent calls : forall c i x y,
  is_heap c ->
  run c calls !! i = Some (Dequeued x) ->
  run c calls !! S i = Some (Dequeued y) ->
  le x y.
Proof.
  induction calls as [|[item|] calls IH]; intros c i x y Hheap; simpl; [done|..].
  - destruct i as [|i]; [done|]. simpl. by apply IH, enqueue_heap.
  - destruct (dequeue c) as [e|[front c']] eqn:Hdeq.
    { destruct i as [|i]; [done|]. simpl. by apply IH. }
    destruct (dequeue_inr _ _ _ Hdeq) as (Hfront & Hperm & Hheap').
    destruct i as [|i]; simpl; [|by apply IH, Hheap'].
    intros [= <-]. destruct calls as [|[item|] calls]; simpl; [done..|].
    destruct (dequeue c') as [e|[front' c'']] eqn:Hdeq'; [done|].
    intros [= <-]. destruct (dequeue_inr _ _ _ Hdeq') as (Hfront' & _ & _).
    eapply root_min; [done..|]. rewrite Hperm. right.
    by eapply list_elem_of_lookup_2.
Qed.

Lemma adjacent_Sorted (outcomes : list outcome) :
  (forall i x y, outcomes !! i = Some (Dequeued x) ->
     outcomes !! S i = Some (Dequeued y) -> le x y) ->
  forall xs before after,
    outcomes = before ++ (Dequeued <$> xs) ++ after -> StronglySorted le xs.
Proof.
  intros Hadj xs before after Hout.
  apply Sorted_StronglySorted; [intros x y z; apply le_trans|].
  revert before Hout. induction xs as [|x xs IH]; intros before Hout; [constructor|].
  constructor.
  - apply (IH (before ++ [Dequeued x])). by rewrite <- app_assoc.
  - destruct xs as [|y xs]; constructor.
    apply (Hadj (length before)); rewrite Hout.
    + by rewrite lookup_app_r, Nat.sub_diag by lia.
    + rewrite lookup_app_r by lia.
      by replace (S (length before) - length before)%nat with 1%nat by lia.
Qed.

(** Dequeuing as often as there are items gives them all. *)
Lemma run_all n : forall c,
  length c = n -> is_heap c ->
  exists xs, run c (replicate n Dequeue) = Dequeued <$> xs /\ xs ≡ₚ c.
Proof.
  induction n as [|n IH]; intros c Hlen Hheap.
  { exists []. apply nil_length_inv in Hlen as ->. by split. }
  destruct c as [|front rest]; [done|].
  destruct (dequeue_cons front rest) as (c' & Hdeq & Hperm & Hheap').
  cbn [replicate PriorityQueue.run]. rewrite Hdeq.
  destruct (IH c') as (xs & -> & Hxs); [|by apply Hheap'|].
  { apply (inj (cons front)) in Hperm. rewrite <- Hperm. simpl in Hlen. lia. }
  exists (front :: xs). split; [done|]. by rewrite Hxs.
Qed.

(** C2: whatever calls of [enqueue] and [dequeue] are made on a new queue
    whose comparator orders its items (it is transitive, and of two items
    one is not after the other), the items returned by dequeues that follow
    each other with no enqueue between them are in non-decreasing order;
    dequeuing as many times as there are items returns all of them in
    non-decreasing order; and [dequeue] on an empty queue throws. *)
Theorem dequeue_order (calls : list call) :
  (forall before xs after,
     run constructor calls = before ++ (Dequeued <$> xs) ++ after ->
     StronglySorted le xs) /\
  (let c := content_after constructor calls in
   exists xs, run c (replicate (count c) Dequeue) = Dequeued <$> xs /\
              StronglySorted le xs /\ xs ≡ₚ c) /\
  dequeue constructor = inl EmptyQueue /\
  (forall c, count c = 0%nat -> dequeue c = inl EmptyQueue).
Proof.
  split_and!.
  - intros before xs after. apply adjacent_Sorted. intros i x y.
    apply run_adjacent, is_heap_nil.
  - cbv zeta.
    pose proof (content_after_heap calls constructor is_heap_nil) as Hheap.
    destruct (run_all _ _ eq_refl Hheap) as (xs & Hrun & Hperm).
    exists xs. split_and!; [done| |done].
    apply (adjacent_Sorted (Dequeued <$> xs)) with (before := []) (after := []);
      [|by rewrite app_nil_r].
    rewrite <- Hrun. intros i x y. by apply run_adjacent.
  - done.
  - by intros c ->%nil_length_inv.
Qed.

End Facts.

Example run_by_difference :
  run by_difference constructor
    [Enqueue 3; Enqueue 1; Dequeue; Enqueue 2; Enqueue 0; Dequeue; Dequeue; Dequeue;
     Dequeue]
  = [Enqueued; Enqueued; Dequeued 1; Enqueued; Enqueued; Dequeued 0; Dequeued 2;
     Dequeued 3; Threw EmptyQueue].
Proof. vm_compute. reflexivity. Qed.

Lemma dequeue_order_witness :
  StronglySorted (le by_difference) [0; 2; 3].
Proof.
  refine (proj1 (dequeue_order by_difference _ _
                   [Enqueue 3; Enqueue 1; Dequeue; Enqueue 2; Enqueue 0; Dequeue;
                    Dequeue; Dequeue; Dequeue])
            [Enqueued; Enqueued; Dequeued 1; Enqueued; Enqueued] [0; 2; 3]
            [Threw EmptyQueue] _).
  - unfold by_difference. intros x y z. lia.
  - unfold by_difference. intros x y. lia.
  - vm_compute. reflexivity.
Defined.

End PriorityQueueFacts.

(** ** The path finder *)

Module PathFinderFacts.

Import PriorityQueue PathFinder.

Example findPath_open_field :
  findPath rook_moves one_fuel open_field 100 (targets [(2, 1); (3, 3)]) (Some 1)
    None None
  = Some (returns (path [(0, 0); (1, 0); (1, 1); (2, 1)])).
Proof. vm_compute. reflexivity. Qed.

Example findPath_blocked_target :
  findPath rook_moves one_fuel open_field 0 (target 0 0) None None None
  = Some (returns null).
Proof. vm_compute. reflexivity. Qed.



(** *** Grids *)

Section grids.

Context {A : Type}.
Implicit Types (g : grid A) (c : cell) (v : A).

Lemma at_put_eq g c v : is_Some (at_ g c) -> at_ (put g c v) c = Some v.
Proof.
  unfold at_, put. intros [w Hw].
  rewrite list_lookup_alter_eq.
  destruct (g !! Z.to_nat c.2) as [row|]; [|done]. simpl in *.
  apply list_lookup_insert_eq. by eapply lookup_lt_Some.
Qed.

Lemma at_put_ne g c c' v :
  0 <= c.1 -> 0 <= c.2 -> 0 <= c'.1 -> 0 <= c'.2 -> c ≠ c' ->
  at_ (put g c v) c' = at_ g c'.
Proof.
  unfold at_, put. intros Hx Hy Hx' Hy' Hne.
  destruct (decide (Z.to_nat c.2 = Z.to_nat c'.2)) as [Heq|Heq].
  - rewrite <- Heq, list_lookup_alter_eq.
    destruct (g !! Z.to_nat c.2) as [row|]; [|done]. simpl.
    apply list_lookup_insert_ne. intros Heqx. apply Hne.
    destruct c, c'. simpl in *. f_equal; lia.
  - by rewrite list_lookup_alter_ne.
Qed.

Lemma put_shaped this g c v : map_shaped this g -> map_shaped this (put g c v).
Proof.
  intros [Hrows Hcols]. split; [by unfold put; rewrite length_alter|].
  apply Forall_alter; [done|]. intros row _ Hrow. by rewrite length_insert.
Qed.

Lemma at_shaped this g c : map_shaped this g -> on_map this c -> is_Some (at_ g c).
Proof.
  intros [Hrows Hcols] [Hx Hy]. unfold at_, height in *.
  destruct (lookup_lt_is_Some_2 g (Z.to_nat c.2)) as [row Hrow]; [lia|].
  rewrite Hrow. simpl. apply lookup_lt_is_Some_2.
  rewrite Forall_lookup in Hcols. specialize (Hcols _ _ Hrow). lia.
Qed.

Lemma filled2D_shaped this v :
  map_shaped this
    (filled2D (length (map this)) (length (default [] (map this !! 0%nat))) v).
Proof.
  split; [apply length_replicate|].
  apply Forall_replicate. by rewrite length_replicate.
Qed.

Lemma at_filled2D i j v c w : at_ (filled2D i j v) c = Some w -> w = v.
Proof.
  unfold at_, filled2D. intros Hw.
  destruct (replicate i (replicate j v) !! Z.to_nat c.2) as [row|] eqn:Hrow; [|done].
  apply lookup_replicate in Hrow as [-> _]. simpl in Hw.
  by apply lookup_replicate in Hw as [-> _].
Qed.

End grids.

(** *** Tiles *)

Lemma on_map_all_cells this c : on_map this c -> c ∈ all_cells this.
Proof.
  intros [Hx Hy]. unfold all_cells. apply list_elem_of_bind. exists c.1. split.
  - apply list_elem_of_bind. exists c.2. split.
    + destruct c. simpl. by apply list_elem_of_singleton.
    + apply elem_of_seqZ. lia.
  - apply elem_of_seqZ. lia.
Qed.

Lemma closed_count this order :
  NoDup order -> Forall (on_map this) order ->
  (length order <= length (all_cells this))%nat.
Proof.
  intros Hnd Hon. apply submseteq_length, NoDup_submseteq; [done|].
  intros c Hc. apply on_map_all_cells. by eapply Forall_forall in Hon.
Qed.

Lemma truelyPassableAbsolute_on_map this c tvmap :
  truelyPassableAbsolute this c tvmap = true -> on_map this c.
Proof.
  unfold truelyPassableAbsolute, truelyPassableDelta, on_map. cbv zeta.
  replace (x (me this) + (c.1 - x (me this))) with c.1 by lia.
  replace (y (me this) + (c.2 - y (me this))) with c.2 by lia.
  destruct (Z.ltb_spec c.1 0), (Z.ltb_spec c.2 0), (Z.leb_spec (width this) c.1),
    (Z.leb_spec (height this) c.2); simpl; (done || lia).
Qed.

(** *** Routes *)

Section routes.

Variable this : robot.
Variable deltaActions : list (Z * Z).
Variable tvmap : grid bool.
Variable start : cell.

Local Abbreviation legal_move := (legal_move this deltaActions tvmap).
Local Abbreviation legal_route := (legal_route this deltaActions tvmap).
Local Abbreviation came_along := (came_along this deltaActions tvmap).

Lemma legal_route_snoc cells p c :
  legal_route cells -> last cells = Some p -> legal_move p c ->
  legal_route (cells ++ [c]).
Proof.
  intros Hroute Hlast Hmove.
  induction cells as [|a [|b cells] IH]; [done|..].
  - simpl in *. injection Hlast as ->. by split.
  - destruct Hroute as [Hab Hroute]. split; [done|]. by apply IH.
Qed.

Lemma came_along_ext cameFrom cameFrom' c ret :
  (forall c', c' ∈ ret -> at_ cameFrom' c' = at_ cameFrom c') ->
  came_along cameFrom start c ret -> came_along cameFrom' start c ret.
Proof.
  intros Hext Hcame. induction Hcame as [Hstart|c p ret Hc Hmove Hcame IH].
  - apply came_start. rewrite Hext; [done|]. by apply list_elem_of_singleton.
  - apply came_step with p; [|done|].
    + rewrite Hext; [done|]. by left.
    + apply IH. intros c' Hc'. apply Hext. by right.
Qed.

Lemma came_along_route cameFrom c ret :
  came_along cameFrom start c ret ->
  head ret = Some c /\ last ret = Some start /\ legal_route (reverse ret).
Proof.
  induction 1 as [Hstart|c p ret Hc Hmove Hcame (Hhead & Hlast & Hroute)].
  - by split_and!.
  - split_and!; [done| |].
    + destruct ret; [done|]. done.
    + rewrite reverse_cons. apply legal_route_snoc with p; [done| |done].
      by rewrite last_reverse.
Qed.

Lemma reconstruct_came_along cameFrom c ret :
  came_along cameFrom start c ret ->
  forall rounds acc, (length ret <= rounds)%nat ->
    reconstruct rounds cameFrom (Some c) acc = Some (acc ++ ret).
Proof.
  induction 1 as [Hstart|c p ret Hc Hmove Hcame IH]; intros rounds acc Hrounds.
  - destruct rounds as [|rounds]; simpl in *; [lia|]. rewrite Hstart. simpl.
    by destruct rounds.
  - destruct rounds as [|rounds]; simpl in *; [lia|]. rewrite Hc. simpl.
    rewrite IH by lia. by rewrite <- app_assoc.
Qed.

End routes.

(** *** The search *)

Section search.

Variable FUEL_PER_MOVE : Z -> Z.
Variable this : robot.
Variable mappingMode : bool.
Variable goals : list cell.
Variable tvmap : grid bool.
Variable deltaActions : list (Z * Z).
Variable fuelFactor timeFactor : Z.
Variable start : cell.

Local Abbreviation legal_move := (legal_move this deltaActions tvmap).
Local Abbreviation came_along := (came_along this deltaActions tvmap).
Local Abbreviation route_to := (route_to this deltaActions tvmap).
Local Abbreviation invariant := (search_invariant this deltaActions tvmap start).
Local Abbreviation expected :=
  (expected this deltaActions tvmap mappingMode start goals).
Local Abbreviation visit :=
  (visit FUEL_PER_MOVE this mappingMode goals tvmap fuelFactor timeFactor).
Local Abbreviation search_loop :=
  (search_loop FUEL_PER_MOVE this mappingMode goals tvmap deltaActions fuelFactor
     timeFactor).

(** One round of the inner loop adds at most one item, for a passable
    tile one action away from the current one. *)
Lemma visit_frontier current closedSet f g action f' g' :
  visit current closedSet (f, g) action = (f', g') ->
  (length f' <= S (length f))%nat /\
  forall it, it ∈ f' ->
    it ∈ f \/
    came_from it = Some current /\
    elem it = (current.1 + action.1, current.2 + action.2) /\
    truelyPassableAbsolute this (elem it) (Some tvmap) = true.
Proof.
  unfold PathFinder.visit. cbv zeta.
  destruct (truelyPassableAbsolute this _ (Some tvmap)) eqn:Hpass; simpl;
    [|intros [= <- <-]; split; [lia|by left]].
  destruct (default false (at_ closedSet _));
    [intros [= <- <-]; split; [lia|by left]|].
  destruct (default Infinity (at_ g current)) as [score|];
    [|intros [= <- <-]; split; [lia|by left]].
  match goal with |- context [if ?b then _ else _] => destruct b end;
    [|intros [= <- <-]; split; [lia|by left]].
  intros [= <- <-]. split.
  - by rewrite PriorityQueueFacts.enqueue_length.
  - intros it Hit. rewrite PriorityQueueFacts.enqueue_Permutation in Hit.
    apply elem_of_cons in Hit as [->|Hit]; [right|by left]. by simpl.
Qed.

Lemma visit_fold current closedSet actions : forall f g f' g',
  (forall action, action ∈ actions -> action ∈ deltaActions) ->
  foldl (visit current closedSet) (f, g) actions = (f', g') ->
  (length f' <= length f + length actions)%nat /\
  forall it, it ∈ f' ->
    it ∈ f \/
    came_from it = Some current /\ legal_move current (elem it).
Proof.
  induction actions as [|action actions IH]; intros f g f' g' Hsub; cbn [foldl length].
  { intros [= <- <-]. split; [lia|by left]. }
  destruct (visit current closedSet (f, g) action) as [f1 g1] eqn:Hvisit.
  intros Hfold. apply visit_frontier in Hvisit as [Hlen1 Hin1].
  apply IH in Hfold as [Hlen Hin]; [|intros a Ha; apply Hsub; by right].
  split; [lia|]. intros it [Hit|Hit]%Hin; [|by right].
  apply Hin1 in Hit as [Hit|(Hcame & Helem & Hpass)]; [by left|right].
  split; [done|]. split; [|done].
  exists action. split; [apply Hsub; by left|done].
Qed.

Lemma onTarget_goal current : onTarget goals current = true -> current ∈ goals.
Proof.
  unfold onTarget. intros (t & Ht & Heq)%existsb_exists.
  apply list_elem_of_In in Ht. apply andb_true_iff in Heq as [Hx Hy].
  apply Z.eqb_eq in Hx, Hy. destruct current, t. simpl in *. by subst.
Qed.

(** Closing the tile of the item taken from the frontier keeps the
    invariant, whatever frontier is left with items that came from closed
    tiles. *)
Lemma invariant_close order st current frontier' :
  invariant order st ->
  current ∈ frontier st ->
  at_ (closedSet st) (elem current) ≠ Some true ->
  (forall it, it ∈ frontier' ->
     on_map this (elem it) /\
     match came_from it with
     | None => elem it = start
     | Some p => p ∈ elem current :: order /\ legal_move p (elem it)
     end) ->
  forall gScore',
  invariant (elem current :: order)
    {| frontier := frontier';
       closedSet := put (closedSet st) (elem current) true;
       cameFrom := put (cameFrom st) (elem current) (came_from current);
       gScore := gScore' |}.
Proof.
  intros (Hclosed & Hcame & Hnodup & Hon & Hiff & Hroutes & Hitems) Hcur Hopen Hitems'
    gScore'.
  destruct (Hitems _ Hcur) as [Hcmap Hcfrom].
  assert (Hnew : elem current ∉ order) by (by rewrite <- Hiff).
  assert (Hother : forall c, c ∈ order -> elem current ≠ c) by (by intros c ? <-).
  assert (Hkeep : forall ret, Forall (fun c' => c' ∈ order) ret ->
            forall c', c' ∈ ret ->
              at_ (put (cameFrom st) (elem current) (came_from current)) c'
              = at_ (cameFrom st) c').
  { intros ret Hret c' Hc'. eapply Forall_forall in Hret; [|done].
    pose proof (proj1 (Forall_forall _ _) Hon _ Hret) as [??].
    destruct Hcmap. apply at_put_ne; (lia || by apply Hother). }
  unfold search_invariant. simpl. split_and!.
  - by apply put_shaped.
  - by apply put_shaped.
  - by apply NoDup_cons.
  - by apply Forall_cons.
  - intros c Hc. destruct (decide (elem current = c)) as [<-|Hne].
    + rewrite at_put_eq by (by eapply at_shaped). split; [by left|done].
    + destruct Hcmap, Hc. rewrite at_put_ne by (lia || done).
      rewrite Hiff by done. rewrite elem_of_cons.
      split; [by right|]. by intros [->|?].
  - intros c [->|Hc]%elem_of_cons.
    + destruct (came_from current) as [p|] eqn:Hp.
      * destruct Hcfrom as [Hporder Hmove].
        destruct (Hroutes p Hporder) as (ret & Hret & Hin & Hlen).
        exists (elem current :: ret). split_and!.
        -- apply came_step with p; [|done|].
           ++ apply at_put_eq. by eapply at_shaped.
           ++ eapply came_along_ext; [|done]. by apply Hkeep.
        -- apply Forall_cons. split; [by left|].
           eapply Forall_impl; [done|]. intros ??. by right.
        -- simpl. lia.
      * rewrite Hcfrom in *. exists [start]. split_and!.
        -- apply came_start, at_put_eq. by eapply at_shaped.
        -- apply Forall_singleton. by left.
        -- simpl. lia.
    + destruct (Hroutes c Hc) as (ret & Hret & Hin & Hlen).
      exists ret. split_and!.
      * eapply came_along_ext; [|done]. by apply Hkeep.
      * eapply Forall_impl; [done|]. intros ??. by right.
      * simpl. lia.
  - done.
Qed.

(** The loop ends within the rounds it is given and returns what is
    expected, when the rounds cover the tiles still open, the items in the
    frontier, and a path through every tile. *)
Lemma search_loop_expected rounds : forall order st,
  invariant order st ->
  ((length (all_cells this) - length order) * (length deltaActions + 1)
   + length (frontier st) + length (all_cells this) + 1 <= rounds)%nat ->
  exists r, search_loop rounds st = Some r /\ expected r.
Proof.
  induction rounds as [|rounds IH]; intros order st Hinv Hrounds.
  { apply Nat.le_0_r in Hrounds. by rewrite Nat.add_1_r in Hrounds. }
  cbn [PathFinder.search_loop].
  destruct (frontier st) as [|current rest] eqn:Hfrontier.
  { simpl. eexists. split; [done|]. by destruct mappingMode. }
  cbn [count length Nat.eqb].
  destruct (PriorityQueueFacts.dequeue_cons_Permutation by_cost current rest)
    as (frontier' & -> & Hperm).
  pose proof Hinv as (Hclosed & Hcame & Hnodup & Hon & Hiff & Hroutes & Hitems).
  assert (Hcur : current ∈ frontier st) by (rewrite Hfrontier; by left).
  destruct (Hitems _ Hcur) as [Hcmap Hcfrom].
  assert (Hlen' : length frontier' = length rest) by by rewrite Hperm.
  assert (Hitems' : forall it, it ∈ frontier' -> it ∈ frontier st).
  { intros it Hit. rewrite Hfrontier. right. by rewrite Hperm. }
  destruct (at_shaped this (closedSet st) (elem current) Hclosed Hcmap) as [b Hb].
  rewrite Hb. cbn [default]. destruct b.
  { (* already closed: the item is dropped *)
    apply (IH order); [|simpl in *; lia].
    unfold search_invariant. simpl. split_and!; try done.
    intros it Hit. by apply Hitems, Hitems'. }
  assert (Hopen : at_ (closedSet st) (elem current) ≠ Some true) by by rewrite Hb.
  assert (Hnew : elem current ∉ order) by (by rewrite <- Hiff).
  assert (Hcount : (S (length order) <= length (all_cells this))%nat).
  { apply (closed_count this (elem current :: order));
      [by apply NoDup_cons|by apply Forall_cons]. }
  destruct (negb mappingMode && onTarget goals (elem current)) eqn:Htarget.
  { (* on a target: the path is rebuilt *)
    apply andb_true_iff in Htarget as [Hmode Hgoal%onTarget_goal].
    apply negb_true_iff in Hmode.
    pose proof (invariant_close _ _ _ [] Hinv Hcur Hopen ltac:(by intros ? ?%elem_of_nil)
                  (gScore st)) as (_ & _ & _ & _ & _ & Hroutes' & _).
    destruct (Hroutes' (elem current) ltac:(by left)) as (ret & Hret & _ & Hlen).
    simpl in Hret, Hlen.
    rewrite (reconstruct_came_along _ _ _ _ _ _ _ Hret) by lia. simpl.
    eexists. split; [done|]. split; [done|].
    destruct (came_along_route _ _ _ _ _ _ _ Hret) as (Hhead & Hlast & Hroute).
    split_and!; [by rewrite head_reverse| |done].
    exists (elem current). by rewrite last_reverse. }
  (* the neighbours are visited *)
  destruct (foldl _ _ deltaActions) as [frontier'' gScore'] eqn:Hfold.
  apply visit_fold in Hfold as [Hlen Hin]; [|done].
  apply (IH (elem current :: order)).
  - apply invariant_close; [done..|].
    intros it [Hit|[Hfrom Hmove]]%Hin.
    + destruct (Hitems _ (Hitems' _ Hit)) as [Hmap Hfrom]. split; [done|].
      destruct (came_from it); [|done]. destruct Hfrom. split; [by right|done].
    + split; [by eapply truelyPassableAbsolute_on_map, Hmove|].
      rewrite Hfrom. split; [by left|done].
  - simpl in *.
    destruct (length (all_cells this) - length order)%nat as [|open] eqn:Hopen';
      [lia|].
    replace (length (all_cells this) - S (length order))%nat with open by lia.
    rewrite Nat.mul_succ_l in Hrounds. lia.
Qed.

End search.

(** *** [findPath] *)

Lemma existsb_false {A} (f : A -> bool) (l : list A) :
  existsb f l = false <-> forall x, x ∈ l -> f x = false.
Proof.
  induction l as [|y l IH]; simpl.
  - split; [by intros _ ? ?%elem_of_nil|done].
  - rewrite orb_false_iff, IH. split.
    + intros [Hy Hl] x [->|Hx]%elem_of_cons; [done|by apply Hl].
    + intros Hall. split; [apply Hall; by left|]. intros x Hx. apply Hall. by right.
Qed.

(** For a target or a list that holds one, a start on the map and a
    passability map of the shape of the map, outside the mapping mode:
    given enough rounds [findPath] returns, and what it returns is [null]
    or a path that begins on the start, ends on a target and is made of
    legal moves; and it returns [null] whatever the rounds, so before any
    search, when no target is passable. *)
Theorem findPath_route_or_null listPossibleMoves FUEL_PER_MOVE this targets_ mode
  start flags :
  let flags' := default no_flags flags in
  let start' := default (x (me this), y (me this)) start in
  let tvmap := default (trueVisionPassableMap this) (flags_tvmap flags') in
  let deltaActions := listPossibleMoves (mover this flags') in
  default false (flags_map flags') = false ->
  goals_of targets_ ≠ [] ->
  on_map this start' ->
  map_shaped this tvmap ->
  (forall rounds, (enough_rounds this deltaActions <= rounds)%nat ->
     exists r,
       findPath listPossibleMoves FUEL_PER_MOVE this rounds targets_ mode start flags
       = Some (returns r) /\
       (r = null \/
        exists cells, r = path cells /\
          route_to this deltaActions tvmap start' (goals_of targets_) cells)) /\
  ((forall goal, goal ∈ goals_of targets_ ->
      truelyPassableAbsolute this goal (Some tvmap) = false) ->
   forall rounds,
     findPath listPossibleMoves FUEL_PER_MOVE this rounds targets_ mode start flags
     = Some (returns null)).
Proof.
  intros flags' start' tvmap deltaActions Hmode Hgoals Hstart _.
  unfold findPath. cbv zeta. fold flags' start'. rewrite Hmode.
  assert (Hpromote :
    match targets_ with
    | target x y => Some [(x, y)]
    | targets [] => None
    | targets ts => Some ts
    end = Some (goals_of targets_)).
  { destruct targets_ as [tx ty|[|t ts]]; [done|by destruct Hgoals|done]. }
  rewrite Hpromote. fold tvmap. cbn [negb andb].
  set (factors := if default 0 mode =? 0 then (10, 1) else (1, 10)).
  destruct factors as [fuelFactor timeFactor] eqn:Hfactors.
  rewrite andb_true_r.
  destruct (existsb _ (goals_of targets_)) eqn:Hpassable; cbn [negb].
  2:{ split; [|done]. intros rounds _. exists null. by split; [|left]. }
  split.
  2:{ intros Hnone. apply existsb_false in Hnone. congruence. }
  intros rounds Hrounds. fold (mover this flags'). fold deltaActions.
  match goal with
  | |- context [PathFinder.search_loop _ _ _ _ _ _ _ _ _ ?s] => set (st := s)
  end.
  destruct (search_loop_expected FUEL_PER_MOVE this false (goals_of targets_) tvmap
              deltaActions fuelFactor timeFactor start' rounds [] st)
    as (r & Hr & Hexp).
  - subst st. unfold search_invariant. cbn [closedSet cameFrom frontier].
    split_and!; try apply filled2D_shaped; try by constructor.
    + intros c Hc. split; [|by intros ?%elem_of_nil].
      by intros ?%at_filled2D.
    + by intros c ?%elem_of_nil.
    + intros it Hit. rewrite PriorityQueueFacts.enqueue_Permutation in Hit.
      apply list_elem_of_singleton in Hit as ->. by split.
  - subst st. cbn [frontier]. rewrite PriorityQueueFacts.enqueue_length.
    unfold enough_rounds in Hrounds. simpl. lia.
  - rewrite Hr. simpl.
    exists r. split; [done|].
    destruct r as [cells| |gScore]; [right|by left|done].
    exists cells. split; [done|]. apply Hexp.
Qed.

Example open_field_on_map :
  on_map open_field (0, 0) /\
  map_shaped open_field (trueVisionPassableMap open_field).
Proof.
  split; [by vm_compute|]. split; [done|]. repeat constructor.
Qed.

Lemma findPath_route_or_null_witness :
  exists r,
    findPath rook_moves one_fuel open_field 100 (targets [(2, 1); (3, 3)]) (Some 1)
      None None
    = Some (returns r) /\
    (r = null \/
     exists cells, r = path cells /\
       route_to open_field (rook_moves 2) (trueVisionPassableMap open_field) (0, 0)
         [(2, 1); (3, 3)] cells).
Proof.
  refine (proj1 (findPath_route_or_null rook_moves one_fuel open_field
                   (targets [(2, 1); (3, 3)]) (Some 1) None None eq_refl _
                   (proj1 open_field_on_map) (proj2 open_field_on_map)) 100%nat _).
  - discriminate.
  - vm_compute. lia.
Defined.

End PathFinderFacts.

(** ** The value of an encoded message *)

Module CodecFacts.

Import JS JSFacts BitCodec BitCodecFacts.

Lemma safeInteger_of_Z_inv z z' : safeInteger (of_Z z) = Some z' -> z' = z.
Proof.
  unfold safeInteger, of_Z. rewrite inject_Z_Qred. simpl.
  destruct (_ <=? _); [|done]. by intros [= <-].
Qed.

Lemma shl_exact msg p :
  0 <= p <= 30 -> 0 <= msg -> msg * 2 ^ p < 2 ^ 31 -> shl msg p = msg * 2 ^ p.
Proof.
  intros Hp Hmsg Hlt. unfold shl, shiftCount. rewrite Z.mod_small by lia.
  assert (0 < 2 ^ p) by (apply Z.pow_pos_nonneg; lia).
  rewrite (ToInt32_small msg) by nia.
  rewrite Z.shiftl_mul_pow2 by lia. apply ToInt32_small. nia.
Qed.

Lemma bor_exact a z p :
  0 <= p -> 0 <= z < 2 ^ p -> 0 <= a -> a * 2 ^ p + z < 2 ^ 31 ->
  bor (a * 2 ^ p) z = a * 2 ^ p + z.
Proof.
  intros Hp Hz Ha Hlt. unfold bor.
  assert (0 < 2 ^ p) by (apply Z.pow_pos_nonneg; lia).
  rewrite !ToInt32_small by nia. by apply lor_low.
Qed.

(** The encoder's loop, started on a [msg] that leaves room for the
    pattern below bit 31, ends on a message exactly when the values fit
    their widths, and the message is then [msg] with the fields below. *)
Lemma encodeBits_loop_exact values : forall pattern msg m,
  length values = length pattern ->
  Forall (fun p => (p <= 30)%nat) pattern ->
  0 <= msg -> (msg + 1) * 2 ^ bits pattern <= 2 ^ 31 ->
  encodeBits_loop msg (map of_Z values) pattern = inr m <->
  fits values pattern /\ m = msg * 2 ^ bits pattern + pack values pattern.
Proof.
  induction values as [|v values IH]; intros [|p pattern] msg m Hlen Hp Hmsg Hroom;
    try done.
  - simpl. replace (bits []) with 0 by done. split.
    + intros [= <-]. split; [constructor|]. lia.
    + intros [_ ->]. f_equal. lia.
  - apply Forall_cons in Hp as [Hp30 Hp]. simpl in Hlen.
    pose proof (bits_nonneg pattern) as Hnn.
    rewrite bits_cons, Z.pow_add_r in Hroom |- * by lia.
    assert (0 < 2 ^ Z.of_nat p) by (apply Z.pow_pos_nonneg; lia).
    assert (0 < 2 ^ bits pattern) by (apply Z.pow_pos_nonneg; lia).
    assert (2 ^ Z.of_nat p <= 2 ^ 30) by (apply Z.pow_le_mono_r; lia).
    cbn [encodeBits_loop map pack]. rewrite shl_one by lia. split.
    + destruct (safeInteger (of_Z v)) as [z|] eqn:Hz; [|done].
      apply safeInteger_of_Z_inv in Hz as ->.
      destruct (Z.ltb_spec v 0); [done|].
      destruct (Z.leb_spec (2 ^ Z.of_nat p) v); [done|].
      rewrite shl_exact, bor_exact by nia.
      intros [Hfit ->]%IH; [|lia|done|nia|nia].
      split; [by constructor|]. ring.
    + intros [Hfit ->]. apply Forall2_cons_1 in Hfit as [Hv Hfit].
      rewrite safeInteger_of_Z by (unfold MAX_SAFE_INTEGER; lia).
      destruct (Z.ltb_spec v 0); [lia|].
      destruct (Z.leb_spec (2 ^ Z.of_nat p) v); [lia|].
      rewrite shl_exact, bor_exact by nia.
      apply IH; [lia|done|nia|nia|]. split; [done|]. ring.
Qed.

Lemma encodeBits_exact values pattern m :
  Forall (fun p => (p <= 30)%nat) pattern -> bits pattern <= 31 ->
  encodeBits (map of_Z values) pattern = inr m <->
  fits values pattern /\ m = pack values pattern.
Proof.
  intros Hp Hbits. unfold encodeBits. rewrite length_map.
  destruct (Nat.eqb_spec (length values) (length pattern)) as [Hlen|Hlen]; simpl.
  - rewrite encodeBits_loop_exact; [done..|lia|].
    rewrite Z.mul_1_l. apply Z.pow_le_mono_r; lia.
  - split; [done|]. intros [Hfit%fits_length _]. done.
Qed.

Lemma decodeBits_pack values pattern :
  fits values pattern -> Forall (fun p => (p <= 30)%nat) pattern ->
  bits pattern <= 32 -> decodeBits (pack values pattern) pattern = values.
Proof.
  intros Hfit Hp Hbits. unfold decodeBits.
  rewrite (decodeBits_loop_eqm values pattern Hfit Hp Hbits); [apply app_nil_r|].
  apply eqm_refl.
Qed.

(** *** The fields of any message *)

Lemma decodeBits_loop_result rpattern : forall msg result,
  decodeBits_loop rpattern msg result = decodeBits_loop rpattern msg [] ++ result.
Proof.
  induction rpattern as [|p rpattern IH]; intros msg result; [done|].
  simpl. rewrite IH, (IH _ [_]). by rewrite <- app_assoc.
Qed.

Lemma decodeBits_snoc msg pattern p :
  decodeBits msg (pattern ++ [p]) =
    decodeBits (sar msg (Z.of_nat p)) pattern
    ++ [band msg (shl 1 (Z.of_nat p) - 1)].
Proof.
  unfold decodeBits. rewrite rev_app_distr. simpl. apply decodeBits_loop_result.
Qed.

Lemma decodeBits_fits pattern : forall msg,
  Forall (fun p => (p <= 30)%nat) pattern -> fits (decodeBits msg pattern) pattern.
Proof.
  induction pattern as [|p pattern IH] using rev_ind; intros msg Hp.
  - constructor.
  - apply Forall_app in Hp as [Hp Hp30]. apply Forall_cons in Hp30 as [Hp30 _].
    rewrite decodeBits_snoc. apply Forall2_app; [by apply IH|].
    constructor; [|constructor].
    rewrite shl_one, band_mask by lia.
    apply Z.mod_pos_bound, Z.pow_pos_nonneg; lia.
Qed.

Lemma pack_decodeBits pattern : forall msg,
  Forall (fun p => (p <= 30)%nat) pattern -> 0 <= msg < 2 ^ 31 ->
  pack (decodeBits msg pattern) pattern = msg mod 2 ^ bits pattern.
Proof.
  induction pattern as [|p pattern IH] using rev_ind; intros msg Hp Hmsg.
  - replace (bits []) with 0 by done. simpl. by rewrite Z.mod_1_r.
  - apply Forall_app in Hp as [Hp Hp30]. apply Forall_cons in Hp30 as [Hp30 _].
    pose proof (bits_nonneg pattern) as Hnn.
    assert (0 < 2 ^ Z.of_nat p) by (apply Z.pow_pos_nonneg; lia).
    assert (0 < 2 ^ bits pattern) by (apply Z.pow_pos_nonneg; lia).
    rewrite decodeBits_snoc, pack_snoc
      by (apply fits_length, decodeBits_fits; done).
    rewrite shl_one, band_mask, sar_div, ToInt32_small by lia.
    assert (0 <= msg / 2 ^ Z.of_nat p <= msg).
    { split; [apply Z.div_pos; lia|]. apply Z.div_le_upper_bound; nia. }
    rewrite IH by (done || lia).
    rewrite bits_app, bits_cons. replace (bits []) with 0 by done.
    rewrite Z.add_0_r, (Z.add_comm (bits pattern)), Z.pow_add_r by lia.
    rewrite Z.rem_mul_r by lia. lia.
Qed.

(** X1: with widths of at most 30 bits each and 31 bits in total,
    [encodeBits] returns a message exactly when every integer value is
    within [0 <= values[i] < 2^widths[i]] and there are as many values as
    widths, and the message is then the number whose binary digits are the
    fields, the first field in the highest bits; it is below [2^bits]. *)
Theorem encodeBits_value values pattern m :
  Forall (fun p => (p <= 30)%nat) pattern -> bits pattern <= 31 ->
  (encodeBits (map of_Z values) pattern = inr m <->
   fits values pattern /\ m = pack values pattern) /\
  (encodeBits (map of_Z values) pattern = inr m -> 0 <= m < 2 ^ bits pattern).
Proof.
  intros Hp Hbits. split; [by apply encodeBits_exact|].
  intros [Hfit ->]%encodeBits_exact; [|done..]. by apply pack_range.
Qed.

Lemma encodeBits_value_witness :
  encodeBits (map of_Z [2; 5; 3]) [2; 3; 3]%nat = inr 171 <->
  fits [2; 5; 3] [2; 3; 3]%nat /\ 171 = pack [2; 5; 3] [2; 3; 3]%nat.
Proof.
  apply (encodeBits_value [2; 5; 3] [2; 3; 3]%nat 171).
  - repeat constructor; lia.
  - vm_compute. discriminate.
Defined.

(** X2: whatever the message, negative ones included, [decodeBits] gives
    one field for each width, and with widths of at most 30 bits every
    field is within [0 <= field < 2^width]. *)
Theorem decodeBits_fields msg pattern :
  Forall (fun p => (p <= 30)%nat) pattern ->
  length (decodeBits msg pattern) = length pattern /\
  fits (decodeBits msg pattern) pattern.
Proof.
  intros Hp. split; [|by apply decodeBits_fits].
  by apply fits_length, decodeBits_fits.
Qed.

Lemma decodeBits_fields_witness :
  length (decodeBits (-1) [3; 13]%nat) = 2%nat /\
  fits (decodeBits (-1) [3; 13]%nat) [3; 13]%nat.
Proof. apply decodeBits_fields. repeat constructor; lia. Defined.

(** X3: encoding is the inverse of decoding too: with widths of at most 30
    bits each and 31 bits in total, the fields [decodeBits] finds in a
    message of that many bits encode to the message again. *)
Theorem encodeBits_decodeBits msg pattern :
  Forall (fun p => (p <= 30)%nat) pattern -> bits pattern <= 31 ->
  0 <= msg < 2 ^ bits pattern ->
  encodeBits (map of_Z (decodeBits msg pattern)) pattern = inr msg.
Proof.
  intros Hp Hbits Hmsg.
  assert (2 ^ bits pattern <= 2 ^ 31) by (apply Z.pow_le_mono_r; lia).
  apply encodeBits_exact; [done..|]. split; [by apply decodeBits_fits|].
  rewrite pack_decodeBits by (done || lia). symmetry. by apply Z.mod_small.
Qed.

Lemma encodeBits_decodeBits_witness :
  encodeBits (map of_Z (decodeBits 5226 [3; 1; 6; 6]%nat)) [3; 1; 6; 6]%nat
  = inr 5226.
Proof.
  apply encodeBits_decodeBits.
  - repeat constructor; lia.
  - vm_compute. discriminate.
  - vm_compute. split; [discriminate|reflexivity].
Defined.

End CodecFacts.

(** ** Radio and castle-talk messages *)

Module MessageFacts.

Import JS JSFacts BitCodec BitCodecFacts CodecFacts.

(** A field followed by the fields of a pattern is that field followed by
    one wider field. *)
Lemma pack_group v values p pattern :
  pack (v :: values) (p :: pattern) =
    pack [v; pack values pattern] [p; sum_list pattern].
Proof.
  cbn [pack]. unfold bits. cbn [sum_list sum_list_with].
  rewrite Nat.add_0_r. change (Z.of_nat 0) with 0. rewrite Z.pow_0_r. unfold id. lia.
Qed.

Ltac widths := repeat constructor; lia.

Ltac fitting :=
  repeat match goal with
  | |- fits _ _ => unfold fits
  | |- Forall2 _ [] [] => constructor
  | |- Forall2 _ (_ :: _) (_ :: _) => constructor
  | |- 0 <= pack ?values ?pattern < _ =>
      apply (pack_range values pattern)
  | |- 0 <= Radio.truthy ?b < _ => destruct b; simpl; lia
  | |- 0 <= Radio.unless_false ?b < _ => destruct b as [[]|]; simpl; lia
  | |- 0 <= _ < _ => simpl; lia
  end.

Lemma radio_encode_fits values pattern :
  fits values pattern -> Forall (fun p => (p <= 30)%nat) pattern ->
  bits pattern <= 31 -> Radio.encode values pattern = inr (pack values pattern).
Proof.
  intros Hfit Hp Hbits. unfold Radio.encode.
  by rewrite (proj2 (encodeBits_exact values pattern _ Hp Hbits) (conj Hfit eq_refl)).
Qed.

Lemma radio_encode_inr values pattern m :
  Forall (fun p => (p <= 30)%nat) pattern -> bits pattern <= 31 ->
  Radio.encode values pattern = inr m -> 0 <= m < 2 ^ bits pattern.
Proof.
  intros Hp Hbits. unfold Radio.encode.
  destruct (encodeBits _ _) as [e|m'] eqn:He; [done|]. intros [= ->].
  apply encodeBits_exact in He as [Hfit ->]; [|done..]. by apply pack_range.
Qed.

Lemma set_truthy b : Radio.set (Radio.truthy b) = b.
Proof. by destruct b. Qed.

(** Reading the first field apart from the others. *)
Lemma decodeBits_group v values p pattern q :
  q = sum_list pattern ->
  fits (v :: values) (p :: pattern) -> (p <= 30)%nat -> (q <= 30)%nat ->
  (p + q <= 32)%nat ->
  decodeBits (pack (v :: values) (p :: pattern)) [p; q]
  = [v; pack values pattern].
Proof.
  intros -> [Hv Hfit]%Forall2_cons_1 Hp Hq Hpq. rewrite pack_group.
  apply decodeBits_pack.
  - constructor; [done|]. constructor; [|constructor]. by apply pack_range.
  - constructor; [done|]. constructor; [done|]. constructor.
  - unfold bits.
    change (sum_list [p; sum_list pattern]) with (p + (sum_list pattern + 0))%nat.
    lia.
Qed.

Ltac decoding :=
  repeat first
    [ rewrite decodeBits_pack; [|fitting|widths|vm_compute; discriminate]
    | rewrite decodeBits_group; [|reflexivity|fitting|simpl; lia..] ].

(** X4: [decodeRadio] undoes [encodeRadio].  A hold, a repulse, a charge
    with a direction in 0..7, and a target, a mine or a target on
    construct with coordinates in 0..63 encode without error, and the
    message decodes to the object that was encoded, the flags read as
    booleans. *)
Theorem decodeRadio_encodeRadio obj :
  Radio.decodable obj ->
  exists m, Radio.encodeRadio obj = inr m /\
            Radio.decodeRadio m = Radio.understood (Radio.received obj).
Proof.
  destruct obj as [| |c a m d|ce x y|c x y|? ? ? ? ? ?|am x y|]; simpl;
    intros Hobj; try done;
    (eexists; split; [apply radio_encode_fits; [fitting|widths|vm_compute; discriminate]|]);
    unfold Radio.decodeRadio.
  - reflexivity.
  - reflexivity.
  - decoding. simpl. decoding. simpl. decoding. by rewrite !set_truthy.
  - decoding. simpl. by decoding.
  - decoding. simpl. decoding. by rewrite set_truthy.
  - decoding. simpl. decoding. by rewrite set_truthy.
Qed.

Lemma decodeRadio_encodeRadio_witness :
  exists m, Radio.encodeRadio (Radio.target None 17 42) = inr m /\
            Radio.decodeRadio m = Radio.understood (Radio.target (Some true) 17 42).
Proof. apply (decodeRadio_encodeRadio (Radio.target None 17 42)). simpl. lia. Defined.

(** X5: a radio signal has 16 bits, and whatever [encodeRadio] returns
    fits: every message it gives without throwing is within
    [0 <= message < 2^16], the scout report included. *)
Theorem encodeRadio_16_bits obj m :
  Radio.encodeRadio obj = inr m -> 0 <= m < 2 ^ 16.
Proof.
  destruct obj; simpl; intros Hm; try done;
    (apply radio_encode_inr in Hm; [exact Hm|widths|vm_compute; discriminate]).
Qed.

Lemma encodeRadio_16_bits_witness : 0 <= 32383 < 2 ^ 16.
Proof.
  apply (encodeRadio_16_bits (Radio.scout None 3 2 1 3 15)). reflexivity.
Defined.

(** *** Castle talk *)

Lemma talk_encode_fits values pattern :
  fits values pattern -> Forall (fun p => (p <= 30)%nat) pattern ->
  bits pattern <= 31 ->
  CastleTalk.encode (map of_Z values) pattern = inr (pack values pattern).
Proof.
  intros Hfit Hp Hbits. unfold CastleTalk.encode.
  by rewrite (proj2 (encodeBits_exact values pattern _ Hp Hbits) (conj Hfit eq_refl)).
Qed.

Lemma talk_encode_inr values pattern m :
  Forall (fun p => (p <= 30)%nat) pattern -> bits pattern <= 31 ->
  CastleTalk.encode (map of_Z values) pattern = inr m ->
  fits values pattern /\ m = pack values pattern.
Proof.
  intros Hp Hbits. unfold CastleTalk.encode.
  destruct (encodeBits _ _) as [e|m'] eqn:He; [done|]. intros [= ->].
  by apply encodeBits_exact in He.
Qed.

Lemma calculateTileSize_bounds map_size :
  0 < map_size <= 64 ->
  1 <= CastleTalk.calculateTileSize map_size <= 8 /\
  map_size <= 8 * CastleTalk.calculateTileSize map_size.
Proof.
  unfold CastleTalk.calculateTileSize. intros Hsize.
  pose proof (Z.div_mod (- map_size) 8). pose proof (Z.mod_pos_bound (- map_size) 8).
  lia.
Qed.

(** X6: the events of castle talk survive the channel: the identification
    of a unit type in 0..5, an alert with a direction in 0..7, the clock
    request and the important message each encode to one part, which
    [decryptCastleTalk] reads as the same event with the same content. *)
Theorem decryptCastleTalk_event message map_size :
  match message with
  | CastleTalk.ident unit => 0 <= unit <= 5
  | CastleTalk.alert direction => 0 <= direction <= 7
  | CastleTalk.dbgClock | CastleTalk.important => True
  | CastleTalk.position _ _ | CastleTalk.other => False
  end ->
  exists part,
    CastleTalk.castleTalkMessage message map_size = inr (Outbox.Part part) /\
    CastleTalk.decryptCastleTalk part =
      match message with
      | CastleTalk.ident unit => CastleTalk.is_ident unit
      | CastleTalk.alert direction => CastleTalk.is_alert direction
      | CastleTalk.dbgClock => CastleTalk.is_dbgClock
      | _ => CastleTalk.is_important
      end.
Proof.
  unfold CastleTalk.castleTalkMessage.
  destruct message as [x y|unit| |direction| |]; intros Hmsg; try done.
  - rewrite talk_encode_fits; [|fitting|widths|vm_compute; discriminate].
    eexists. split; [done|]. unfold CastleTalk.decryptCastleTalk.
    decoding.
    replace (pack [0; unit + 1] [3; 3]%nat) with (unit + 1)
      by (cbn [pack]; unfold bits; simpl; lia).
    simpl.
    destruct (Z.leb_spec 1 (unit + 1)); [|lia].
    destruct (Z.leb_spec (unit + 1) 6); [|lia]. simpl. f_equal. lia.
  - eexists. split; [done|]. reflexivity.
  - rewrite talk_encode_fits; [|fitting|widths|vm_compute; discriminate].
    eexists. split; [done|]. unfold CastleTalk.decryptCastleTalk.
    decoding.
    replace (pack [5; direction] [3; 3]%nat) with (40 + direction)
      by (cbn [pack]; unfold bits; simpl; lia).
    simpl.
    destruct (Z.leb_spec 1 (40 + direction)); [|lia].
    destruct (Z.leb_spec (40 + direction) 6); [lia|]. simpl.
    destruct (Z.eqb_spec (40 + direction) 7); [lia|].
    destruct (Z.leb_spec 40 (40 + direction)); [|lia].
    destruct (Z.leb_spec (40 + direction) 47); [|lia]. simpl. f_equal. lia.
  - eexists. split; [done|]. reflexivity.
Qed.

Lemma decryptCastleTalk_event_witness :
  exists part,
    CastleTalk.castleTalkMessage (CastleTalk.ident 3) None = inr (Outbox.Part part) /\
    CastleTalk.decryptCastleTalk part = CastleTalk.is_ident 3.
Proof. apply (decryptCastleTalk_event (CastleTalk.ident 3) None). simpl. lia. Defined.

(** X7: a position survives the channel in two parts.  On a map of at most
    64 tiles a side, the position of a tile of the map encodes to a rough
    part and a fine part; [decryptCastleTalk] reads both as positions, and
    the rough coordinates times the tile size plus the fine coordinates,
    which is how the castle puts them together, are the coordinates that
    were sent. *)
Theorem decryptCastleTalk_position x y map_size :
  0 < map_size <= 64 -> 0 <= x < map_size -> 0 <= y < map_size ->
  exists rough fine xGrid yGrid xFine yFine,
    CastleTalk.castleTalkMessage (CastleTalk.position x y) (Some map_size)
      = inr (Outbox.Parts [rough; fine]) /\
    CastleTalk.decryptCastleTalk rough = CastleTalk.is_position [xGrid; yGrid] /\
    CastleTalk.decryptCastleTalk fine = CastleTalk.is_position [xFine; yFine] /\
    xGrid * CastleTalk.calculateTileSize map_size + xFine = x /\
    yGrid * CastleTalk.calculateTileSize map_size + yFine = y.
Proof.
  intros Hsize Hx Hy.
  destruct (calculateTileSize_bounds map_size Hsize) as [Ht Hcover].
  unfold CastleTalk.castleTalkMessage, CastleTalk.floor_quotient,
    CastleTalk.remainder. simpl default.
  set (t := CastleTalk.calculateTileSize map_size) in *.
  destruct (Z.eqb_spec t 0); [lia|].
  rewrite !Z.rem_mod_nonneg by lia.
  pose proof (Z.mod_pos_bound x t). pose proof (Z.mod_pos_bound y t).
  assert (0 <= x / t < 8).
  { split; [apply Z.div_pos; lia|]. apply Z.div_lt_upper_bound; lia. }
  assert (0 <= y / t < 8).
  { split; [apply Z.div_pos; lia|]. apply Z.div_lt_upper_bound; lia. }
  rewrite (talk_encode_fits [2; x / t; y / t]);
    [|fitting|widths|vm_compute; discriminate].
  rewrite (talk_encode_fits [2; x mod t; y mod t]);
    [|fitting|widths|vm_compute; discriminate].
  exists (pack [2; x / t; y / t] [2; 3; 3]%nat),
    (pack [2; x mod t; y mod t] [2; 3; 3]%nat),
    (x / t), (y / t), (x mod t), (y mod t).
  split; [done|]. unfold CastleTalk.decryptCastleTalk.
  split; [decoding; simpl; by decoding|].
  split; [decoding; simpl; by decoding|].
  pose proof (Z.div_mod x t). pose proof (Z.div_mod y t). lia.
Qed.

Lemma decryptCastleTalk_position_witness :
  exists rough fine xGrid yGrid xFine yFine,
    CastleTalk.castleTalkMessage (CastleTalk.position 37 5) (Some 48)
      = inr (Outbox.Parts [rough; fine]) /\
    CastleTalk.decryptCastleTalk rough = CastleTalk.is_position [xGrid; yGrid] /\
    CastleTalk.decryptCastleTalk fine = CastleTalk.is_position [xFine; yFine] /\
    xGrid * CastleTalk.calculateTileSize 48 + xFine = 37 /\
    yGrid * CastleTalk.calculateTileSize 48 + yFine = 5.
Proof. apply decryptCastleTalk_position; lia. Defined.

Ltac known_bits :=
  change (bits []) with 0 in *; change (bits [3%nat]) with 3 in *;
  change (bits [3; 3]%nat) with 6 in *.

(** X8: castle talk carries 8 bits, and whatever [castleTalkMessage]
    returns fits: every part it gives without throwing is within
    [0 <= part < 256].  A part is not zero either, which a castle would
    take for silence, unless it identifies a unit type below zero. *)
Theorem castleTalkMessage_8_bits message map_size msg :
  CastleTalk.castleTalkMessage message map_size = inr msg ->
  Forall (fun part => 0 <= part < 256) (CastleTalk.parts msg) /\
  (match message with CastleTalk.ident unit => 0 <= unit | _ => True end ->
   Forall (fun part => part <> 0) (CastleTalk.parts msg)).
Proof.
  unfold CastleTalk.castleTalkMessage.
  destruct message as [x y|unit| |direction| |]; try done.
  - unfold CastleTalk.floor_quotient, CastleTalk.remainder.
    set (t := CastleTalk.calculateTileSize _).
    destruct (Z.eqb_spec t 0) as [|Ht].
    { destruct (x =? 0); [done|]. done. }
    destruct (CastleTalk.encode [_; of_Z (x / t); _] _) as [e|rough] eqn:Hrough;
      [done|].
    destruct (CastleTalk.encode [_; of_Z (Z.rem x t); _] _) as [e|fine] eqn:Hfine;
      [done|].
    intros [= Hmsg]; subst msg.
    apply (talk_encode_inr [2; x / t; y / t]) in Hrough as [Hr ->];
      [|widths|vm_compute; discriminate].
    apply (talk_encode_inr [2; Z.rem x t; Z.rem y t]) in Hfine as [Hf ->];
      [|widths|vm_compute; discriminate].
    pose proof (pack_range _ _ Hr) as Hrr. pose proof (pack_range _ _ Hf) as Hfr.
    change (2 ^ bits [2; 3; 3]%nat) with 256 in *.
    apply Forall2_cons_1 in Hr as [_ Hr]. apply Forall2_cons_1 in Hf as [_ Hf].
    pose proof (pack_range _ _ Hr) as Hr'. pose proof (pack_range _ _ Hf) as Hf'.
    change (2 ^ bits [3; 3]%nat) with 64 in *.
    cbn [pack] in *. known_bits.
    split; [|intros _]; repeat constructor; simpl; lia.
  - destruct (CastleTalk.encode _ _) as [e|part] eqn:Hpart; [done|].
    intros [= Hmsg]; subst msg.
    apply (talk_encode_inr [0; 0; unit + 1]) in Hpart as [Hp ->];
      [|widths|vm_compute; discriminate].
    pose proof (pack_range _ _ Hp) as Hr. change (2 ^ bits [2; 3; 3]%nat) with 256 in *.
    cbn [pack] in *. known_bits.
    split; [|intros Hunit]; repeat constructor; simpl; lia.
  - intros [= Hmsg]; subst msg. split; [|intros _]; by repeat constructor.
  - destruct (CastleTalk.encode _ _) as [e|part] eqn:Hpart; [done|].
    intros [= Hmsg]; subst msg.
    apply (talk_encode_inr [0; 5; direction]) in Hpart as [Hp ->];
      [|widths|vm_compute; discriminate].
    pose proof (pack_range _ _ Hp) as Hr. change (2 ^ bits [2; 3; 3]%nat) with 256 in *.
    apply Forall2_cons_1 in Hp as [_ Hp]. apply Forall2_cons_1 in Hp as [_ Hp].
    apply Forall2_cons_1 in Hp as [Hd _].
    cbn [pack] in *. known_bits.
    split; [|intros _]; repeat constructor; simpl in *; lia.
  - intros [= Hmsg]; subst msg. split; [|intros _]; by repeat constructor.
Qed.

Lemma castleTalkMessage_8_bits_witness :
  Forall (fun part => 0 <= part < 256) [176; 141] /\
  (True -> Forall (fun part => part <> 0) [176; 141]).
Proof.
  apply (castleTalkMessage_8_bits (CastleTalk.position 37 5) (Some 48)
           (Outbox.Parts [176; 141])).
  reflexivity.
Defined.

End MessageFacts.

(** ** Extensions.js *)

Module ExtensionsFacts.

Import Extensions.

(** X9: for a positive [n], [Number.positiveMod(k, n)] is the residue of
    [k] modulo [n]: it is within [0 <= r < n] whatever the sign of [k],
    and differs from [k] by a multiple of [n].  For [n = 0] it is [NaN]. *)
Theorem positiveMod_residue k n :
  (0 < n ->
   positiveMod k n = Some (k mod n) /\
   0 <= k mod n < n /\ exists q, k = q * n + k mod n) /\
  (n = 0 -> positiveMod k n = None).
Proof.
  split.
  - intros Hn. split; [|split; [by apply Z.mod_pos_bound|]].
    + unfold positiveMod, remainder. destruct (Z.eqb_spec n 0); [lia|]. simpl.
      destruct (Z.eqb_spec n 0); [lia|]. f_equal.
      pose proof (Z.rem_bound_abs k n ltac:(lia)) as Hr.
      pose proof (Z.quot_rem' k n) as Hk.
      rewrite Z.rem_mod_nonneg by lia.
      replace (Z.rem k n + n) with (Z.rem k n + 1 * n) by lia.
      rewrite Z.mod_add by lia.
      rewrite <- (Z.mod_add (Z.rem k n) (k ÷ n) n) by lia. f_equal. lia.
    + exists (k / n). pose proof (Z.div_mod k n). lia.
  - intros ->. unfold positiveMod, remainder. done.
Qed.

Lemma positiveMod_residue_witness :
  positiveMod (-3) 8 = Some ((-3) mod 8) /\
  0 <= (-3) mod 8 < 8 /\ exists q, -3 = q * 8 + (-3) mod 8.
Proof. apply (positiveMod_residue (-3) 8). lia. Defined.

Section scoring.

Context {A : Type}.
Variable scoringFunction : A -> Q.

Local Abbreviation fnMin_loop := (fnMin_loop scoringFunction).
Local Abbreviation fnMin := (fnMin scoringFunction).
Local Abbreviation fnValMin := (fnValMin scoringFunction).

Lemma fnMin_loop_snoc this item :
  fnMin_loop (this ++ [item]) =
    match fnMin_loop this with
    | None => Some (item, scoringFunction item)
    | Some (best, bestScore) =>
        if Qlt_le_dec (scoringFunction item) bestScore
        then Some (item, scoringFunction item) else Some (best, bestScore)
    end.
Proof.
  unfold Extensions.fnMin_loop. rewrite foldl_snoc.
  by destruct (foldl _ _ _) as [[best bestScore]|].
Qed.

(** What the loop of [fnMin] holds: the first of the items of least
    score, with its score. *)
Lemma fnMin_loop_least this :
  match fnMin_loop this with
  | None => this = []
  | Some (best, bestScore) =>
      bestScore = scoringFunction best /\
      exists i, this !! i = Some best /\
        forall j item, this !! j = Some item ->
          (scoringFunction best <= scoringFunction item)%Q /\
          ((j < i)%nat -> (scoringFunction best < scoringFunction item)%Q)
  end.
Proof.
  induction this as [|item this IH] using rev_ind; [done|].
  rewrite fnMin_loop_snoc.
  destruct (fnMin_loop this) as [[best bestScore]|].
  - destruct IH as (-> & i & Hi & Hleast).
    pose proof (lookup_lt_Some _ _ _ Hi) as Hlt.
    destruct (Qlt_le_dec _ _) as [Hless|Hmore].
    + split; [done|]. exists (length this). split.
      { by rewrite lookup_app_r, Nat.sub_diag by lia. }
      intros j x Hj. apply lookup_app_Some in Hj as [Hj|[Hlen Hj]].
      * destruct (Hleast j x Hj) as [Hle _].
        split; [|intros _]; [apply Qlt_le_weak|]; eapply Qlt_le_trans; done.
      * apply list_lookup_singleton_Some in Hj as [_ <-].
        split; [apply Qle_refl|lia].
    + split; [done|]. exists i. split; [by apply lookup_app_l_Some|].
      intros j x Hj. apply lookup_app_Some in Hj as [Hj|[Hlen Hj]]; [by apply Hleast|].
      apply list_lookup_singleton_Some in Hj as [_ <-]. split; [done|lia].
  - subst this. split; [done|]. exists 0%nat. split; [done|].
    intros [|j] x Hj; [|done]. injection Hj as <-. split; [apply Qle_refl|lia].
Qed.

Lemma fnValMin_fnMin_loop this : fnValMin this = snd <$> fnMin_loop this.
Proof.
  induction this as [|item this IH] using rev_ind; [done|].
  rewrite fnMin_loop_snoc. unfold Extensions.fnValMin in *. rewrite foldl_snoc, IH.
  destruct (fnMin_loop this) as [[best bestScore]|]; simpl; [|done].
  by destruct (Qlt_le_dec _ _).
Qed.

(** X10: [fnMin] gives the first of the items of least score: no item
    scores less, and every item before it scores more; it gives [null]
    for an empty array only.  [fnValMin] gives the score of that item. *)
Theorem fnMin_first_least this :
  (fnMin this = None <-> this = []) /\
  (forall best, fnMin this = Some best ->
     exists i, this !! i = Some best /\
       forall j item, this !! j = Some item ->
         (scoringFunction best <= scoringFunction item)%Q /\
         ((j < i)%nat -> (scoringFunction best < scoringFunction item)%Q)) /\
  fnValMin this = scoringFunction <$> fnMin this.
Proof.
  pose proof (fnMin_loop_least this) as Hloop.
  rewrite fnValMin_fnMin_loop. unfold Extensions.fnMin.
  destruct (fnMin_loop this) as [[best bestScore]|]; simpl.
  - destruct Hloop as (-> & i & Hi & Hleast). split; [|split; [|done]].
    + split; [done|]. intros ->. done.
    + intros ? [= <-]. by exists i.
  - subst this. split; [done|]. split; [|done]. intros ? [=].
Qed.

End scoring.

Lemma fnMin_first_least_witness :
  exists i, [3; 1; 2; 1] !! i = Some 1 /\
    forall j item, [3; 1; 2; 1] !! j = Some item ->
      (inject_Z 1 <= inject_Z item)%Q /\
      ((j < i)%nat -> (inject_Z 1 < inject_Z item)%Q).
Proof.
  apply (proj1 (proj2 (fnMin_first_least inject_Z [3; 1; 2; 1]))). reflexivity.
Defined.

Lemma argmax_loop_spec this : forall i best,
  match best with
  | None => True
  | Some (bestIndex, _) => (bestIndex < i)%nat
  end ->
  match argmax_loop i best this with
  | None => best = None /\ this = []
  | Some index =>
      exists value,
        (match best with
         | Some (bestIndex, bestValue) =>
             index = bestIndex /\ value = bestValue \/
             (i <= index)%nat /\ this !! (index - i)%nat = Some value /\
             bestValue < value
         | None => (i <= index)%nat /\ this !! (index - i)%nat = Some value
         end) /\
        forall j w, this !! j = Some w ->
          w <= value /\ ((i + j < index)%nat -> w < value)
  end.
Proof.
  induction this as [|v this IH]; intros i best Hbest.
  - simpl. destruct best as [[bestIndex bestValue]|]; simpl; [|done].
    exists bestValue. split; [by left|]. intros j w [=].
  - cbn [argmax_loop].
    set (better := match best with None => true | Some (_, b) => b <? v end).
    specialize (IH (S i) (if better then Some (i, v) else best)).
    destruct (argmax_loop _ _ this) as [index|].
    + destruct best as [[bestIndex bestValue]|]; subst better; cbv beta iota in *.
      * destruct (Z.ltb_spec bestValue v).
        -- destruct IH as (value & Hvalue & Hall); [lia|]. exists value. split.
           ++ right. destruct Hvalue as [[-> ->]|(? & Hi & ?)].
              ** rewrite Nat.sub_diag. split; [lia|]. split; [done|lia].
              ** replace (index - i)%nat with (S (index - S i)) by lia.
                 split; [lia|]. split; [done|lia].
           ++ intros [|j] w Hj; simplify_eq/=.
              ** destruct Hvalue as [[-> ->]|(? & Hi & ?)]; [lia|].
                 split; [lia|]. intros _. lia.
              ** destruct (Hall j w Hj). split; [done|]. intros. apply H1. lia.
        -- destruct IH as (value & Hvalue & Hall); [lia|]. exists value. split.
           ++ destruct Hvalue as [[-> ->]|(? & Hi & ?)]; [by left|right].
              replace (index - i)%nat with (S (index - S i)) by lia.
              split; [lia|]. split; [done|lia].
           ++ intros [|j] w Hj; simplify_eq/=.
              ** destruct Hvalue as [[-> ->]|(? & Hi & ?)]; lia.
              ** destruct (Hall j w Hj). split; [done|]. intros. apply H1. lia.
      * destruct IH as (value & Hvalue & Hall); [lia|]. exists value. split.
        -- destruct Hvalue as [[-> ->]|(? & Hi & ?)].
           ++ rewrite Nat.sub_diag. split; [lia|done].
           ++ replace (index - i)%nat with (S (index - S i)) by lia.
              split; [lia|done].
        -- intros [|j] w Hj; simplify_eq/=.
           ++ destruct Hvalue as [[-> ->]|(? & Hi & ?)]; lia.
           ++ destruct (Hall j w Hj). split; [done|]. intros. apply H0. lia.
    + exfalso. destruct best as [[bestIndex bestValue]|]; subst better;
        cbv beta iota in *.
      * destruct (bestValue <? v); (destruct IH as [? _]; [lia|done]).
      * destruct IH as [? _]; [lia|done].
Qed.

(** X11: [argmax] gives the first index of the greatest entry: no entry
    is greater, and every entry before it is less; it gives [undefined]
    for an empty array only. *)
Theorem argmax_first_greatest this :
  (argmax this = None <-> this = []) /\
  (forall index, argmax this = Some index ->
     exists value, this !! index = Some value /\
       forall j w, this !! j = Some w ->
         w <= value /\ ((j < index)%nat -> w < value)).
Proof.
  pose proof (argmax_loop_spec this 0 None I) as Hloop. unfold argmax.
  destruct (argmax_loop 0 None this) as [index|].
  - destruct Hloop as (value & [_ Hindex] & Hall). rewrite Nat.sub_0_r in Hindex.
    split.
    + split; [done|]. intros ->. done.
    + intros ? [= <-]. exists value. split; [done|]. intros j w Hj.
      destruct (Hall j w Hj). split; [done|]. intros. apply H0. lia.
  - destruct Hloop as [_ ->]. split; [done|]. intros ? [=].
Qed.

Lemma argmax_first_greatest_witness :
  exists value, [1; 5; 3; 5] !! 1%nat = Some value /\
    forall j w, [1; 5; 3; 5] !! j = Some w ->
      w <= value /\ ((j < 1)%nat -> w < value).
Proof. apply (proj2 (argmax_first_greatest [1; 5; 3; 5])). reflexivity. Defined.

End ExtensionsFacts.

(** ** The helper functions of robot.js *)

Module HelpersFacts.

Import PathFinder Helpers.

(** *** Sorting *)

Section sorting.

Context {A : Type}.
Variable compare : A -> A -> Z.

Local Abbreviation sort_insert := (sort_insert compare).
Local Abbreviation sort := (sort compare).
Local Abbreviation before := (fun x y : A => compare x y <= 0).

Lemma sort_insert_items item sorted : sort_insert item sorted ≡ₚ item :: sorted.
Proof.
  induction sorted as [|next rest IH]; simpl; [done|].
  destruct (_ <=? _); [done|]. rewrite IH. apply Permutation_swap.
Qed.

Lemma sort_items a : sort a ≡ₚ a.
Proof.
  induction a as [|item a IH]; simpl; [done|].
  by rewrite sort_insert_items, IH.
Qed.

(** The comparison orders the items: it is transitive, and of two items
    one is not after the other. *)
Hypothesis compare_trans :
  forall x y z, compare x y <= 0 -> compare y z <= 0 -> compare x z <= 0.
Hypothesis compare_total : forall x y, 0 < compare x y -> compare y x <= 0.

Lemma sort_insert_sorted item sorted :
  StronglySorted before sorted -> StronglySorted before (sort_insert item sorted).
Proof.
  induction 1 as [|next rest Hrest IH Hnext]; simpl; [repeat constructor|].
  destruct (Z.leb_spec (compare item next) 0) as [Hle|Hgt].
  - constructor; [by constructor|]. constructor; [done|].
    eapply Forall_impl; [exact Hnext|]. intros z Hz. by eapply compare_trans.
  - constructor; [done|]. rewrite sort_insert_items.
    constructor; [by apply compare_total|done].
Qed.

Lemma sort_sorted a : StronglySorted before (sort a).
Proof.
  induction a as [|item a IH]; simpl; [constructor|]. by apply sort_insert_sorted.
Qed.

End sorting.

Lemma StronglySorted_weaken {A} (R R' : A -> A -> Prop) l :
  (forall x y, R x y -> R' x y) -> StronglySorted R l -> StronglySorted R' l.
Proof.
  intros HR. induction 1 as [|x l _ IH Hx]; constructor; [done|].
  eapply Forall_impl; [exact Hx|]. intros y. apply HR.
Qed.

(** *** Coordinates *)

Lemma by_coordinates_le x y :
  by_coordinates x y <= 0 <-> x.1 < y.1 \/ x.1 = y.1 /\ x.2 <= y.2.
Proof. unfold by_coordinates. destruct (Z.eqb_spec (x.1 - y.1) 0); lia. Qed.

Lemma by_coordinates_lt (x y : cell) :
  by_coordinates x y < 0 <-> by_coordinates x y <= 0 /\ x <> y.
Proof.
  destruct x as [x1 x2], y as [y1 y2]. unfold by_coordinates. simpl.
  destruct (Z.eqb_spec (x1 - y1) 0); (split; [intros ?; split; [lia|intros [= ]; lia]|]).
  - intros [? Hne]. destruct (decide (x2 = y2)) as [->|]; [|lia].
    destruct Hne. f_equal. lia.
  - lia.
Qed.

Lemma by_coordinates_trans x y z :
  by_coordinates x y <= 0 -> by_coordinates y z <= 0 -> by_coordinates x z <= 0.
Proof. rewrite !by_coordinates_le. lia. Qed.

Lemma by_coordinates_total x y : 0 < by_coordinates x y -> by_coordinates y x <= 0.
Proof.
  rewrite by_coordinates_le. unfold by_coordinates.
  destruct (Z.eqb_spec (x.1 - y.1) 0); lia.
Qed.

(** What the loop keeps of a sorted array: every tile but the repeats,
    each after [previous]. *)
Lemma removeDoubles_loop_sorted a : forall previous,
  StronglySorted (fun x y => by_coordinates x y <= 0) a ->
  (forall p c, previous = Some p -> c ∈ a -> by_coordinates p c <= 0) ->
  let result := removeDoubles_loop previous a in
  StronglySorted (fun x y => by_coordinates x y < 0) result /\
  (forall p c, previous = Some p -> c ∈ result -> by_coordinates p c < 0) /\
  (forall c, c ∈ result <-> c ∈ a /\ previous <> Some c).
Proof.
  induction a as [|c a IH]; intros previous Hsorted Hprevious; cbv zeta.
  - simpl. split; [constructor|]. split; [intros ? ? _ []%elem_of_nil|].
    intros c. rewrite elem_of_nil. tauto.
  - apply StronglySorted_inv in Hsorted as [Hsorted Hc].
    destruct (IH (Some c) Hsorted) as (IHsorted & IHafter & IHitems).
    { intros ? c' [= <-] Hc'. rewrite Forall_forall in Hc. by apply Hc. }
    cbn [removeDoubles_loop].
    set (keep := match previous with None => true | Some p => _ end).
    assert (Hkeep : keep = true <-> previous <> Some c).
    { subst keep. destruct previous as [[p1 p2]|]; [|done].
      destruct c as [c1 c2]. simpl.
      destruct (Z.eqb_spec c1 p1), (Z.eqb_spec c2 p2); simpl;
        split; try done; try (intros _ [= ]; lia). intros []. by subst. }
    destruct keep.
    + assert (Hne : previous <> Some c) by by apply Hkeep.
      split; [|split].
      * constructor; [done|]. apply Forall_forall. intros c' Hc'. by eapply IHafter.
      * intros p c' -> [->|Hc']%elem_of_cons.
        -- apply by_coordinates_lt. split; [apply Hprevious; [done|left]|congruence].
        -- apply by_coordinates_lt. split.
           ++ apply Hprevious; [done|]. right. by apply IHitems in Hc' as [? _].
           ++ intros ->. apply (IHafter c c' eq_refl) in Hc'.
              pose proof (Hprevious c' c eq_refl ltac:(left)).
              apply by_coordinates_lt in Hc' as [Hle Hne'].
              destruct Hne'. destruct c as [c1 c2], c' as [d1 d2].
              apply by_coordinates_le in Hle, H. simpl in *. f_equal; lia.
      * intros c'. simpl. rewrite !elem_of_cons, IHitems. split.
        -- intros [->|[Hc' Hne']]; [by split; [left|]|split; [by right|]].
           intros ->. apply Hne'. f_equal.
           rewrite Forall_forall in Hc. specialize (Hc c' Hc').
           pose proof (Hprevious c' c eq_refl ltac:(left)) as Hle.
           destruct c as [c1 c2], c' as [d1 d2].
           apply by_coordinates_le in Hle, Hc. simpl in *. f_equal; lia.
        -- intros [[->|Hc'] Hne']; [by left|].
           destruct (decide (c = c')) as [->|]; [by left|]. right.
           split; [done|congruence].
    + assert (Heq : previous = Some c).
      { destruct (decide (previous = Some c)); [done|].
        by apply Hkeep in n. }
      split; [done|]. split.
      * intros p c' Hp Hc'. rewrite Heq in Hp. injection Hp as <-. by eapply IHafter.
      * intros c'. simpl. rewrite IHitems, elem_of_cons, Heq. split.
        -- intros [? ?]. split; [by right|congruence].
        -- intros [[->|?] ?]; [done|]. split; [done|congruence].
Qed.

Lemma StronglySorted_lt_NoDup (l : list cell) :
  StronglySorted (fun x y => by_coordinates x y < 0) l -> NoDup l.
Proof.
  induction 1 as [|c l _ IH Hc]; constructor; [|done].
  intros Hin. rewrite Forall_forall in Hc. specialize (Hc c Hin).
  unfold by_coordinates in Hc. rewrite Z.sub_diag in Hc. simpl in Hc. lia.
Qed.

Lemma coordinatesRemoveDoubles_items a :
  NoDup (coordinatesRemoveDoubles a).2 /\
  forall c, c ∈ (coordinatesRemoveDoubles a).2 <-> c ∈ a.
Proof.
  unfold coordinatesRemoveDoubles. cbv zeta. simpl.
  destruct (removeDoubles_loop_sorted (sort by_coordinates a) None)
    as (Hsorted & _ & Hitems).
  { apply sort_sorted; [apply by_coordinates_trans|apply by_coordinates_total]. }
  { done. }
  split; [by apply StronglySorted_lt_NoDup|].
  intros c. rewrite Hitems, sort_items. split; [by intros [? _]|done].
Qed.

(** X12: [coordinatesRemoveDoubles] removes every double, not only the
    adjacent ones: the array it returns holds each tile of the argument
    once, in the order of the first and then of the second coordinate.
    The argument is left sorted, with the tiles it had. *)
Theorem coordinatesRemoveDoubles_set a :
  let '(sorted, result) := coordinatesRemoveDoubles a in
  sorted ≡ₚ a /\
  StronglySorted (fun x y => by_coordinates x y <= 0) sorted /\
  NoDup result /\
  (forall c, c ∈ result <-> c ∈ a) /\
  StronglySorted (fun x y => x.1 < y.1 \/ x.1 = y.1 /\ x.2 < y.2) result.
Proof.
  pose proof (coordinatesRemoveDoubles_items a) as [Hnodup Hitems].
  unfold coordinatesRemoveDoubles in *. cbv zeta in *. simpl in *.
  assert (Hsorted : StronglySorted (fun x y => by_coordinates x y <= 0)
                      (sort by_coordinates a)).
  { apply sort_sorted; [apply by_coordinates_trans|apply by_coordinates_total]. }
  split; [apply sort_items|]. split; [done|]. split; [done|]. split; [done|].
  destruct (removeDoubles_loop_sorted (sort by_coordinates a) None Hsorted)
    as (Hstrict & _ & _); [done|].
  eapply StronglySorted_weaken; [|exact Hstrict].
  intros [x1 x2] [y1 y2] Hlt. apply by_coordinates_lt in Hlt as [Hle Hne].
  apply by_coordinates_le in Hle. simpl in *.
  destruct (decide (x2 = y2)) as [->|]; [|lia].
  destruct (decide (x1 = y1)) as [->|]; [done|lia].
Qed.

End HelpersFacts.

(** ** Tiles around a unit, and the mirror image of a tile *)

Module TilesFacts.

Import PathFinder Helpers HelpersFacts Tiles.

Lemma ceil_sqrt_covers n d :
  0 <= n -> d * d <= n -> - ceil_sqrt n <= d <= ceil_sqrt n.
Proof.
  intros Hn Hd. pose proof (Z.sqrt_spec n Hn) as Hroot.
  pose proof (Z.sqrt_nonneg n) as Hnn. unfold ceil_sqrt. cbv zeta.
  set (root := Z.sqrt n) in *.
  assert (Z.abs d < root + 1) as Habs.
  { destruct (Z.lt_ge_cases (Z.abs d) (root + 1)) as [|Hge]; [done|].
    assert ((root + 1) * (root + 1) <= Z.abs d * Z.abs d)
      by (apply Z.mul_le_mono_nonneg; lia).
    unfold Z.succ in Hroot.
    destruct (Z.abs_spec d) as [[_ Heq]|[_ Heq]]; rewrite Heq in *;
      rewrite ?Z.mul_opp_opp in *; lia. }
  destruct (_ =? _); lia.
Qed.

Lemma by_radius_trans x y z :
  by_radius x y <= 0 -> by_radius y z <= 0 -> by_radius x z <= 0.
Proof. unfold by_radius. lia. Qed.

Lemma by_radius_total x y : 0 < by_radius x y -> by_radius y x <= 0.
Proof. unfold by_radius. lia. Qed.

Lemma listDeltaTiles_elem minRadiusSq maxRadiusSq d :
  d ∈ listDeltaTiles minRadiusSq maxRadiusSq <->
  minRadiusSq <= d.1 * d.1 + d.2 * d.2 <= maxRadiusSq.
Proof.
  unfold listDeltaTiles. destruct (Z.ltb_spec maxRadiusSq 0) as [Hneg|Hmax].
  - rewrite elem_of_nil. nia.
  - cbv zeta. rewrite sort_items, list_elem_of_bind. split.
    + intros (dx & (dy & Hd & _)%list_elem_of_bind & _).
      destruct (_ <=? _) eqn:Hlow; [|by apply elem_of_nil in Hd].
      destruct (_ <=? maxRadiusSq) eqn:Hhigh; [|by apply elem_of_nil in Hd].
      apply list_elem_of_singleton in Hd as ->. simpl. lia.
    + intros Hd. destruct d as [dx dy]. simpl in Hd.
      assert (dx * dx <= maxRadiusSq /\ dy * dy <= maxRadiusSq) as [Hx Hy] by nia.
      pose proof (ceil_sqrt_covers _ _ Hmax Hx).
      pose proof (ceil_sqrt_covers _ _ Hmax Hy).
      exists dx. split; [|apply elem_of_seqZ; lia].
      apply list_elem_of_bind. exists dy. split; [|apply elem_of_seqZ; lia].
      destruct (Z.leb_spec minRadiusSq (dx * dx + dy * dy)); [|lia].
      destruct (Z.leb_spec (dx * dx + dy * dy) maxRadiusSq); [|lia].
      simpl. by left.
Qed.

Lemma listDeltaTiles_NoDup minRadiusSq maxRadiusSq :
  NoDup (listDeltaTiles minRadiusSq maxRadiusSq).
Proof.
  unfold listDeltaTiles. destruct (_ <? _); [constructor|]. cbv zeta.
  rewrite sort_items. apply NoDup_bind; [| |apply NoDup_seqZ].
  - intros dx dx' d _ _ (dy & Hd & _)%list_elem_of_bind
      (dy' & Hd' & _)%list_elem_of_bind.
    destruct (_ && _); [|by apply elem_of_nil in Hd].
    destruct (_ && _); [|by apply elem_of_nil in Hd'].
    apply list_elem_of_singleton in Hd, Hd'. congruence.
  - intros dx _. apply NoDup_bind; [| |apply NoDup_seqZ].
    + intros dy dy' d _ _ Hd Hd'.
      destruct (_ && _); [|by apply elem_of_nil in Hd].
      destruct (_ && _); [|by apply elem_of_nil in Hd'].
      apply list_elem_of_singleton in Hd, Hd'. congruence.
    + intros dy _. destruct (_ && _); [apply NoDup_singleton|constructor].
Qed.

Lemma listDeltaTiles_sorted minRadiusSq maxRadiusSq :
  StronglySorted (fun l r => l.1 * l.1 + l.2 * l.2 <= r.1 * r.1 + r.2 * r.2)
    (listDeltaTiles minRadiusSq maxRadiusSq).
Proof.
  unfold listDeltaTiles. destruct (_ <? _); [constructor|]. cbv zeta.
  eapply StronglySorted_weaken;
    [|apply sort_sorted; [apply by_radius_trans|apply by_radius_total]].
  intros l r. unfold by_radius. simpl. lia.
Qed.

(** X13: [listDeltaTiles] lists exactly the offsets whose squared length
    is within the two radii, both included, each once and none of them
    before a shorter one. *)
Theorem listDeltaTiles_ring minRadiusSq maxRadiusSq :
  (forall d, d ∈ listDeltaTiles minRadiusSq maxRadiusSq <->
             minRadiusSq <= d.1 * d.1 + d.2 * d.2 <= maxRadiusSq) /\
  NoDup (listDeltaTiles minRadiusSq maxRadiusSq) /\
  StronglySorted (fun l r => l.1 * l.1 + l.2 * l.2 <= r.1 * r.1 + r.2 * r.2)
    (listDeltaTiles minRadiusSq maxRadiusSq).
Proof.
  split; [apply listDeltaTiles_elem|].
  split; [apply listDeltaTiles_NoDup|apply listDeltaTiles_sorted].
Qed.

(** The possible moves of a unit are the offsets of squared length
    between 1 and the speed of the unit; staying on the tile is not one
    of them, and no move is listed twice. *)
Theorem listPossibleMoves_speed SPEED this unit :
  let moves := listPossibleMoves SPEED this unit in
  let speed := SPEED (default (PathFinder.unit (me this)) unit) in
  (forall d, d ∈ moves <-> 1 <= d.1 * d.1 + d.2 * d.2 <= speed) /\
  ((0, 0) ∉ moves) /\
  NoDup moves.
Proof.
  cbv zeta. unfold listPossibleMoves. split; [apply listDeltaTiles_elem|].
  split; [|apply listDeltaTiles_NoDup].
  rewrite listDeltaTiles_elem. simpl. lia.
Qed.

Lemma listDistanceTiles_elem this units minRadiusSq maxRadiusSq c :
  c ∈ listDistanceTiles this units minRadiusSq maxRadiusSq <->
  (0 <= c.1 < Z.of_nat (length (map this)) /\
   0 <= c.2 < Z.of_nat (length (map this))) /\
  exists u, u ∈ units /\
    minRadiusSq <= squaredEuclideanDistance c.1 c.2 u.1 u.2 <= maxRadiusSq.
Proof.
  unfold listDistanceTiles. cbv zeta.
  rewrite (proj2 (coordinatesRemoveDoubles_items _)), list_elem_of_bind.
  unfold squaredEuclideanDistance. cbv zeta. split.
  - intros (u & (d & Hc & Hd)%list_elem_of_bind & Hu).
    apply listDeltaTiles_elem in Hd.
    destruct (Z.ltb_spec (u.1 + d.1) 0); [by apply elem_of_nil in Hc|].
    destruct (Z.ltb_spec (u.2 + d.2) 0); [by apply elem_of_nil in Hc|].
    destruct (Z.leb_spec (Z.of_nat (length (map this))) (u.1 + d.1));
      [by apply elem_of_nil in Hc|].
    destruct (Z.leb_spec (Z.of_nat (length (map this))) (u.2 + d.2));
      [by apply elem_of_nil in Hc|].
    apply list_elem_of_singleton in Hc as ->. simpl. split; [lia|].
    exists u. split; [done|].
    replace (u.1 + d.1 - u.1) with d.1 by lia.
    replace (u.2 + d.2 - u.2) with d.2 by lia. done.
  - intros [Hmap (u & Hu & Hc)]. exists u. split; [|done].
    apply list_elem_of_bind. exists (c.1 - u.1, c.2 - u.2).
    split; [|by apply listDeltaTiles_elem]. simpl.
    replace (u.1 + (c.1 - u.1)) with c.1 by lia.
    replace (u.2 + (c.2 - u.2)) with c.2 by lia.
    destruct (Z.ltb_spec c.1 0); [lia|]. destruct (Z.ltb_spec c.2 0); [lia|].
    destruct (Z.leb_spec (Z.of_nat (length (map this))) c.1); [lia|].
    destruct (Z.leb_spec (Z.of_nat (length (map this))) c.2); [lia|].
    simpl. destruct c. by left.
Qed.

Lemma listDistanceTiles_NoDup this units minRadiusSq maxRadiusSq :
  NoDup (listDistanceTiles this units minRadiusSq maxRadiusSq).
Proof. unfold listDistanceTiles. apply coordinatesRemoveDoubles_items. Qed.

(** X15: [listDistanceTiles] lists exactly the tiles that are within the
    bounds of the map and whose squared distance to one of the units is
    within the two radii; a tile within reach of several units is listed
    once.  So the tiles to drop resources off at are the tiles next to a
    unit: [listDropoffTiles] lists, each once, the tiles within the
    bounds of the map that are at Chebyshev distance 1 of one of the
    units, and never the tile of a unit unless it is next to another. *)
Theorem listDistanceTiles_reach this units minRadiusSq maxRadiusSq :
  (NoDup (listDistanceTiles this units minRadiusSq maxRadiusSq) /\
   forall c, c ∈ listDistanceTiles this units minRadiusSq maxRadiusSq <->
     (0 <= c.1 < Z.of_nat (length (map this)) /\
      0 <= c.2 < Z.of_nat (length (map this))) /\
     exists u, u ∈ units /\
       minRadiusSq <= squaredEuclideanDistance c.1 c.2 u.1 u.2 <= maxRadiusSq) /\
  (NoDup (listDropoffTiles this units) /\
   forall c, c ∈ listDropoffTiles this units <->
     (0 <= c.1 < Z.of_nat (length (map this)) /\
      0 <= c.2 < Z.of_nat (length (map this))) /\
     exists u, u ∈ units /\ chebyshevDistance c.1 c.2 u.1 u.2 = 1).
Proof.
  split; (split; [apply listDistanceTiles_NoDup|]); [apply listDistanceTiles_elem|].
  intros c. unfold listDropoffTiles. rewrite listDistanceTiles_elem.
  apply and_iff_compat_l. apply exist_proper. intros u. apply and_iff_compat_l.
  unfold squaredEuclideanDistance, chebyshevDistance. cbv zeta.
  nia.
Qed.

(** *** Mirror images *)

Lemma isXAxisMirrored_cache this cache result cache' :
  isXAxisMirrored this cache = inr (result, cache') -> cache' = Some result.
Proof.
  unfold isXAxisMirrored. destruct cache as [cached|]; [by intros [= -> <-]|].
  destruct (map this !! 0%nat); [|done]. by intros [= <- <-].
Qed.

Lemma isXAxisMirrored_cached this result :
  isXAxisMirrored this (Some result) = inr (result, Some result).
Proof. done. Qed.

Lemma quadrant_on_map this c :
  c ∈ quadrant (width this) (height this) -> on_map this c.
Proof.
  unfold quadrant. intros (x & (y & Hc & Hy)%list_elem_of_bind & Hx)%list_elem_of_bind.
  apply list_elem_of_singleton in Hc as ->. apply elem_of_seqZ in Hx, Hy.
  unfold on_map. simpl.
  pose proof (Z.div_le_upper_bound (width this) 2 (width this)).
  pose proof (Z.div_le_upper_bound (height this) 2 (height this)).
  unfold width, height in *. lia.
Qed.

Lemma isXAxisMirrored_loop_false map width height cells :
  isXAxisMirrored_loop map width height cells = Some false <->
  exists before c after,
    cells = before ++ c :: after /\
    at_ map c <> at_ map (c.1, height - 1 - c.2) /\
    forall c', c' ∈ before ->
      at_ map c' = at_ map (c'.1, height - 1 - c'.2) /\
      at_ map c' = at_ map (width - 1 - c'.1, c'.2).
Proof.
  induction cells as [|[x y] cells IH]; cbn [isXAxisMirrored_loop].
  - split; [done|]. intros (before & c & after & Hcells & _). by destruct before.
  - destruct (decide (at_ map (x, y) = at_ map (x, height - 1 - y))) as [Hx|Hx].
    + rewrite (bool_decide_eq_true_2 _ Hx). cbn [negb].
      destruct (decide (at_ map (x, y) = at_ map (width - 1 - x, y))) as [Hy|Hy].
      * rewrite (bool_decide_eq_true_2 _ Hy). cbn [negb]. rewrite IH. split.
        -- intros (before & c & after & -> & Hc & Hbefore).
           exists ((x, y) :: before), c, after. split; [done|]. split; [done|].
           intros c' [->|?]%elem_of_cons; [done|by apply Hbefore].
        -- intros ([|c0 before] & c & after & [= ] & Hc & Hbefore); subst; [done|].
           exists before, c, after. split; [done|]. split; [done|].
           intros c' Hc'. apply Hbefore. by right.
      * rewrite (bool_decide_eq_false_2 _ Hy). cbn [negb]. split; [done|].
        intros ([|c0 before] & c & after & [= ] & Hc & Hbefore); subst; [done|].
        destruct Hy. apply (Hbefore (x, y)). by left.
    + rewrite (bool_decide_eq_false_2 _ Hx). cbn [negb]. split; [|done]. intros _.
      exists [], (x, y), cells. split; [done|]. split; [done|].
      by intros ? ?%elem_of_nil.
Qed.

Lemma first_to_differ {A} (P : A -> Prop) `{!forall x, Decision (P x)} (l : list A) x :
  x ∈ l -> P x ->
  exists before y after,
    l = before ++ y :: after /\ P y /\ forall z, z ∈ before -> ~ P z.
Proof.
  induction l as [|a l IH]; intros Hx HP; [by apply elem_of_nil in Hx|].
  destruct (decide (P a)) as [Ha|Ha].
  - exists [], a, l. split; [done|]. split; [done|]. by intros ? ?%elem_of_nil.
  - apply elem_of_cons in Hx as [->|Hx]; [done|].
    destruct (IH Hx HP) as (before & y & after & -> & Hy & Hbefore).
    exists (a :: before), y, after. split; [done|]. split; [done|].
    intros z [->|?]%elem_of_cons; [done|by apply Hbefore].
Qed.

(** X17: [isXAxisMirrored] says of a map that has a row that it is
    mirrored across the x axis whenever it is: on a map that is its own
    image upside down the answer is [true], so an answer of [false] shows
    a tile that differs from its image.  On a map that is its own image
    left to right the answer is [false] as soon as a tile of the upper
    left quarter differs from its image upside down.  The answer is kept
    and given again. *)
Theorem isXAxisMirrored_sound this :
  map this <> [] ->
  (mirrored_across_x this -> isXAxisMirrored this None = inr (true, Some true)) /\
  (isXAxisMirrored this None = inr (false, Some false) ->
   exists c, on_map this c /\
     at_ (map this) c <> at_ (map this) (c.1, height this - 1 - c.2)) /\
  (mirrored_across_y this ->
   (exists c, c ∈ quadrant (width this) (height this) /\
      at_ (map this) c <> at_ (map this) (c.1, height this - 1 - c.2)) ->
   isXAxisMirrored this None = inr (false, Some false)) /\
  (forall answer cache,
     isXAxisMirrored this None = inr (answer, cache) ->
     isXAxisMirrored this cache = inr (answer, cache)).
Proof.
  intros Hrows.
  assert (Hfalse : isXAxisMirrored this None = inr (false, Some false) <->
            isXAxisMirrored_loop (map this) (width this) (height this)
              (quadrant (width this) (height this)) = Some false).
  { unfold isXAxisMirrored. destruct (map this) as [|row rows] eqn:Hmap; [done|].
    simpl lookup. cbv iota zeta. rewrite <- Hmap.
    destruct (isXAxisMirrored_loop _ _ _ _) as [[]|]; simpl; split; congruence. }
  assert (Hanswer : exists answer,
            isXAxisMirrored this None = inr (answer, Some answer)).
  { unfold isXAxisMirrored. destruct (map this) as [|row rows]; [done|].
    simpl. by eexists. }
  split; [|split; [|split]].
  - intros Hx. destruct Hanswer as [[] Hanswer]; [done|]. exfalso.
    apply Hfalse, isXAxisMirrored_loop_false in Hanswer
      as (before & c & after & Hcells & Hc & _).
    apply Hc, Hx, quadrant_on_map. rewrite Hcells, elem_of_app, elem_of_cons. auto.
  - intros (before & c & after & Hcells & Hc & _)%Hfalse%isXAxisMirrored_loop_false.
    exists c. split; [|done]. apply quadrant_on_map. rewrite Hcells, elem_of_app, elem_of_cons. auto.
  - intros Hy (c & Hc & Hdiffers). apply Hfalse, isXAxisMirrored_loop_false.
    destruct (first_to_differ
                (fun c => at_ (map this) c <> at_ (map this) (c.1, height this - 1 - c.2))
                _ c Hc Hdiffers) as (before & c1 & after & Hcells & Hc1 & Hbefore).
    exists before, c1, after. split; [done|]. split; [done|].
    intros c' Hc'. split.
    + destruct (decide (at_ (map this) c'
                        = at_ (map this) (c'.1, height this - 1 - c'.2))); [done|].
      by destruct (Hbefore c' Hc').
    + apply Hy, quadrant_on_map. rewrite Hcells, elem_of_app, elem_of_cons. auto.
  - intros answer cache Hcall.
    pose proof (isXAxisMirrored_cache _ _ _ _ Hcall) as ->. done.
Qed.

Lemma isXAxisMirrored_sound_witness :
  isXAxisMirrored open_field None = inr (true, Some true).
Proof.
  apply (isXAxisMirrored_sound open_field); [done|].
  intros [x y] [Hx Hy]. change (width open_field) with 4 in *.
  change (height open_field) with 4 in *. simpl in Hx, Hy.
  assert (x = 0 \/ x = 1 \/ x = 2 \/ x = 3) as [->|[->|[->| ->]]] by lia;
  assert (y = 0 \/ y = 1 \/ y = 2 \/ y = 3) as [->|[->|[->| ->]]] by lia;
  reflexivity.
Defined.

(** The mirror image of the mirror image of a tile is the tile, and the
    mirror image of a tile of the map is a tile of the map. *)
Lemma mirror_twice this cache c c' cache' :
  mirror this cache c = inr (c', cache') ->
  mirror this cache' c' = inr (c, cache') /\
  (on_map this c -> on_map this c').
Proof.
  unfold mirror.
  destruct (isXAxisMirrored this cache) as [e|[answer cache'']] eqn:Hcall; [done|].
  pose proof (isXAxisMirrored_cache _ _ _ _ Hcall) as ->.
  destruct answer.
  - intros [= <- <-]. rewrite isXAxisMirrored_cached. simpl. split.
    + do 2 f_equal. destruct c. simpl. f_equal. lia.
    + unfold on_map. simpl. lia.
  - destruct (map this !! 0%nat) eqn:Hrow; [|done].
    intros [= <- <-]. rewrite isXAxisMirrored_cached. simpl. split.
    + do 2 f_equal. destruct c. simpl. f_equal. lia.
    + unfold on_map. simpl. lia.
Qed.

(** On a square map a tile and its mirror image are on the same side
    only when the tile is on the axis itself. *)
Lemma mirror_side this cache c c' cache' :
  width this = height this ->
  mirror this cache c = inr (c', cache') ->
  exists same,
    isSameSide this cache' c c' = inr (same, cache') /\
    (same = true <-> c' = c).
Proof.
  unfold mirror, isSameSide. intros Hsquare.
  destruct (isXAxisMirrored this cache) as [e|[answer cache'']] eqn:Hcall; [done|].
  pose proof (isXAxisMirrored_cache _ _ _ _ Hcall) as ->.
  destruct answer.
  - intros [= <- <-]. rewrite isXAxisMirrored_cached. eexists. split; [done|].
    destruct c as [x y]. simpl.
    destruct (Z.eqb_spec (2 * y) (height this - 1)) as [Hy|Hy]; simpl.
    { split; [intros _|done]. f_equal. lia. }
    destruct (Z.eqb_spec (2 * (height this - 1 - y)) (height this - 1)); [lia|].
    rewrite bool_decide_eq_false_2.
    + split; [done|]. intros [= ]. lia.
    + destruct (Z.ltb_spec (2 * y) (height this - 1)),
        (Z.ltb_spec (2 * (height this - 1 - y)) (height this - 1)); (done || lia).
  - destruct (map this !! 0%nat) eqn:Hrow; [|done].
    intros [= <- <-]. rewrite isXAxisMirrored_cached. eexists. split; [done|].
    destruct c as [x y]. simpl. rewrite Hsquare.
    destruct (Z.eqb_spec (2 * x) (height this - 1)) as [Hx|Hx]; simpl.
    { split; [intros _|done]. f_equal. lia. }
    destruct (Z.eqb_spec (2 * (height this - 1 - x)) (height this - 1)); [lia|].
    rewrite bool_decide_eq_false_2.
    + split; [done|]. intros [= ]. lia.
    + destruct (Z.ltb_spec (2 * x) (height this - 1)),
        (Z.ltb_spec (2 * (height this - 1 - x)) (height this - 1)); (done || lia).
Qed.

(** X18: the mirror image of the mirror image of a tile is the tile, and
    the mirror image of a tile of the map is a tile of the map.  On a
    square map a tile and its mirror image are on the same side, as
    [isSameSide] sees it, only when the tile is on the axis itself:
    otherwise the mirror image is on the other side. *)
Theorem mirror_image this cache c c' cache' :
  mirror this cache c = inr (c', cache') ->
  mirror this cache' c' = inr (c, cache') /\
  (on_map this c -> on_map this c') /\
  (width this = height this ->
   exists same,
     isSameSide this cache' c c' = inr (same, cache') /\
     (same = true <-> c' = c)).
Proof.
  intros Hmirror. destruct (mirror_twice _ _ _ _ _ Hmirror) as [Htwice Hon].
  split; [done|]. split; [done|]. intros Hsquare. by eapply mirror_side.
Qed.

Lemma mirror_image_witness :
  mirror open_field (Some true) (1, 3) = inr ((1, 0), Some true) /\
  (on_map open_field (1, 0) -> on_map open_field (1, 3)) /\
  (width open_field = height open_field ->
   exists same,
     isSameSide open_field (Some true) (1, 0) (1, 3) = inr (same, Some true) /\
     (same = true <-> (1, 3) = (1, 0))).
Proof. apply (mirror_image open_field None (1, 0)). reflexivity. Defined.

End TilesFacts.

(** ** PriorityQueue: what goes in comes out *)

Module QueueFacts.

Import PriorityQueue PriorityQueueFacts.

Section Facts.

Context {A : Type}.
Variable comparator : A -> A -> Z.

Local Abbreviation le := (le comparator).
Local Abbreviation is_heap := (is_heap comparator).
Local Abbreviation enqueue := (enqueue comparator).
Local Abbreviation dequeue := (dequeue comparator).
Local Abbreviation run := (run comparator).
Local Abbreviation content_after := (content_after comparator).

Lemma run_app calls calls' : forall c,
  run c (calls ++ calls') = run c calls ++ run (content_after c calls) calls'.
Proof.
  induction calls as [|[item|] calls IH]; intros c; simpl; [done|..].
  - by rewrite IH.
  - destruct (dequeue c) as [e|[front c']]; simpl; by rewrite IH.
Qed.

Lemma content_after_app calls calls' : forall c,
  content_after c (calls ++ calls') = content_after (content_after c calls) calls'.
Proof.
  induction calls as [|[item|] calls IH]; intros c; simpl; [done|..].
  - by rewrite IH.
  - destruct (dequeue c) as [e|[front c']]; simpl; by rewrite IH.
Qed.

Lemma run_items calls : forall c,
  dequeued (run c calls) ++ content_after c calls ≡ₚ c ++ enqueued calls.
Proof.
  induction calls as [|[item|] calls IH]; intros c; simpl.
  - by rewrite app_nil_r.
  - rewrite IH, enqueue_Permutation. simpl.
    by rewrite Permutation_middle.
  - destruct c as [|front rest].
    + rewrite dequeue_empty. simpl. apply IH.
    + destruct (dequeue_cons_Permutation comparator front rest) as (c' & -> & Hperm).
      simpl. by rewrite IH, Hperm.
Qed.

(** X20: the queue neither loses nor invents an item: after any calls of
    [enqueue] and [dequeue] on a new queue, the items the dequeues have
    returned together with the items still in the queue are the items
    that were enqueued, each as often; so [count()] is the number of
    enqueues less the number of items returned.  [clear()] empties the
    queue. *)
Theorem queue_keeps_items (calls : list call) :
  dequeued (run constructor calls) ++ content_after constructor calls
    ≡ₚ enqueued calls /\
  (count (content_after constructor calls)
   = length (enqueued calls) - length (dequeued (run constructor calls)))%nat /\
  count (clear (content_after constructor calls)) = 0%nat.
Proof.
  pose proof (run_items calls constructor) as Hitems. simpl in Hitems.
  split; [done|]. split; [|done].
  apply Permutation_length in Hitems. rewrite length_app in Hitems.
  unfold count. lia.
Qed.

Hypothesis comparator_trans :
  forall x y z, comparator x y <= 0 -> comparator y z <= 0 -> comparator x z <= 0.
Hypothesis comparator_total :
  forall x y, 0 <= comparator x y -> comparator y x <= 0.

Lemma run_enqueues items : forall c,
  run c (Enqueue <$> items) = replicate (length items) Enqueued.
Proof.
  induction items as [|item items IH]; intros c; simpl; [done|]. by rewrite IH.
Qed.

Lemma content_after_enqueues items : forall c,
  is_heap c ->
  is_heap (content_after c (Enqueue <$> items)) /\
  content_after c (Enqueue <$> items) ≡ₚ c ++ items.
Proof.
  induction items as [|item items IH]; intros c Hheap; simpl.
  - by rewrite app_nil_r.
  - destruct (IH (enqueue c item)) as [Hheap' Hperm]; [by apply enqueue_heap|].
    split; [done|]. rewrite Hperm, enqueue_Permutation. simpl.
    by rewrite Permutation_middle.
Qed.

(** X21: the queue sorts.  With a comparator that orders the items (it
    is transitive, and of two items one is not after the other),
    enqueuing the items of a list on a new queue and dequeuing as many
    times returns the items of the list in non-decreasing order, none of
    the dequeues throwing, and leaves the queue empty. *)
Theorem enqueue_all_dequeue_all (items : list A) :
  let calls := (Enqueue <$> items) ++ replicate (length items) Dequeue in
  exists xs,
    run constructor calls
      = replicate (length items) Enqueued ++ (Dequeued <$> xs) /\
    StronglySorted le xs /\
    xs ≡ₚ items /\
    content_after constructor calls = [].
Proof.
  cbv zeta. rewrite run_app, content_after_app, run_enqueues.
  destruct (content_after_enqueues items constructor) as [Hheap Hperm];
    [apply is_heap_nil|].
  simpl in Hperm. set (c := content_after constructor (Enqueue <$> items)) in *.
  assert (Hlen : length c = length items) by by rewrite Hperm.
  destruct (run_all comparator comparator_trans comparator_total _ c Hlen Hheap)
    as (xs & Hrun & Hxs).
  exists xs. rewrite Hrun. split; [done|]. split; [|split; [by rewrite Hxs|]].
  - apply (adjacent_Sorted comparator comparator_trans (Dequeued <$> xs))
      with (before := []) (after := []); [|by rewrite app_nil_r].
    rewrite <- Hrun. intros i x y.
    by apply (run_adjacent comparator comparator_trans comparator_total).
  - pose proof (run_items (replicate (length items) Dequeue) c) as Hitems.
    rewrite Hrun in Hitems.
    assert (Hnone : enqueued (replicate (length items) (Dequeue (A := A))) = []).
    { clear. induction (length items); [done|]. simpl. done. }
    rewrite Hnone, app_nil_r in Hitems.
    assert (Hout : dequeued (Dequeued <$> xs) = xs).
    { clear. induction xs as [|x xs IH]; [done|].
      change (dequeued (Dequeued <$> x :: xs)) with (x :: dequeued (Dequeued <$> xs)).
      by rewrite IH. }
    rewrite Hout in Hitems. apply Permutation_length in Hitems.
    rewrite length_app in Hitems. apply Permutation_length in Hxs.
    apply nil_length_inv. lia.
Qed.

End Facts.

Lemma enqueue_all_dequeue_all_witness :
  exists xs,
    run by_difference constructor
      ((Enqueue <$> [3; 1; 2]) ++ replicate 3 Dequeue)
      = replicate 3 Enqueued ++ (Dequeued <$> xs) /\
    StronglySorted (le by_difference) xs /\
    xs ≡ₚ [3; 1; 2] /\
    content_after by_difference constructor
      ((Enqueue <$> [3; 1; 2]) ++ replicate 3 Dequeue) = [].
Proof.
  apply (enqueue_all_dequeue_all by_difference).
  - unfold by_difference. intros x y z. lia.
  - unfold by_difference. intros x y. lia.
Defined.

End QueueFacts.

(** ** MessageProtocol: a message over the turns *)

Module DeliveryFacts.

Import Outbox.

Lemma radioSendMessage_turns_parts turns : forall this parts,
  _util_rd_msg this = Some parts ->
  let '(this', sent) := radioSendMessage_turns turns this in
  sent = (fun part => signal part (_util_rd_radiusSq this)) <$> take turns parts /\
  _util_rd_msg this' = Some (drop turns parts) /\
  _util_rd_prio this' =
    (if decide (parts <> [] /\ (length parts <= turns)%nat) then None
     else _util_rd_prio this) /\
  _util_rd_radiusSq this' = _util_rd_radiusSq this /\
  _util_ct_prio this' = _util_ct_prio this /\
  _util_ct_msg this' = _util_ct_msg this.
Proof.
  induction turns as [|turns IH]; intros this parts Hparts.
  { simpl. rewrite drop_0. split_and!; try done. rewrite decide_False; [done|].
    intros [Hne Hlen]. destruct parts; [done|simpl in Hlen; lia]. }
  cbn [radioSendMessage_turns]. unfold radioSendMessage. rewrite Hparts.
  destruct parts as [|first rest]; cbv beta iota zeta.
  - specialize (IH this [] Hparts).
    destruct (radioSendMessage_turns turns this) as [this' sent].
    destruct IH as (-> & Hmsg & Hprio & ? & ? & ?).
    rewrite ?take_nil, ?drop_nil in *. by split_and!.
  - set (this1 := {| _util_rd_prio := _ |}).
    specialize (IH this1 rest eq_refl).
    destruct (radioSendMessage_turns turns this1) as [this' sent].
    destruct IH as (-> & Hmsg & Hprio & Hradius & Hct & Hctm).
    split_and!; try done. rewrite Hprio. subst this1. simpl.
    destruct rest as [|second rest].
    + rewrite bool_decide_eq_true_2 by done.
      rewrite decide_False by (intros [? _]; done).
      by rewrite decide_True by (split; [done|simpl; lia]).
    + rewrite bool_decide_eq_false_2 by done.
      destruct (decide (second :: rest <> [] /\ _)) as [[_ Hlen]|Hlen].
      * by rewrite decide_True by (split; [done|simpl in *; lia]).
      * rewrite decide_False; [done|]. intros [_ Hlen']. apply Hlen.
        split; [done|]. simpl in *. lia.
Qed.

Lemma castleTalkSendMessage_turns_parts turns : forall this parts,
  _util_ct_msg this = Some parts ->
  let '(this', sent) := castleTalkSendMessage_turns turns this in
  sent = castleTalk <$> take turns parts /\
  _util_ct_msg this' = Some (drop turns parts) /\
  _util_ct_prio this' =
    (if decide (parts <> [] /\ (length parts <= turns)%nat) then None
     else _util_ct_prio this) /\
  _util_rd_prio this' = _util_rd_prio this /\
  _util_rd_msg this' = _util_rd_msg this /\
  _util_rd_radiusSq this' = _util_rd_radiusSq this.
Proof.
  induction turns as [|turns IH]; intros this parts Hparts.
  { simpl. rewrite drop_0. split_and!; try done. rewrite decide_False; [done|].
    intros [Hne Hlen]. destruct parts; [done|simpl in Hlen; lia]. }
  cbn [castleTalkSendMessage_turns]. unfold castleTalkSendMessage. rewrite Hparts.
  destruct parts as [|first rest]; cbv beta iota zeta.
  - specialize (IH this [] Hparts).
    destruct (castleTalkSendMessage_turns turns this) as [this' sent].
    destruct IH as (-> & Hmsg & Hprio & ? & ? & ?).
    rewrite ?take_nil, ?drop_nil in *. by split_and!.
  - set (this1 := {| _util_rd_prio := _ |}).
    specialize (IH this1 rest eq_refl).
    destruct (castleTalkSendMessage_turns turns this1) as [this' sent].
    destruct IH as (-> & Hmsg & Hprio & Hrd & Hrdm & Hradius).
    split_and!; try done. rewrite Hprio. subst this1. simpl.
    destruct rest as [|second rest].
    + rewrite bool_decide_eq_true_2 by done.
      rewrite decide_False by (intros [? _]; done).
      by rewrite decide_True by (split; [done|simpl; lia]).
    + rewrite bool_decide_eq_false_2 by done.
      destruct (decide (second :: rest <> [] /\ _)) as [[_ Hlen]|Hlen].
      * by rewrite decide_True by (split; [done|simpl in *; lia]).
      * rewrite decide_False; [done|]. intros [_ Hlen']. apply Hlen.
        split; [done|]. simpl in *. lia.
Qed.

(** X22: a message that has won the arbitration is sent whole and in
    order.  After [radioSetEventMessage] has returned true, the calls of
    [radioSendMessage] made turn after turn, with no message set in
    between, transmit the parts of the message from the first to the
    last, one a call and each with the radius of the message; the
    priority stays in place until the last part is sent and is reset by
    the call that sends it, and later calls transmit nothing.  A message
    of no part at all is never sent and its priority is never reset.  The
    same holds of castle talk. *)
Theorem sendMessage_delivers this priority msg radiusSq turns :
  ((radioSetEventMessage this priority msg radiusSq).2 = true ->
   let '(this', sent) :=
     radioSendMessage_turns turns
       (radioSetEventMessage this priority msg radiusSq).1 in
   sent = (fun part => signal part (Some radiusSq)) <$> take turns (promote msg) /\
   queued (_util_rd_msg this') = drop turns (promote msg) /\
   _util_rd_prio this' =
     if decide (promote msg <> [] /\ (length (promote msg) <= turns)%nat)
     then None else Some priority) /\
  ((castleTalkSetEventMessage this priority msg).2 = true ->
   let '(this', sent) :=
     castleTalkSendMessage_turns turns
       (castleTalkSetEventMessage this priority msg).1 in
   sent = castleTalk <$> take turns (promote msg) /\
   queued (_util_ct_msg this') = drop turns (promote msg) /\
   _util_ct_prio this' =
     if decide (promote msg <> [] /\ (length (promote msg) <= turns)%nat)
     then None else Some priority).
Proof.
  split.
  - unfold radioSetEventMessage. destruct outranks; [done|]. intros _. simpl.
    set (this1 := {| _util_rd_prio := _ |}).
    pose proof (radioSendMessage_turns_parts turns this1 (promote msg) eq_refl) as H.
    destruct (radioSendMessage_turns turns this1) as [this' sent].
    destruct H as (-> & Hmsg & Hprio & _). by rewrite Hmsg, Hprio.
  - unfold castleTalkSetEventMessage. destruct outranks; [done|]. intros _. simpl.
    set (this1 := {| _util_rd_prio := _ |}).
    pose proof (castleTalkSendMessage_turns_parts turns this1 (promote msg) eq_refl)
      as H.
    destruct (castleTalkSendMessage_turns turns this1) as [this' sent].
    destruct H as (-> & Hmsg & Hprio & _). by rewrite Hmsg, Hprio.
Qed.

Lemma sendMessage_delivers_witness :
  let '(this', sent) :=
    castleTalkSendMessage_turns 3 (castleTalkSetEventMessage silent 0 (Parts [176; 141])).1 in
  sent = castleTalk <$> take 3 [176; 141] /\
  queued (_util_ct_msg this') = drop 3 [176; 141] /\
  _util_ct_prio this' =
    if decide ([176; 141] <> [] /\ (length [176; 141] <= 3)%nat)
    then None else Some 0.
Proof.
  apply (proj2 (sendMessage_delivers silent 0 (Parts [176; 141]) 0 3)). reflexivity.
Defined.

End DeliveryFacts.

(** ** WorldKnowledge: what the class keeps true *)

Module KnowledgeFacts.

Import WorldKnowledge WorldKnowledgeFacts.

Lemma swap_and_pop (structs : list loc) i removed last :
  structs !! i = Some removed ->
  structs !! (length structs - 1)%nat = Some last ->
  structs ≡ₚ removed :: take (length structs - 1) (<[i := last]> structs).
Proof.
  intros Hi Hlast.
  pose proof (lookup_lt_Some _ _ _ Hi) as Hlt.
  assert (Hend : <[i := last]> structs
                 = take (length structs - 1) (<[i := last]> structs) ++ [last]).
  { rewrite <- (take_drop (length structs - 1) (<[i := last]> structs)) at 1.
    f_equal. apply list_eq. intros [|j].
    - rewrite lookup_drop, Nat.add_0_r. simpl.
      destruct (decide (i = (length structs - 1)%nat)) as [->|].
      + by rewrite list_lookup_insert_eq by lia.
      + by rewrite list_lookup_insert_ne by lia.
    - rewrite lookup_drop. simpl. apply lookup_ge_None_2.
      rewrite length_insert. lia. }
  apply (inj (cons last)).
  rewrite (PriorityQueueFacts.insert_Permutation structs i removed last Hi).
  set (kept := take _ _) in *. rewrite Hend.
  rewrite (Permutation_swap removed last). apply perm_skip.
  symmetry. apply Permutation_cons_append.
Qed.

Lemma remove_structure_items this id :
  match
    list_find (fun l => (WorldKnowledge.id <$> objects this !! l) = Some id)
      (_util_known_structures this)
  with
  | Some (_, removed) =>
      _util_known_structures this ≡ₚ removed :: remove_structure this id
  | None => remove_structure this id = _util_known_structures this
  end.
Proof.
  unfold remove_structure. cbv zeta.
  destruct (list_find _ _) as [[i removed]|] eqn:Hfind; [|done].
  apply list_find_Some in Hfind as (Hi & _ & _).
  pose proof (lookup_lt_Some _ _ _ Hi) as Hlt.
  destruct (lookup_lt_is_Some_2 (_util_known_structures this)
              (length (_util_known_structures this) - 1)) as [last Hlast]; [lia|].
  rewrite Hlast. by apply swap_and_pop.
Qed.

Lemma remove_structure_subset this id l :
  l ∈ remove_structure this id -> l ∈ _util_known_structures this.
Proof.
  pose proof (remove_structure_items this id) as Hitems.
  destruct (list_find _ _) as [[i removed]|].
  - intros Hl. rewrite Hitems. by right.
  - by rewrite Hitems.
Qed.

Lemma remove_structure_NoDup this id :
  NoDup (_util_known_structures this) -> NoDup (remove_structure this id).
Proof.
  pose proof (remove_structure_items this id) as Hitems.
  destruct (list_find _ _) as [[i removed]|].
  - rewrite Hitems. by intros [_ ?]%NoDup_cons.
  - by rewrite Hitems.
Qed.

Ltac fields :=
  cbn [fst snd objects _util_known_bots _util_known_structures _logger].

Lemma fresh_location this l b :
  objects this !! l = Some b -> l <> fresh (dom (objects this)).
Proof.
  intros Hl ->. apply (is_fresh (dom (objects this))). apply elem_of_dom. by eexists.
Qed.

Lemma register_consistent this id team unit :
  consistent this -> consistent (register this id team unit).1.
Proof.
  intros (Hfiled & Hnodup & Hstructs). unfold register. split_and!; fields.
  - intros id' l'. destruct (decide (id' = id)) as [->|Hne].
    + rewrite lookup_insert_eq. intros [= <-]. rewrite lookup_insert_eq. by eexists.
    + rewrite lookup_insert_ne by done. intros (b & Hb & Hid)%Hfiled.
      exists b. split; [|done]. rewrite lookup_insert_ne; [done|].
      intros <-. by eapply fresh_location.
  - done.
  - intros l' (b & Hb & ?)%Hstructs. exists b. split; [|done].
    rewrite lookup_insert_ne; [done|]. intros <-. by eapply fresh_location.
Qed.

Lemma initialSighting_consistent this id team unit trueVision :
  consistent this -> consistent (initialSighting this id team unit trueVision).1.
Proof.
  intros Hthis. unfold initialSighting. cbv zeta.
  destruct (findById this id) as [known|]; [|by apply register_consistent].
  pose proof (register_consistent this id team unit Hthis) as Hreg.
  destruct (if bool_decide _ then _ else _) as [msg|]; [|done].
  destruct (negb _); [done|]. by destruct (register this id team unit).
Qed.

Lemma store_position_consistent this id l b x y turn :
  consistent this -> findRef this id = Some (l, b) ->
  consistent (store_position this l b x y turn).
Proof.
  intros (Hfiled & Hnodup & Hstructs) [Hid Hl]%findRef_lookup.
  unfold store_position. split_and!; fields; [|done|].
  - intros id' l' Hid'. destruct (Hfiled id' l' Hid') as (b' & Hb' & <-).
    destruct (decide (l' = l)) as [->|].
    + rewrite lookup_insert_eq. eexists. split; [done|]. simpl. congruence.
    + rewrite lookup_insert_ne by done. by exists b'.
  - intros l' (b' & Hb' & Hunit & ?)%Hstructs.
    destruct (decide (l' = l)) as [->|].
    + rewrite lookup_insert_eq. eexists. split; [done|]. simpl.
      assert (b' = b) as -> by congruence. by split_and!.
    + rewrite lookup_insert_ne by done. by exists b'.
Qed.

Lemma updatePosition_consistent this id x y turn trueVision this' said :
  consistent this ->
  updatePosition this id x y turn trueVision = inr (this', said) ->
  consistent this'.
Proof.
  intros Hthis. unfold updatePosition. destruct turn as [turn|]; [|done].
  destruct (findRef this id) as [[l b]|] eqn:Hid; [|by intros [= <- _]].
  destruct (outdated b turn); [by intros [= <- _]|].
  destruct (Z.ltb_spec (unit b) 2) as [Hunit|Hunit].
  - destruct (WorldKnowledge.x b) as [bx|] eqn:Hx.
    + destruct (bool_decide _); intros [= <- _]; [done|].
      by eapply store_position_consistent.
    + intros [= <- _].
      apply findRef_lookup in Hid as [Hid Hl].
      destruct Hthis as (Hfiled & Hnodup & Hstructs).
      unfold store_position, push_structure. split_and!; fields.
      * intros id' l' Hid'. destruct (Hfiled id' l' Hid') as (b' & Hb' & <-).
        destruct (decide (l' = l)) as [->|].
        -- rewrite lookup_insert_eq. eexists. split; [done|]. simpl. congruence.
        -- rewrite lookup_insert_ne by done. by exists b'.
      * apply NoDup_app. split; [done|]. split; [|apply NoDup_singleton].
        intros l' (b' & Hb' & _ & [bx Hbx] & _)%Hstructs ->%list_elem_of_singleton.
        congruence.
      * intros l' [(b' & Hb' & ?)%Hstructs| ->%list_elem_of_singleton]%elem_of_app.
        -- destruct (decide (l' = l)) as [->|].
           ++ rewrite lookup_insert_eq. eexists. split; [done|]. simpl.
              assert (b' = b) as -> by congruence. by split_and!.
           ++ rewrite lookup_insert_ne by done. by exists b'.
        -- rewrite lookup_insert_eq. eexists. split; [done|]. simpl. by split_and!.
  - intros [= <- _]. by eapply store_position_consistent.
Qed.

Lemma applyDamage_consistent this id amount this' :
  consistent this -> applyDamage this id amount = inr this' -> consistent this'.
Proof.
  intros (Hfiled & Hnodup & Hstructs). unfold applyDamage.
  destruct (findRef this id) as [[l b]|] eqn:Hid; [|done]. intros [= <-].
  apply findRef_lookup in Hid as [Hid Hl]. split_and!; fields; [|done|].
  - intros id' l' Hid'. destruct (Hfiled id' l' Hid') as (b' & Hb' & <-).
    destruct (decide (l' = l)) as [->|].
    + rewrite lookup_insert_eq. eexists. split; [done|]. simpl. congruence.
    + rewrite lookup_insert_ne by done. by exists b'.
  - intros l' (b' & Hb' & Hunit & ? & ? & ?)%Hstructs.
    destruct (decide (l' = l)) as [->|].
    + rewrite lookup_insert_eq. eexists. split; [done|]. simpl.
      assert (b' = b) as -> by congruence. by split_and!.
    + rewrite lookup_insert_ne by done. by exists b'.
Qed.

Lemma markTerminated_consistent this id this' l :
  consistent this -> markTerminated this id = inr (this', l) -> consistent this'.
Proof.
  intros (Hfiled & Hnodup & Hstructs). unfold markTerminated.
  destruct (findRef this id) as [[l0 b]|] eqn:Hid; [|done]. intros [= <- _].
  split_and!; fields.
  - intros id' l' [_ Hid']%lookup_delete_Some. by apply Hfiled.
  - destruct (_ <? _); [by apply remove_structure_NoDup|done].
  - intros l' Hl'. apply Hstructs.
    destruct (_ <? _); [by eapply remove_structure_subset|done].
Qed.

Lemma after_consistent this c : consistent this -> consistent (after this c).
Proof.
  intros Hthis. destruct c as [id team unit tv|id x y turn tv|id amount|id]; simpl.
  - by apply initialSighting_consistent.
  - destruct (updatePosition _ _ _ _ _ _) as [e|[this' said]] eqn:Hcall; [done|].
    by eapply updatePosition_consistent.
  - destruct (applyDamage _ _ _) as [e|this'] eqn:Hcall; [done|].
    by eapply applyDamage_consistent.
  - destruct (markTerminated _ _) as [e|[this' l]] eqn:Hcall; [done|].
    by eapply markTerminated_consistent.
Qed.

(** X23: whatever calls of [initialSighting], [updatePosition],
    [applyDamage] and [markTerminated] are made on a new WorldKnowledge,
    throwing or not, the record filed under an id has that id, and the
    list of known structures holds each of its records once, every one
    the record of a structure (a unit type below 2) with a position and
    the turn of its last update. *)
Theorem WorldKnowledge_consistent logger (calls : list call) :
  consistent (foldl after (constructor logger) calls).
Proof.
  induction calls as [|c calls IH] using rev_ind.
  - split_and!; simpl; [by intros ? ? ?%lookup_empty_Some|constructor|].
    by intros ? ?%elem_of_nil.
  - rewrite foldl_snoc. by apply after_consistent.
Qed.

Lemma findRef_None this id : findRef this id = None <-> findById this id = None.
Proof. unfold findById. by destruct (findRef this id). Qed.

(** X24: [markTerminated] forgets a bot.  For an id that is not known it
    throws and changes nothing; for a known id it hands the record of
    the bot to the terminate callback, after which the id is not known
    any more while every other id is known as before.  The records
    themselves are left as they are.  The list of known structures is
    touched for a structure only, and then loses one entry whose record
    has the id, if it has such an entry. *)
Theorem markTerminated_forgets this id :
  (findById this id = None -> markTerminated this id = inl BotNotKnown) /\
  (forall l b, findRef this id = Some (l, b) ->
     exists this',
       markTerminated this id = inr (this', l) /\
       findById this' id = None /\
       (forall id', id' <> id -> findRef this' id' = findRef this id') /\
       objects this' = objects this /\
       (2 <= unit b -> _util_known_structures this' = _util_known_structures this) /\
       (unit b < 2 ->
        match
          list_find (fun l => (WorldKnowledge.id <$> objects this !! l) = Some id)
            (_util_known_structures this)
        with
        | Some (_, removed) =>
            _util_known_structures this ≡ₚ removed :: _util_known_structures this'
        | None => _util_known_structures this' = _util_known_structures this
        end)).
Proof.
  unfold markTerminated. split.
  - intros Hid%findRef_None. by rewrite Hid.
  - intros l b Hid. rewrite Hid. eexists. split; [done|]. split_and!; fields.
    + apply findRef_None. unfold findRef. fields. by rewrite lookup_delete_eq.
    + intros id' Hne. unfold findRef. fields. by rewrite lookup_delete_ne.
    + done.
    + intros Hunit. destruct (Z.ltb_spec (unit b) 2); [lia|done].
    + intros Hunit. destruct (Z.ltb_spec (unit b) 2); [|lia].
      apply remove_structure_items.
Qed.

Lemma markTerminated_forgets_witness :
  exists this',
    markTerminated castle_seen 7 = inr (this', 1%positive) /\
    findById this' 7 = None /\
    _util_known_structures castle_seen ≡ₚ 1%positive :: _util_known_structures this'.
Proof.
  destruct (proj2 (markTerminated_forgets castle_seen 7) 1%positive
              {| id := 7; team := 0; unit := 0; x := Some 1; y := Some 1;
                 posUpdateTurn := Some 5; damage := None |} eq_refl)
    as (this' & Hcall & Hforgotten & _ & _ & _ & Hstructs).
  exists this'. split; [done|]. split; [done|]. by apply Hstructs.
Defined.

(** X25: the first sighting of a bot makes it known.  For an id that is
    not known, [initialSighting] files a new record that holds the id,
    the team and the unit type and no position, turn or damage, and
    calls the first-sighting callback on it, logging nothing; the list
    of known structures is the same and, in a state as the class keeps
    it, every other id is known as before. *)
Theorem initialSighting_first this id team unit trueVision :
  findById this id = None ->
  exists this' l,
    initialSighting this id team unit trueVision = (this', [InitialSighting l]) /\
    objects this !! l = None /\
    findRef this' id = Some (l, fresh_record id team unit) /\
    _util_known_structures this' = _util_known_structures this /\
    (consistent this ->
     forall id', id' <> id -> findRef this' id' = findRef this id').
Proof.
  intros Hid. unfold initialSighting. cbv zeta. rewrite Hid.
  exists (register this id team unit).1, (fresh (dom (objects this))).
  split; [done|]. split_and!.
  - apply not_elem_of_dom, is_fresh.
  - apply findRef_register.
  - done.
  - intros (Hfiled & _) id' Hne. unfold findRef, register. fields.
    rewrite lookup_insert_ne by done.
    destruct (_util_known_bots this !! id') as [l'|] eqn:Hid'; [|done]. simpl.
    destruct (Hfiled id' l' Hid') as (b' & Hb' & _).
    rewrite lookup_insert_ne; [done|]. intros <-. by eapply fresh_location.
Qed.

Lemma initialSighting_first_witness :
  exists this' l,
    initialSighting castle_seen 9 1 2 None = (this', [InitialSighting l]) /\
    objects castle_seen !! l = None /\
    findRef this' 9 = Some (l, fresh_record 9 1 2) /\
    _util_known_structures this' = _util_known_structures castle_seen /\
    (consistent castle_seen ->
     forall id', id' <> 9 -> findRef this' id' = findRef castle_seen id').
Proof. apply initialSighting_first. reflexivity. Defined.

(** X26: a report that is newer is taken.  For a known bot whose stored
    turn, if any, is before the turn of the report, and which is not a
    structure, or is a structure without a position or with the very
    position reported, [updatePosition] stores the position and the turn
    in the record of the bot and logs nothing; team, unit type and
    damage stay.  A structure enters the list of known structures with
    its first position, at the end; otherwise the list is the same.  In
    a state as the class keeps it, every other id is known as before. *)
Theorem updatePosition_accepted this id l b x y turn trueVision :
  findRef this id = Some (l, b) ->
  outdated b turn = false ->
  2 <= unit b \/ WorldKnowledge.x b = None \/
    (WorldKnowledge.x b = Some x /\ WorldKnowledge.y b = Some y) ->
  exists this',
    updatePosition this id x y (Some turn) trueVision = inr (this', []) /\
    findRef this' id = Some (l, positioned b x y turn) /\
    _util_known_structures this' =
      (if bool_decide (unit b < 2 /\ WorldKnowledge.x b = None)
       then _util_known_structures this ++ [l]
       else _util_known_structures this) /\
    (consistent this ->
     forall id', id' <> id -> findRef this' id' = findRef this id').
Proof.
  intros Hid Hnew Hcase. unfold updatePosition. rewrite Hid, Hnew.
  assert (Hstored : forall this0,
            objects this0 = objects this ->
            _util_known_bots this0 = _util_known_bots this ->
            findRef (store_position this0 l b x y turn) id
              = Some (l, positioned b x y turn) /\
            (consistent this -> forall id', id' <> id ->
               findRef (store_position this0 l b x y turn) id' = findRef this id')).
  { intros this0 Hobjects Hbots. apply findRef_lookup in Hid as [Hid Hl].
    unfold findRef, store_position. fields. rewrite Hobjects, Hbots. split.
    - rewrite Hid. simpl. by rewrite lookup_insert_eq.
    - intros (Hfiled & _) id' Hne.
      destruct (_util_known_bots this !! id') as [l'|] eqn:Hid'; [|done]. simpl.
      rewrite lookup_insert_ne; [done|]. intros <-.
      destruct (Hfiled id l Hid) as (b1 & Hb1 & Hid1).
      destruct (Hfiled id' l Hid') as (b2 & Hb2 & Hid2). congruence. }
  destruct (Z.ltb_spec (unit b) 2) as [Hunit|Hunit].
  - destruct (WorldKnowledge.x b) as [bx|] eqn:Hx.
    + destruct Hcase as [?|[?|[[= ->] Hy]]]; [lia|done|].
      rewrite bool_decide_eq_false_2 by (intros [?|?]; congruence).
      eexists. split; [done|]. destruct (Hstored this eq_refl eq_refl).
      split_and!; try done.
      rewrite bool_decide_eq_false_2; [done|]. by intros [_ ?].
    + eexists. split; [done|].
      destruct (Hstored (push_structure this l) eq_refl eq_refl).
      split_and!; try done. by rewrite bool_decide_eq_true_2.
  - eexists. split; [done|]. destruct (Hstored this eq_refl eq_refl).
    split_and!; try done. rewrite bool_decide_eq_false_2; [done|]. lia.
Qed.

Lemma updatePosition_accepted_witness :
  exists this',
    updatePosition castle_seen 7 1 1 (Some 6) None = inr (this', []) /\
    findRef this' 7 =
      Some (1%positive,
            positioned {| id := 7; team := 0; unit := 0; x := Some 1; y := Some 1;
                          posUpdateTurn := Some 5; damage := None |} 1 1 6) /\
    _util_known_structures this' = _util_known_structures castle_seen.
Proof.
  destruct (updatePosition_accepted castle_seen 7 1%positive
              {| id := 7; team := 0; unit := 0; x := Some 1; y := Some 1;
                 posUpdateTurn := Some 5; damage := None |} 1 1 6 None)
    as (this' & Hcall & Hid & Hstructs & _);
    [reflexivity|reflexivity|right; right; split; reflexivity|].
  exists this'. split; [done|]. split; [done|]. exact Hstructs.
Defined.

End KnowledgeFacts.

(** ** What the search reaches *)

Module ReachFacts.

Import PriorityQueue PathFinder PathFinderFacts Reach.

Section search.

Variable FUEL_PER_MOVE : Z -> Z.
Variable this : robot.
Variable mappingMode : bool.
Variable goals : list cell.
Variable tvmap : grid bool.
Variable deltaActions : list (Z * Z).
Variable fuelFactor timeFactor : Z.
Variable start : cell.

Local Abbreviation legal_move := (legal_move this deltaActions tvmap).
Local Abbreviation legal_route := (legal_route this deltaActions tvmap).
Local Abbreviation reachable := (reachable this deltaActions tvmap start).
Local Abbreviation invariant := (search_invariant this deltaActions tvmap start).
Local Abbreviation covering :=
  (search_covering this deltaActions tvmap mappingMode goals start).
Local Abbreviation visit :=
  (visit FUEL_PER_MOVE this mappingMode goals tvmap fuelFactor timeFactor).
Local Abbreviation search_loop :=
  (search_loop FUEL_PER_MOVE this mappingMode goals tvmap deltaActions fuelFactor
     timeFactor).

Lemma scored_put g c c' cost :
  map_shaped this g -> on_map this c -> on_map this c' ->
  scored (put g c (Cost cost)) c' <-> c' = c \/ scored g c'.
Proof.
  intros Hg Hc Hc'. unfold scored.
  destruct (decide (c' = c)) as [->|Hne].
  - rewrite at_put_eq by (by eapply at_shaped). split; [by left|]. by exists cost.
  - destruct Hc, Hc'. rewrite at_put_ne by (lia || done).
    split; [by right|]. by intros [?|?].
Qed.

(** One round of the inner loop: the scores that were given stay, the
    items that waited still wait, a new score comes with a new item, and
    the tile looked at, if it is passable, is closed or has a score. *)
Lemma visit_scores current closedSet f g action f' g' :
  map_shaped this g -> on_map this current -> scored g current ->
  visit current closedSet (f, g) action = (f', g') ->
  map_shaped this g' /\
  (forall c, on_map this c -> scored g c -> scored g' c) /\
  (forall it, it ∈ f -> it ∈ f') /\
  (forall c, on_map this c -> scored g' c ->
     scored g c \/ exists it, it ∈ f' /\ elem it = c) /\
  (forall it, it ∈ f' -> it ∈ f \/ on_map this (elem it) /\ scored g' (elem it)) /\
  (let new := (current.1 + action.1, current.2 + action.2) in
   truelyPassableAbsolute this new (Some tvmap) = true ->
   default false (at_ closedSet new) = true \/ scored g' new).
Proof.
  intros Hg Hcur [gcur Hgcur]. unfold PathFinder.visit. cbv zeta.
  set (new := (current.1 + action.1, current.2 + action.2)).
  assert (Hsame : (f, g) = (f', g') ->
    map_shaped this g' /\
    (forall c, on_map this c -> scored g c -> scored g' c) /\
    (forall it, it ∈ f -> it ∈ f') /\
    (forall c, on_map this c -> scored g' c ->
       scored g c \/ exists it, it ∈ f' /\ elem it = c) /\
    (forall it, it ∈ f' -> it ∈ f \/ on_map this (elem it) /\ scored g' (elem it))).
  { intros [= <- <-]. split_and!; try done; [by left|by left]. }
  destruct (truelyPassableAbsolute this new (Some tvmap)) eqn:Hpass; cbn [negb].
  2:{ intros Heq. destruct (Hsame Heq) as (? & ? & ? & ? & ?). by split_and!. }
  pose proof (truelyPassableAbsolute_on_map _ _ _ Hpass) as Hnew.
  destruct (default false (at_ closedSet new)) eqn:Hclosed.
  { intros Heq. destruct (Hsame Heq) as (? & ? & ? & ? & ?). split_and!; try done.
    intros _. by left. }
  rewrite Hgcur. cbn [default from_option id].
  destruct (at_shaped this g new Hg Hnew) as [old Hold]. rewrite Hold.
  cbn [default from_option id].
  assert (Hput : forall t,
    (enqueue by_cost f
       {| cost := t + (if mappingMode then 0 else heuristic goals new);
          elem := new; came_from := Some current |},
     put g new (Cost t)) = (f', g') ->
    map_shaped this g' /\
    (forall c, on_map this c -> scored g c -> scored g' c) /\
    (forall it, it ∈ f -> it ∈ f') /\
    (forall c, on_map this c -> scored g' c ->
       scored g c \/ exists it, it ∈ f' /\ elem it = c) /\
    (forall it, it ∈ f' -> it ∈ f \/ on_map this (elem it) /\ scored g' (elem it)) /\
    (true = true -> false = true \/ scored g' new)).
  { intros t [= <- <-]. split_and!.
    - by apply put_shaped.
    - intros c Hc Hs. apply scored_put; [done..|]. by right.
    - intros it Hit. rewrite PriorityQueueFacts.enqueue_Permutation. by right.
    - intros c Hc Hs.
      apply (scored_put g new c t Hg Hnew Hc) in Hs as [->|Hs]; [right|by left].
      exists {| cost := t + (if mappingMode then 0 else heuristic goals new);
                elem := new; came_from := Some current |}.
      split; [|done]. rewrite PriorityQueueFacts.enqueue_Permutation. by left.
    - intros it Hit. rewrite PriorityQueueFacts.enqueue_Permutation in Hit.
      apply elem_of_cons in Hit as [->|Hit]; [right|by left].
      split; [done|]. apply scored_put; [done..|]. by left.
    - intros _. right. apply scored_put; [done..|]. by left. }
  destruct old as [old|].
  - match goal with
    | |- context [if ?a <? old then _ else _] => destruct (a <? old)
    end.
    + apply Hput.
    + intros Heq. destruct (Hsame Heq) as (? & ? & ? & ? & ?). split_and!; try done.
      intros _. right. exists old. by injection Heq as <- <-.
  - apply Hput.
Qed.

Lemma visit_fold_scores current closedSet actions : forall f g f' g',
  map_shaped this g -> on_map this current -> scored g current ->
  foldl (visit current closedSet) (f, g) actions = (f', g') ->
  map_shaped this g' /\
  (forall c, on_map this c -> scored g c -> scored g' c) /\
  (forall it, it ∈ f -> it ∈ f') /\
  (forall c, on_map this c -> scored g' c ->
     scored g c \/ exists it, it ∈ f' /\ elem it = c) /\
  (forall it, it ∈ f' -> it ∈ f \/ on_map this (elem it) /\ scored g' (elem it)) /\
  (forall action, action ∈ actions ->
   let new := (current.1 + action.1, current.2 + action.2) in
   truelyPassableAbsolute this new (Some tvmap) = true ->
   default false (at_ closedSet new) = true \/ scored g' new).
Proof.
  induction actions as [|action actions IH]; intros f g f' g' Hg Hcur Hscored;
    cbn [foldl].
  { intros [= <- <-]. split_and!; try done; [by left|by left|].
    by intros a Ha%elem_of_nil. }
  destruct (visit current closedSet (f, g) action) as [f1 g1] eqn:Hvisit.
  intros Hfold.
  apply visit_scores in Hvisit as (Hg1 & Hkeep1 & Hwait1 & Hnew1 & Hitems1 & Hlook1);
    [|done..].
  apply IH in Hfold as (Hg' & Hkeep & Hwait & Hnew & Hitems & Hlook);
    [|done|done|by apply Hkeep1].
  split_and!.
  - done.
  - intros c Hc Hs. by apply Hkeep, Hkeep1.
  - intros it Hit. by apply Hwait, Hwait1.
  - intros c Hc Hs. destruct (Hnew c Hc Hs) as [Hs1|Hit]; [|by right].
    destruct (Hnew1 c Hc Hs1) as [Hs0|(it & Hit & Helem)]; [by left|].
    right. exists it. split; [by apply Hwait|done].
  - intros it Hit. destruct (Hitems it Hit) as [Hit1|Hs]; [|by right].
    destruct (Hitems1 it Hit1) as [Hit0|[Hon Hs]]; [by left|right].
    split; [done|]. by apply Hkeep.
  - intros a Ha. cbv zeta. intros Hpass. apply elem_of_cons in Ha as [->|Ha].
    + destruct (Hlook1 Hpass) as [?|Hs]; [by left|right].
      apply Hkeep; [by eapply truelyPassableAbsolute_on_map|done].
    + by apply Hlook.
Qed.

Lemma legal_route_last (P : cell -> Prop) cells :
  (forall a b, P a -> legal_move a b -> P b) ->
  forall a c, head cells = Some a -> P a -> legal_route cells ->
    last cells = Some c -> P c.
Proof.
  intros Hclosed. induction cells as [|x [|y rest] IH]; intros a c Hhead Ha Hroute Hlast;
    [done|..].
  - injection Hhead as ->. by injection Hlast as <-.
  - injection Hhead as ->. destruct Hroute as [Hmove Hroute].
    apply (IH y c); [done|by eapply Hclosed|done|done].
Qed.

Lemma onTarget_away current : onTarget goals current = false -> current ∉ goals.
Proof.
  unfold onTarget. intros Hnone Hin.
  apply (proj1 (existsb_false _ _) Hnone) in Hin. by rewrite !Z.eqb_refl in Hin.
Qed.

(** What the loop returns at its end tells what can be reached: [null]
    that no target can, the scores which tiles can. *)
Lemma search_loop_covers rounds : forall order st r,
  on_map this start ->
  invariant order st -> covering order st ->
  search_loop rounds st = Some r ->
  match r with
  | path _ => True
  | null => mappingMode = false /\ forall c, reachable c -> c ∉ goals
  | scores gScore =>
      mappingMode = true /\
      forall c, on_map this c -> scored gScore c <-> reachable c
  end.
Proof.
  induction rounds as [|rounds IH]; intros order st r Hstart Hinv Hcov; [done|].
  cbn [PathFinder.search_loop].
  destruct (frontier st) as [|current rest] eqn:Hfrontier.
  { (* the frontier is empty: every tile with a score is closed *)
    pose proof Hinv as (Hclosed & Hcame & Hnodup & Hon & Hiff & Hroutes & Hitems).
    pose proof Hcov as (Hg & Hs0 & Hscored & Hcl & Hfr & Hnext & Hgoal).
    rewrite Hfrontier in Hscored. simpl.
    assert (Hall : forall c, on_map this c -> scored (gScore st) c -> c ∈ order).
    { intros c Hc Hs. destruct (Hscored c Hc Hs) as [?|(it & Hit & _)]; [done|].
      by apply elem_of_nil in Hit. }
    assert (Hreach : forall c, reachable c -> c ∈ order).
    { intros c (cells & Hhead & Hlast & Hroute).
      apply (legal_route_last (fun c => c ∈ order) cells) with start;
        [|done|by apply Hall|done|done].
      intros a b Ha Hmove. apply Hall; [|by eapply Hnext].
      eapply truelyPassableAbsolute_on_map, Hmove. }
    destruct mappingMode eqn:Hmode; intros [= <-]; (split; [done|]).
    - intros c Hc. split.
      + intros Hs. destruct (Hroutes c (Hall c Hc Hs)) as (ret & Hret & _).
        destruct (came_along_route _ _ _ _ _ _ _ Hret) as (Hhead & Hlast & Hroute).
        exists (reverse ret). split_and!; [by rewrite head_reverse| |done].
        by rewrite last_reverse.
      + intros Hc'. by apply Hcl, Hreach.
    - intros c Hc. by apply Hgoal, Hreach. }
  cbn [count length Nat.eqb].
  destruct (PriorityQueueFacts.dequeue_cons_Permutation by_cost current rest)
    as (frontier' & -> & Hperm).
  pose proof Hinv as (Hclosed & Hcame & Hnodup & Hon & Hiff & Hroutes & Hitems).
  pose proof Hcov as (Hg & Hs0 & Hscored & Hcl & Hfr & Hnext & Hgoal).
  assert (Hcur : current ∈ frontier st) by (rewrite Hfrontier; by left).
  destruct (Hitems _ Hcur) as [Hcmap Hcfrom].
  assert (Hitems' : forall it, it ∈ frontier' -> it ∈ frontier st).
  { intros it Hit. rewrite Hfrontier. right. by rewrite Hperm. }
  assert (Hwaits : forall it, it ∈ frontier st -> it = current \/ it ∈ frontier').
  { intros it Hit. rewrite Hfrontier in Hit.
    apply elem_of_cons in Hit as [->|Hit]; [by left|right]. by rewrite <- Hperm. }
  destruct (at_shaped this (closedSet st) (elem current) Hclosed Hcmap) as [b Hb].
  rewrite Hb. cbn [default from_option id]. destruct b.
  { (* already closed: the item is dropped *)
    apply (IH order); [done| |].
    - unfold search_invariant. simpl. split_and!; try done.
      intros it Hit. by apply Hitems, Hitems'.
    - unfold search_covering. simpl. split_and!; try done.
      + intros c Hc Hs. destruct (Hscored c Hc Hs) as [?|(it & Hit & <-)]; [by left|].
        destruct (Hwaits it Hit) as [->|Hit']; [left|right; by exists it].
        by apply Hiff.
      + intros it Hit. by apply Hfr, Hitems'. }
  assert (Hopen : at_ (closedSet st) (elem current) ≠ Some true) by by rewrite Hb.
  assert (Hnew : elem current ∉ order) by (by rewrite <- Hiff).
  destruct (negb mappingMode && onTarget goals (elem current)) eqn:Htarget.
  { (* on a target: a path is returned *)
    destruct (reconstruct _ _ _ _); [|done]. by intros [= <-]. }
  (* the neighbours are visited *)
  destruct (foldl _ _ deltaActions) as [frontier'' gScore'] eqn:Hfold.
  pose proof Hfold as Hfold'.
  apply (visit_fold _ _ _ _ _ deltaActions) in Hfold' as [_ Hin]; [|done].
  apply visit_fold_scores in Hfold
    as (Hg' & Hkeep & Hwait & Hfresh & Hitems'' & Hlook);
    [|done|done|by apply Hfr].
  assert (Hinv' :
    invariant (elem current :: order)
      {| frontier := frontier'';
         closedSet := put (closedSet st) (elem current) true;
         cameFrom := put (cameFrom st) (elem current) (came_from current);
         gScore := gScore' |}).
  { apply invariant_close; [done..|].
    intros it [Hit|[Hfrom Hmove]]%Hin.
    + destruct (Hitems _ (Hitems' _ Hit)) as [Hmap Hfrom]. split; [done|].
      destruct (came_from it); [|done]. destruct Hfrom. split; [by right|done].
    + split; [by eapply truelyPassableAbsolute_on_map, Hmove|].
      rewrite Hfrom. split; [by left|done]. }
  apply (IH (elem current :: order)); [done|done|].
  pose proof Hinv' as (_ & _ & _ & Hon' & Hiff' & _ & _).
  assert (Hcl' : forall c, c ∈ elem current :: order -> scored gScore' c).
  { intros c Hc. apply Hkeep; [by eapply Forall_forall in Hon'|].
    apply elem_of_cons in Hc as [->|Hc]; [by apply Hfr|by apply Hcl]. }
  unfold search_covering. cbn [gScore frontier]. split_and!.
  - done.
  - by apply Hkeep.
  - intros c Hc Hs. destruct (Hfresh c Hc Hs) as [Hs'|?]; [|by right].
    destruct (Hscored c Hc Hs') as [?|(it & Hit & <-)]; [left; by right|].
    destruct (Hwaits it Hit) as [->|Hit']; [left; by left|right].
    exists it. split; [by apply Hwait|done].
  - done.
  - intros it Hit. destruct (Hitems'' it Hit) as [Hit'|[_ Hs]]; [|done].
    apply Hkeep; [by apply Hitems, Hitems'|by apply Hfr, Hitems'].
  - intros c n Hc Hmove. apply elem_of_cons in Hc as [->|Hc].
    + destruct Hmove as [(action & Haction & ->) Hpass].
      destruct (Hlook action Haction Hpass) as [Hclosed'|Hs]; [|done].
      apply Hcl', Hiff'; [by eapply truelyPassableAbsolute_on_map|].
      cbn [closedSet].
      by destruct (at_ (put (closedSet st) (elem current) true) _) as [[|]|].
    + apply Hkeep; [eapply truelyPassableAbsolute_on_map, Hmove|by eapply Hnext].
  - intros Hmode c Hc. apply elem_of_cons in Hc as [->|Hc]; [|by apply Hgoal].
    rewrite Hmode in Htarget. by apply onTarget_away.
Qed.

End search.

(** *** [findPath] *)

(** The search begins covered: the start alone has a score and waits in
    the frontier. *)
Lemma findPath_covering this deltaActions tvmap mappingMode goals start :
  on_map this start ->
  let rows := length (map this) in
  let cols := length (default [] (map this !! 0%nat)) in
  search_covering this deltaActions tvmap mappingMode goals start []
    {| frontier :=
         enqueue by_cost (constructor (A := item))
           {| cost := 0; elem := start; came_from := None |};
       closedSet := filled2D rows cols false;
       cameFrom := filled2D rows cols None;
       gScore := put (filled2D rows cols Infinity) start (Cost 0) |}.
Proof.
  intros Hstart rows cols. unfold search_covering. cbn [gScore frontier].
  pose proof (filled2D_shaped this Infinity) as Hshaped.
  assert (Hscores : forall c, on_map this c ->
            scored (put (filled2D rows cols Infinity) start (Cost 0)) c -> c = start).
  { intros c Hc Hs.
    apply (scored_put this _ start c 0 Hshaped Hstart Hc) in Hs as [?|[g Hg]]; [done|].
    by apply at_filled2D in Hg. }
  split_and!.
  - by apply put_shaped.
  - apply (proj2 (scored_put this _ start start 0 Hshaped Hstart Hstart)). by left.
  - intros c Hc Hs. apply Hscores in Hs as ->; [|done]. right.
    exists {| cost := 0; elem := start; came_from := None |}. split; [|done].
    rewrite PriorityQueueFacts.enqueue_Permutation. by left.
  - by intros c ?%elem_of_nil.
  - intros it Hit. rewrite PriorityQueueFacts.enqueue_Permutation in Hit.
    apply list_elem_of_singleton in Hit as ->.
    apply (proj2 (scored_put this _ start start 0 Hshaped Hstart Hstart)). by left.
  - by intros c n ?%elem_of_nil.
  - by intros _ c ?%elem_of_nil.
Qed.

Lemma findPath_invariant this deltaActions tvmap start :
  on_map this start ->
  let rows := length (map this) in
  let cols := length (default [] (map this !! 0%nat)) in
  search_invariant this deltaActions tvmap start []
    {| frontier :=
         enqueue by_cost (constructor (A := item))
           {| cost := 0; elem := start; came_from := None |};
       closedSet := filled2D rows cols false;
       cameFrom := filled2D rows cols None;
       gScore := put (filled2D rows cols Infinity) start (Cost 0) |}.
Proof.
  intros Hstart rows cols. unfold search_invariant. cbn [closedSet cameFrom frontier].
  split_and!; try apply filled2D_shaped; try by constructor.
  - intros c Hc. split; [|by intros ?%elem_of_nil]. by intros ?%at_filled2D.
  - by intros c ?%elem_of_nil.
  - intros it Hit. rewrite PriorityQueueFacts.enqueue_Permutation in Hit.
    apply list_elem_of_singleton in Hit as ->. by split.
Qed.

(** What [findPath] returns tells what can be reached, in either mode
    and whatever the rounds. *)
Lemma findPath_covers listPossibleMoves FUEL_PER_MOVE this targets_ mode
  start flags rounds r :
  let flags' := default no_flags flags in
  let mappingMode := default false (flags_map flags') in
  let start' := default (x (me this), y (me this)) start in
  let tvmap :=
    if mappingMode then map this
    else default (trueVisionPassableMap this) (flags_tvmap flags') in
  let deltaActions := listPossibleMoves (mover this flags') in
  on_map this start' ->
  findPath listPossibleMoves FUEL_PER_MOVE this rounds targets_ mode start flags
  = Some (returns r) ->
  match r with
  | path _ => True
  | null =>
      forall cells,
        route_to this deltaActions tvmap start' (goals_of targets_) cells ->
        cells = [start']
  | scores gScore =>
      forall c, on_map this c ->
        scored gScore c <-> reachable this deltaActions tvmap start' c
  end.
Proof.
  intros flags' mappingMode start' tvmap deltaActions Hstart.
  unfold findPath. cbv zeta. fold flags' mappingMode start'.
  set (factors := if default 0 mode =? 0 then (10, 1) else (1, 10)).
  destruct factors as [fuelFactor timeFactor] eqn:Hfactors.
  destruct (if mappingMode then Some [] else _) as [goals|] eqn:Hpromote; [|done].
  fold tvmap.
  destruct (negb (existsb _ goals) && negb mappingMode) eqn:Hexit.
  { (* no target is passable *)
    apply andb_true_iff in Hexit as [Hnone%negb_true_iff Hmode%negb_true_iff].
    intros [= <-]. rewrite Hmode in Hpromote.
    assert (goals = goals_of targets_) as ->.
    { destruct targets_ as [tx ty|[|t ts]]; simpl; congruence. }
    intros cells (Hhead & (goal & Hlast & Hgoal) & Hroute).
    apply (proj1 (existsb_false _ _) Hnone) in Hgoal.
    destruct cells as [|first [|next rest]]; [done|by injection Hhead as ->|].
    exfalso.
    assert (Hpassable : forall cells first,
      legal_route this deltaActions tvmap (first :: cells) ->
      cells <> [] -> last (first :: cells) = Some goal ->
      truelyPassableAbsolute this goal (Some tvmap) = true).
    { clear. induction cells as [|next [|after cells] IH]; intros first Hroute Hne Hlast;
        [done|..].
      - injection Hlast as <-. by destruct Hroute as [[_ ?] _].
      - destruct Hroute as [_ Hroute]. by apply (IH next). }
    rewrite (Hpassable (next :: rest) first Hroute) in Hgoal; done. }
  fold (mover this flags'). fold deltaActions.
  destruct (PathFinder.search_loop _ _ _ _ _ _ _ _ _ _) as [r'|] eqn:Hloop; [|done].
  intros [= ->].
  apply (search_loop_covers _ _ _ _ _ _ _ _ start' _ []) in Hloop;
    [|done|by apply findPath_invariant|by apply findPath_covering].
  destruct r as [cells| |gScore]; [done| |by destruct Hloop].
  destruct Hloop as [Hmode Hloop]. rewrite Hmode in Hpromote.
  assert (goals = goals_of targets_) as ->.
  { destruct targets_ as [tx ty|[|t ts]]; simpl; congruence. }
  intros cells (Hhead & (goal & Hlast & Hgoal) & Hroute).
  destruct (Hloop goal); [|done]. by exists cells.
Qed.

(** Given enough rounds [findPath] returns, and returns what is expected
    of the mode it is run in. *)
Lemma findPath_expected listPossibleMoves FUEL_PER_MOVE this targets_ mode
  start flags rounds :
  let flags' := default no_flags flags in
  let mappingMode := default false (flags_map flags') in
  let start' := default (x (me this), y (me this)) start in
  let tvmap :=
    if mappingMode then map this
    else default (trueVisionPassableMap this) (flags_tvmap flags') in
  let deltaActions := listPossibleMoves (mover this flags') in
  let goals := if mappingMode then [] else goals_of targets_ in
  on_map this start' ->
  mappingMode = true \/ goals_of targets_ ≠ [] ->
  (enough_rounds this deltaActions <= rounds)%nat ->
  exists r,
    findPath listPossibleMoves FUEL_PER_MOVE this rounds targets_ mode start flags
    = Some (returns r) /\
    expected this deltaActions tvmap mappingMode start' goals r.
Proof.
  intros flags' mappingMode start' tvmap deltaActions goals Hstart Hgoals Hrounds.
  unfold findPath. cbv zeta. fold flags' mappingMode start'.
  assert (Hpromote :
    (if mappingMode then Some []
     else match targets_ with
          | target x y => Some [(x, y)]
          | targets [] => None
          | targets ts => Some ts
          end) = Some goals).
  { subst goals. destruct mappingMode; [done|].
    destruct Hgoals as [?|Hgoals]; [done|].
    destruct targets_ as [tx ty|[|t ts]]; [done|by destruct Hgoals|done]. }
  rewrite Hpromote. fold tvmap.
  set (factors := if default 0 mode =? 0 then (10, 1) else (1, 10)).
  destruct factors as [fuelFactor timeFactor] eqn:Hfactors.
  destruct (negb (existsb _ goals) && negb mappingMode) eqn:Hexit.
  { apply andb_true_iff in Hexit as [_ Hmode%negb_true_iff].
    exists null. by split. }
  fold (mover this flags'). fold deltaActions.
  match goal with
  | |- context [PathFinder.search_loop _ _ _ _ _ _ _ _ _ ?s] => set (st := s)
  end.
  destruct (search_loop_expected FUEL_PER_MOVE this mappingMode goals tvmap
              deltaActions fuelFactor timeFactor start' rounds [] st)
    as (r & Hr & Hexp).
  - by apply findPath_invariant.
  - subst st. cbn [frontier]. rewrite PriorityQueueFacts.enqueue_length.
    unfold enough_rounds in Hrounds. simpl. lia.
  - rewrite Hr. by exists r.
Qed.



(** X30: in the mapping mode [findPath] maps what can be reached.  From
    a start on the map and given enough rounds it returns the scores, and
    a tile of the map has a score, not [Infinity], exactly when legal
    moves over the terrain lead to it from the start, the start itself
    included. *)
Theorem findPath_maps listPossibleMoves FUEL_PER_MOVE this targets_ mode start
  flags rounds :
  let flags' := default no_flags flags in
  let start' := default (x (me this), y (me this)) start in
  let deltaActions := listPossibleMoves (mover this flags') in
  default false (flags_map flags') = true ->
  on_map this start' ->
  (enough_rounds this deltaActions <= rounds)%nat ->
  exists gScore,
    findPath listPossibleMoves FUEL_PER_MOVE this rounds targets_ mode start flags
    = Some (returns (scores gScore)) /\
    forall c, on_map this c ->
      scored gScore c <-> reachable this deltaActions (map this) start' c.
Proof.
  intros flags' start' deltaActions Hmode Hstart Hrounds.
  pose proof (findPath_expected listPossibleMoves FUEL_PER_MOVE this targets_ mode
                start flags rounds) as Hexpected.
  pose proof (findPath_covers listPossibleMoves FUEL_PER_MOVE this targets_ mode
                start flags rounds) as Hcovers.
  cbv zeta in Hexpected, Hcovers. fold flags' start' in Hexpected, Hcovers.
  rewrite Hmode in Hexpected, Hcovers. fold deltaActions in Hexpected, Hcovers.
  destruct (Hexpected Hstart (or_introl eq_refl) Hrounds) as (r & Hr & Hexp).
  specialize (Hcovers r Hstart Hr).
  destruct r as [cells| |gScore]; [by destruct Hexp|done|].
  by exists gScore.
Qed.

Lemma findPath_maps_witness :
  exists gScore,
    findPath rook_moves one_fuel open_field 100 (targets []) None None
      (Some {| flags_map := Some true; flags_unit := None; flags_tvmap := None |})
    = Some (returns (scores gScore)) /\
    forall c, on_map open_field c ->
      scored gScore c <-> reachable open_field (rook_moves 2) (map open_field) (0, 0) c.
Proof.
  apply (findPath_maps rook_moves one_fuel open_field (targets []) None None
           (Some {| flags_map := Some true; flags_unit := None; flags_tvmap := None |})
           100%nat).
  - reflexivity.
  - by vm_compute.
  - vm_compute. lia.
Defined.

End ReachFacts.

(** ** What the path costs *)

Module CheapestFacts.

Import PriorityQueue PathFinder PathFinderFacts Reach ReachFacts Cheapest.

(** *** The heuristic *)

Lemma heuristic_loop targets pos :
  match
    foldl (fun best t =>
             let score := Z.abs (pos.1 - t.1) + Z.abs (pos.2 - t.2) in
             match best with
             | Infinity => Cost score
             | Cost b => if score <? b then Cost score else best
             end)
          Infinity targets
  with
  | Infinity => targets = []
  | Cost b =>
      (exists t, t ∈ targets /\ b = Z.abs (pos.1 - t.1) + Z.abs (pos.2 - t.2)) /\
      forall t, t ∈ targets -> b <= Z.abs (pos.1 - t.1) + Z.abs (pos.2 - t.2)
  end.
Proof.
  induction targets as [|t targets IH] using rev_ind; [done|].
  rewrite foldl_snoc. cbv zeta.
  destruct (foldl _ _ targets) as [b|].
  - destruct IH as [(t0 & Ht0 & Hb) Hleast].
    destruct (Z.ltb_spec (Z.abs (pos.1 - t.1) + Z.abs (pos.2 - t.2)) b).
    + split.
      * exists t. split; [|done]. apply elem_of_app. right. by left.
      * intros t' [Ht'|Ht']%elem_of_app.
        -- specialize (Hleast t' Ht'). lia.
        -- apply list_elem_of_singleton in Ht' as ->. lia.
    + split.
      * exists t0. split; [|done]. apply elem_of_app. by left.
      * intros t' [Ht'|Ht']%elem_of_app; [by apply Hleast|].
        apply list_elem_of_singleton in Ht' as ->. lia.
  - subst targets. split.
    + exists t. split; [|done]. by left.
    + intros t' Ht'. by apply list_elem_of_singleton in Ht' as ->.
Qed.

Lemma estimate_consistent mappingMode goals a b :
  estimate mappingMode goals a
  <= Z.abs (b.1 - a.1) + Z.abs (b.2 - a.2) + estimate mappingMode goals b.
Proof.
  unfold estimate, heuristic. destruct mappingMode; [lia|].
  destruct goals as [|goal goals]; [simpl; lia|].
  pose proof (heuristic_loop (goal :: goals) a) as Ha.
  pose proof (heuristic_loop (goal :: goals) b) as Hb.
  destruct (foldl _ Infinity (goal :: goals)) as [ha|]; [|done].
  destruct (foldl _ Infinity (goal :: goals)) as [hb|]; [|done].
  destruct Hb as [(t & Ht & ->) _]. destruct Ha as [_ Ha]. specialize (Ha t Ht). lia.
Qed.

Lemma estimate_goal goals c : c ∈ goals -> estimate false goals c = 0.
Proof.
  intros Hc. unfold estimate, heuristic.
  pose proof (heuristic_loop goals c) as Hloop.
  destruct (foldl _ _ goals) as [h|]; [|done].
  destruct Hloop as [(t & _ & ->) Hleast]. specialize (Hleast c Hc). lia.
Qed.

(** A move costs its length at least, when the unit pays for its moves. *)
Lemma step_cost_length FUEL_PER_MOVE this mode a b :
  1 <= FUEL_PER_MOVE (unit (me this)) ->
  Z.abs (b.1 - a.1) + Z.abs (b.2 - a.2)
  <= step_cost FUEL_PER_MOVE this (factors mode).1 (factors mode).2 a b.
Proof.
  intros Hfuel. unfold step_cost, factors. cbv zeta. cbn [fst snd].
  set (dx := b.1 - a.1). set (dy := b.2 - a.2).
  assert (Z.abs dx <= dx * dx) by nia. assert (Z.abs dy <= dy * dy) by nia.
  destruct (default 0 mode =? 0); cbn [fst snd]; nia.
Qed.

Lemma step_cost_nonneg FUEL_PER_MOVE this mode a b :
  0 <= FUEL_PER_MOVE (unit (me this)) ->
  0 <= step_cost FUEL_PER_MOVE this (factors mode).1 (factors mode).2 a b.
Proof.
  intros Hfuel. unfold step_cost, factors. cbv zeta. cbn [fst snd].
  set (dx := b.1 - a.1). set (dy := b.2 - a.2).
  destruct (default 0 mode =? 0); cbn [fst snd]; nia.
Qed.

(** The comparator of the frontier orders its items. *)
Lemma by_cost_trans x y z : by_cost x y <= 0 -> by_cost y z <= 0 -> by_cost x z <= 0.
Proof. unfold by_cost. lia. Qed.

Lemma by_cost_total x y : 0 <= by_cost x y -> by_cost y x <= 0.
Proof. unfold by_cost. lia. Qed.

(** *** The search *)

Section search.

Variable FUEL_PER_MOVE : Z -> Z.
Variable this : robot.
Variable mappingMode : bool.
Variable goals : list cell.
Variable tvmap : grid bool.
Variable deltaActions : list (Z * Z).
Variable fuelFactor timeFactor : Z.
Variable start : cell.

Local Abbreviation H := (estimate mappingMode goals).
Local Abbreviation step_cost := (step_cost FUEL_PER_MOVE this fuelFactor timeFactor).
Local Abbreviation route_cost := (route_cost FUEL_PER_MOVE this fuelFactor timeFactor).
Local Abbreviation legal_move := (legal_move this deltaActions tvmap).
Local Abbreviation legal_route := (legal_route this deltaActions tvmap).
Local Abbreviation came_along := (came_along this deltaActions tvmap).
Local Abbreviation invariant := (search_invariant this deltaActions tvmap start).
Local Abbreviation optimal :=
  (search_optimal FUEL_PER_MOVE this mappingMode goals tvmap deltaActions fuelFactor
     timeFactor start).
Local Abbreviation visit :=
  (visit FUEL_PER_MOVE this mappingMode goals tvmap fuelFactor timeFactor).
Local Abbreviation search_loop :=
  (search_loop FUEL_PER_MOVE this mappingMode goals tvmap deltaActions fuelFactor
     timeFactor).
Local Abbreviation closed := (fun closedSet c => default false (at_ closedSet c) = true).

(** The estimate is consistent with the costs of the moves, and is 0 on
    a target. *)
Hypothesis consistent : forall a b, H a <= step_cost a b + H b.
Hypothesis goal_estimate : mappingMode = false -> forall c, c ∈ goals -> H c = 0.

Lemma route_consistent cells : forall a t,
  head cells = Some a -> last cells = Some t -> H a <= route_cost cells + H t.
Proof.
  induction cells as [|x [|y rest] IH]; intros a t Hhead Hlast; [done|..].
  - injection Hhead as ->. injection Hlast as ->. simpl. lia.
  - injection Hhead as ->. specialize (IH y t eq_refl Hlast).
    change (route_cost (a :: y :: rest)) with (step_cost a y + route_cost (y :: rest)).
    pose proof (consistent a y). lia.
Qed.

Lemma route_cost_snoc cells p c :
  last cells = Some p -> route_cost (cells ++ [c]) = route_cost cells + step_cost p c.
Proof.
  induction cells as [|x [|y rest] IH]; intros Hlast; [done|..].
  - injection Hlast as ->. simpl. lia.
  - change (route_cost ((x :: y :: rest) ++ [c]))
      with (step_cost x y + route_cost ((y :: rest) ++ [c])).
    change (route_cost (x :: y :: rest)) with (step_cost x y + route_cost (y :: rest)).
    rewrite IH by done. lia.
Qed.

Lemma step_cost_action current action :
  step_cost current (current.1 + action.1, current.2 + action.2)
  = FUEL_PER_MOVE (unit (me this)) * (action.1 * action.1 + action.2 * action.2)
    * fuelFactor + 1 * timeFactor.
Proof.
  unfold Cheapest.step_cost. cbv zeta. cbn [fst snd].
  replace (current.1 + action.1 - current.1) with action.1 by lia.
  by replace (current.2 + action.2 - current.2) with action.2 by lia.
Qed.

(** The loop that rebuilds the path gives the way [cameFrom] records. *)
Lemma reconstruct_unique cameFrom c ret :
  came_along cameFrom start c ret ->
  forall rounds acc r,
    reconstruct rounds cameFrom (Some c) acc = Some r -> r = acc ++ ret.
Proof.
  induction 1 as [Hstart|c p ret Hc Hmove Hcame IH]; intros [|rounds] acc r;
    simpl; try done.
  - rewrite Hstart. simpl. destruct rounds; by intros [= <-].
  - rewrite Hc. simpl. intros Hr. apply IH in Hr as ->. by rewrite <- app_assoc.
Qed.

(** One round of the inner loop, for a current tile that is closed and
    has the score [gcur]. *)
Lemma visit_optimal current closedSet f g action f' g' gcur :
  map_shaped this g -> on_map this current ->
  at_ g current = Some (Cost gcur) -> closed closedSet current ->
  visit current closedSet (f, g) action = (f', g') ->
  map_shaped this g' /\
  (is_heap by_cost f -> is_heap by_cost f') /\
  (forall c, on_map this c -> closed closedSet c -> at_ g' c = at_ g c) /\
  (forall c gc, on_map this c -> at_ g c = Some (Cost gc) ->
     exists gc', at_ g' c = Some (Cost gc') /\ gc' <= gc) /\
  (forall it, it ∈ f -> it ∈ f') /\
  (forall it, it ∈ f' ->
     it ∈ f \/
     came_from it = Some current /\ on_map this (elem it) /\
     exists gn gs,
       cost it = gn + H (elem it) /\ gn = gcur + step_cost current (elem it) /\
       at_ g' (elem it) = Some (Cost gs) /\ gs <= gn) /\
  (forall c gc, on_map this c -> at_ g' c = Some (Cost gc) ->
     at_ g c = Some (Cost gc) \/
     exists it, it ∈ f' /\ elem it = c /\ cost it = gc + H c) /\
  (let new := (current.1 + action.1, current.2 + action.2) in
   truelyPassableAbsolute this new (Some tvmap) = true ->
   closed closedSet new \/
   exists gn, at_ g' new = Some (Cost gn) /\ gn <= gcur + step_cost current new).
Proof.
  intros Hg Hcur Hgcur Hcurclosed. unfold PathFinder.visit. cbv zeta.
  set (new := (current.1 + action.1, current.2 + action.2)).
  assert (Hsame : (f, g) = (f', g') ->
    map_shaped this g' /\
    (is_heap by_cost f -> is_heap by_cost f') /\
    (forall c, on_map this c -> closed closedSet c -> at_ g' c = at_ g c) /\
    (forall c gc, on_map this c -> at_ g c = Some (Cost gc) ->
       exists gc', at_ g' c = Some (Cost gc') /\ gc' <= gc) /\
    (forall it, it ∈ f -> it ∈ f') /\
    (forall it, it ∈ f' ->
       it ∈ f \/
       came_from it = Some current /\ on_map this (elem it) /\
       exists gn gs,
         cost it = gn + H (elem it) /\ gn = gcur + step_cost current (elem it) /\
         at_ g' (elem it) = Some (Cost gs) /\ gs <= gn) /\
    (forall c gc, on_map this c -> at_ g' c = Some (Cost gc) ->
       at_ g c = Some (Cost gc) \/
       exists it, it ∈ f' /\ elem it = c /\ cost it = gc + H c)).
  { intros [= <- <-]. split_and!; try done.
    - intros c gc _ Hc. exists gc. split; [done|lia].
    - by left.
    - by left. }
  destruct (truelyPassableAbsolute this new (Some tvmap)) eqn:Hpass; cbn [negb].
  2:{ intros Heq. destruct (Hsame Heq) as (? & ? & ? & ? & ? & ? & ?). by split_and!. }
  pose proof (truelyPassableAbsolute_on_map _ _ _ Hpass) as Hnew.
  destruct (default false (at_ closedSet new)) eqn:Hclosed.
  { intros Heq. destruct (Hsame Heq) as (? & ? & ? & ? & ? & ? & ?).
    split_and!; try done. intros _. by left. }
  rewrite Hgcur. cbn [default from_option id].
  destruct (at_shaped this g new Hg Hnew) as [old Hold]. rewrite Hold.
  cbn [default from_option id].
  pose proof (step_cost_action current action) as Hstep. fold new in Hstep.
  set (t := gcur + _) in *.
  assert (Hne : new <> current) by (intros Heq; rewrite Heq in Hclosed; congruence).
  assert (Hput :
    (match old with Cost old' => t < old' | Infinity => True end) ->
    (enqueue by_cost f
       {| cost := t + (if mappingMode then 0 else heuristic goals new);
          elem := new; came_from := Some current |},
     put g new (Cost t)) = (f', g') ->
    map_shaped this g' /\
    (is_heap by_cost f -> is_heap by_cost f') /\
    (forall c, on_map this c -> closed closedSet c -> at_ g' c = at_ g c) /\
    (forall c gc, on_map this c -> at_ g c = Some (Cost gc) ->
       exists gc', at_ g' c = Some (Cost gc') /\ gc' <= gc) /\
    (forall it, it ∈ f -> it ∈ f') /\
    (forall it, it ∈ f' ->
       it ∈ f \/
       came_from it = Some current /\ on_map this (elem it) /\
       exists gn gs,
         cost it = gn + H (elem it) /\ gn = gcur + step_cost current (elem it) /\
         at_ g' (elem it) = Some (Cost gs) /\ gs <= gn) /\
    (forall c gc, on_map this c -> at_ g' c = Some (Cost gc) ->
       at_ g c = Some (Cost gc) \/
       exists it, it ∈ f' /\ elem it = c /\ cost it = gc + H c) /\
    (true = true ->
     false = true \/
     exists gn, at_ g' new = Some (Cost gn) /\ gn <= gcur + step_cost current new)).
  { intros Hless [= <- <-].
    assert (Hat : at_ (put g new (Cost t)) new = Some (Cost t)).
    { apply at_put_eq. by rewrite Hold. }
    assert (Hother : forall c, on_map this c -> c <> new ->
              at_ (put g new (Cost t)) c = at_ g c).
    { intros c [??] Hc. destruct Hnew. apply at_put_ne; (lia || done). }
    split_and!.
    - by apply put_shaped.
    - apply PriorityQueueFacts.enqueue_heap; [apply by_cost_trans|apply by_cost_total].
    - intros c Hc Hcclosed. apply Hother; [done|]. intros ->. congruence.
    - intros c gc Hc Hgc. destruct (decide (c = new)) as [->|Hcn].
      + exists t. split; [done|]. rewrite Hold in Hgc. injection Hgc as ->. lia.
      + exists gc. rewrite Hother by done. split; [done|lia].
    - intros it Hit. rewrite PriorityQueueFacts.enqueue_Permutation. by right.
    - intros it Hit. rewrite PriorityQueueFacts.enqueue_Permutation in Hit.
      apply elem_of_cons in Hit as [->|Hit]; [right|by left]. cbn [came_from elem cost].
      split; [done|]. split; [done|]. exists t, t. split_and!; [done| |done|lia].
      subst t. rewrite Hstep. lia.
    - intros c gc Hc Hgc. destruct (decide (c = new)) as [->|Hcn].
      + right. rewrite Hat in Hgc. injection Hgc as <-.
        exists {| cost := t + (if mappingMode then 0 else heuristic goals new);
                  elem := new; came_from := Some current |}.
        split; [|done]. rewrite PriorityQueueFacts.enqueue_Permutation. by left.
      + left. by rewrite Hother in Hgc.
    - intros _. right. exists t. split; [done|]. subst t. rewrite Hstep. lia. }
  destruct old as [old|].
  - destruct (Z.ltb_spec t old) as [Hlt|Hge].
    + by apply Hput.
    + intros Heq. destruct (Hsame Heq) as (? & ? & ? & ? & ? & ? & ?).
      split_and!; try done. intros _. right. injection Heq as <- <-.
      exists old. split; [done|]. subst t. rewrite Hstep. lia.
  - by apply Hput.
Qed.

Lemma visit_fold_optimal current closedSet actions : forall f g f' g' gcur,
  map_shaped this g -> on_map this current ->
  at_ g current = Some (Cost gcur) -> closed closedSet current ->
  foldl (visit current closedSet) (f, g) actions = (f', g') ->
  map_shaped this g' /\
  (is_heap by_cost f -> is_heap by_cost f') /\
  (forall c, on_map this c -> closed closedSet c -> at_ g' c = at_ g c) /\
  (forall c gc, on_map this c -> at_ g c = Some (Cost gc) ->
     exists gc', at_ g' c = Some (Cost gc') /\ gc' <= gc) /\
  (forall it, it ∈ f -> it ∈ f') /\
  (forall it, it ∈ f' ->
     it ∈ f \/
     came_from it = Some current /\ on_map this (elem it) /\
     exists gn gs,
       cost it = gn + H (elem it) /\ gn = gcur + step_cost current (elem it) /\
       at_ g' (elem it) = Some (Cost gs) /\ gs <= gn) /\
  (forall c gc, on_map this c -> at_ g' c = Some (Cost gc) ->
     at_ g c = Some (Cost gc) \/
     exists it, it ∈ f' /\ elem it = c /\ cost it = gc + H c) /\
  (forall action, action ∈ actions ->
   let new := (current.1 + action.1, current.2 + action.2) in
   truelyPassableAbsolute this new (Some tvmap) = true ->
   closed closedSet new \/
   exists gn, at_ g' new = Some (Cost gn) /\ gn <= gcur + step_cost current new).
Proof.
  induction actions as [|action actions IH]; intros f g f' g' gcur Hg Hcur Hgcur Hclosed;
    cbn [foldl].
  { intros [= <- <-]. split_and!; try done.
    - intros c gc _ Hc. exists gc. split; [done|lia].
    - by left.
    - by left.
    - by intros a Ha%elem_of_nil. }
  destruct (visit current closedSet (f, g) action) as [f1 g1] eqn:Hvisit.
  intros Hfold.
  apply (visit_optimal _ _ _ _ _ _ _ gcur) in Hvisit
    as (Hg1 & Hheap1 & Hclosed1 & Hmono1 & Hwait1 & Hitems1 & Hbest1 & Hlook1);
    [|done..].
  apply (IH _ _ _ _ gcur) in Hfold
    as (Hg' & Hheap & Hclosed' & Hmono & Hwait & Hitems & Hbest & Hlook);
    [|done|done|by rewrite Hclosed1|done].
  split_and!.
  - done.
  - intros Hf. by apply Hheap, Hheap1.
  - intros c Hc Hcc. by rewrite Hclosed', Hclosed1.
  - intros c gc Hc Hgc. destruct (Hmono1 c gc Hc Hgc) as (gc1 & Hgc1 & Hle1).
    destruct (Hmono c gc1 Hc Hgc1) as (gc' & Hgc' & Hle). exists gc'. split; [done|lia].
  - intros it Hit. by apply Hwait, Hwait1.
  - intros it Hit. destruct (Hitems it Hit) as [Hit1|?]; [|by right].
    destruct (Hitems1 it Hit1) as [?|(Hfrom & Hon & gn & gs1 & Hcost & Hgn & Hgs1 & Hle1)];
      [by left|right].
    destruct (Hmono _ gs1 Hon Hgs1) as (gs & Hgs & Hle).
    split; [done|]. split; [done|]. exists gn, gs. split_and!; [done..|lia].
  - intros c gc Hc Hgc. destruct (Hbest c gc Hc Hgc) as [Hgc1|?]; [|by right].
    destruct (Hbest1 c gc Hc Hgc1) as [?|(it & Hit & Helem & Hcost)]; [by left|right].
    exists it. split; [by apply Hwait|done].
  - intros a Ha. cbv zeta. intros Hpass. apply elem_of_cons in Ha as [->|Ha].
    + destruct (Hlook1 Hpass) as [?|(gn & Hgn & Hle)]; [by left|right].
      destruct (Hmono _ gn (truelyPassableAbsolute_on_map _ _ _ Hpass) Hgn)
        as (gn' & Hgn' & Hle').
      exists gn'. split; [done|lia].
    + by apply Hlook.
Qed.

(** A route from a closed tile to a tile that is not closed leaves the
    closed tiles somewhere, for a tile whose score is no more than the
    cost of the route up to it. *)
Lemma route_leaves (order : list cell) (gScore : grid score) :
  (forall c n, c ∈ order -> legal_move c n ->
     exists gc gn,
       at_ gScore c = Some (Cost gc) /\ at_ gScore n = Some (Cost gn) /\
       gn <= gc + step_cost c n) ->
  forall cells a t ga,
    head cells = Some a -> last cells = Some t -> legal_route cells ->
    a ∈ order -> t ∉ order -> at_ gScore a = Some (Cost ga) ->
    exists z gz rest,
      (z ∉ order) /\ on_map this z /\ at_ gScore z = Some (Cost gz) /\
      head rest = Some z /\ last rest = Some t /\
      gz + route_cost rest <= ga + route_cost cells.
Proof.
  intros Hrelaxed.
  induction cells as [|x [|y rest] IH]; intros a t ga Hhead Hlast Hroute Ha Ht Hga;
    [done|..].
  - injection Hhead as ->. injection Hlast as ->. done.
  - injection Hhead as ->. destruct Hroute as [Hmove Hroute].
    destruct (Hrelaxed a y Ha Hmove) as (gc & gy & Hgc & Hgy & Hle).
    rewrite Hga in Hgc. injection Hgc as <-.
    change (route_cost (a :: y :: rest)) with (step_cost a y + route_cost (y :: rest)).
    destruct (decide (y ∈ order)) as [Hy|Hy].
    + destruct (IH y t gy eq_refl Hlast Hroute Hy Ht Hgy)
        as (z & gz & rest' & ? & ? & ? & ? & ? & ?).
      exists z, gz, rest'. split_and!; try done. lia.
    + exists y, gy, (y :: rest). split_and!; try done; [|lia].
      eapply truelyPassableAbsolute_on_map, Hmove.
Qed.

(** Taking the front of a frontier that is a heap: it is an item of
    least cost, and the rest is a heap of the other items. *)
Lemma frontier_front front rest :
  is_heap by_cost (front :: rest) ->
  exists c',
    dequeue by_cost (front :: rest) = inr (front, c') /\
    is_heap by_cost c' /\
    length c' = length rest /\
    (forall it, it ∈ c' -> it ∈ (front :: rest)) /\
    (forall it, it ∈ (front :: rest) -> it = front \/ it ∈ c') /\
    (forall it, it ∈ (front :: rest) -> cost front <= cost it).
Proof.
  intros Hheap.
  destruct (PriorityQueueFacts.dequeue_cons by_cost by_cost_trans by_cost_total
              front rest) as (c' & Hdequeue & Hperm & Hheap').
  exists c'. split_and!; [done|by apply Hheap'|..].
  - apply (inj (cons front)) in Hperm. by rewrite Hperm.
  - intros it Hit. rewrite Hperm. by right.
  - intros it Hit. rewrite Hperm in Hit. by apply elem_of_cons in Hit.
  - intros it Hit.
    pose proof (PriorityQueueFacts.root_min by_cost by_cost_trans by_cost_total
                  (front :: rest) front Hheap eq_refl it Hit) as Hle.
    unfold le, by_cost in Hle. lia.
Qed.

(** What the loop returns: a path that no route to a target undercuts,
    or scores that are the least costs. *)
Lemma search_loop_cheapest rounds : forall order st r,
  on_map this start ->
  invariant order st -> optimal order st ->
  search_loop rounds st = Some r ->
  match r with
  | path cells =>
      forall cells', route_to this deltaActions tvmap start goals cells' ->
        route_cost cells <= route_cost cells'
  | null => True
  | scores gScore =>
      forall c g, on_map this c -> at_ gScore c = Some (Cost g) ->
        (exists cells, head cells = Some start /\ last cells = Some c /\
           legal_route cells /\ route_cost cells = g) /\
        forall cells, head cells = Some start -> last cells = Some c ->
          legal_route cells -> g <= route_cost cells
  end.
Proof.
  induction rounds as [|rounds IH]; intros order st r Hstart Hinv Hopt; [done|].
  cbn [PathFinder.search_loop].
  destruct (frontier st) as [|current rest] eqn:Hfrontier.
  { (* the frontier is empty: every tile with a score is closed *)
    pose proof Hopt
      as (Hg & Hheap & Hs0 & Hfirst & Hstarted & Hways & Hitemcost & Hbest & Hrelaxed
          & Hgoal).
    simpl. destruct mappingMode; intros [= <-]; [|done].
    assert (Hne : order <> []).
    { intros Hempty. destruct (Hfirst Hempty) as [(it & Hit & _) _]. congruence. }
    intros c g Hc Hcg.
    assert (Hin : c ∈ order).
    { destruct (decide (c ∈ order)) as [|Hout]; [done|].
      destruct (Hbest Hne c g Hc Hout Hcg) as (it & Hit & _).
      rewrite Hfrontier in Hit. by apply elem_of_nil in Hit. }
    destruct (Hways c Hin) as (g' & ret & Hg' & Hret & _ & Hcost & Hleast).
    rewrite Hcg in Hg'. injection Hg' as <-.
    destruct (came_along_route _ _ _ _ _ _ _ Hret) as (Hhead & Hlast & Hroute).
    split; [|done]. exists (reverse ret).
    split_and!; [by rewrite head_reverse|by rewrite last_reverse|done|done]. }
  cbn [count length Nat.eqb].
  pose proof Hinv as (Hclosed & Hcame & Hnodup & Hon & Hiff & Hroutes & Hitems).
  pose proof Hopt
    as (Hg & Hheap & Hs0 & Hfirst & Hstarted & Hways & Hitemcost & Hbest & Hrelaxed
        & Hgoal).
  rewrite Hfrontier in Hheap.
  destruct (frontier_front current rest Hheap)
    as (frontier' & -> & Hheap' & Hlength & Hitems' & Hwaits & Hleast).
  rewrite <- Hfrontier in Hitems', Hwaits, Hleast.
  assert (Hcur : current ∈ frontier st) by (rewrite Hfrontier; by left).
  destruct (Hitems _ Hcur) as [Hcmap Hcfrom].
  destruct (at_shaped this (closedSet st) (elem current) Hclosed Hcmap) as [b Hb].
  rewrite Hb. cbn [default from_option id]. destruct b.
  { (* already closed: the item is dropped *)
    assert (Hne : order <> []).
    { intros Hempty. apply Hiff in Hb; [|done]. rewrite Hempty in Hb.
      by apply elem_of_nil in Hb. }
    apply (IH order); [done| |].
    - unfold search_invariant. simpl. split_and!; try done.
      intros it Hit. by apply Hitems, Hitems'.
    - unfold search_optimal. cbn [gScore frontier cameFrom]. split_and!; try done.
      + intros _ it Hit. by apply Hitemcost, Hitems'.
      + intros _ c g Hc Hcn Hcg.
        destruct (Hbest Hne c g Hc Hcn Hcg) as (it & Hit & Helem & Hcost).
        destruct (Hwaits it Hit) as [->|Hit']; [|by exists it].
        exfalso. apply Hcn. rewrite <- Helem. by apply Hiff. }
  assert (Hopen : at_ (closedSet st) (elem current) ≠ Some true) by by rewrite Hb.
  assert (Hnew : elem current ∉ order) by (by rewrite <- Hiff).
  (* the score of the tile is the cost of the way the item stands for, and
     no route to a tile that is not closed does better *)
  assert (Hcurrent : exists gu,
    at_ (gScore st) (elem current) = Some (Cost gu) /\
    match came_from current with
    | None => gu = 0
    | Some p =>
        exists gp, at_ (gScore st) p = Some (Cost gp) /\
                   gu = gp + step_cost p (elem current)
    end /\
    (forall t cells,
       head cells = Some start -> last cells = Some t -> legal_route cells ->
       t ∉ order -> gu + H (elem current) <= route_cost cells + H t) /\
    (order = [] -> elem current = start /\ frontier' = [])).
  { destruct (decide (order = [])) as [Hempty|Hne].
    - destruct (Hfirst Hempty) as [(it & Hit & Helem & Hnone) _].
      rewrite Hfrontier in Hit. injection Hit as -> ->.
      exists 0. rewrite Helem, Hnone. split_and!; [done|done| |].
      + intros t cells Hhead Hlast Hroute Ht.
        pose proof (route_consistent cells start t Hhead Hlast). lia.
      + intros _. split; [done|]. by apply nil_length_inv.
    - destruct (Hitemcost Hne _ Hcur) as (gu & gs & Hcost & Hgs & Hle & Hfrom).
      assert (gs = gu) as ->.
      { destruct (Hbest Hne _ gs Hcmap Hnew Hgs) as (b' & Hb' & Helem & Hcostb).
        specialize (Hleast b' Hb'). lia. }
      exists gu. split_and!; [done|done| |done].
      intros t cells Hhead Hlast Hroute Ht.
      destruct (route_leaves order (gScore st) Hrelaxed cells start t 0 Hhead Hlast
                  Hroute (Hstarted Hne) Ht Hs0)
        as (z & gz & rest' & Hz & Hzmap & Hgz & Hhead' & Hlast' & Hcut).
      destruct (Hbest Hne z gz Hzmap Hz Hgz) as (iz & Hiz & Helem & Hcostz).
      specialize (Hleast iz Hiz).
      pose proof (route_consistent rest' z t Hhead' Hlast'). lia. }
  destruct Hcurrent as (gu & Hgs & Hfrom & Hopt_y & Hfirst_round).
  assert (Hstart_in : start ∈ elem current :: order).
  { destruct (decide (order = [])) as [Hempty|Hne].
    - destruct (Hfirst_round Hempty) as [-> _]. by left.
    - right. by apply Hstarted. }
  assert (Hkeep : forall ret, Forall (fun c' => c' ∈ order) ret ->
            forall c', c' ∈ ret ->
              at_ (put (cameFrom st) (elem current) (came_from current)) c'
              = at_ (cameFrom st) c').
  { intros ret Hret c' Hc'. eapply Forall_forall in Hret; [|done].
    pose proof (proj1 (Forall_forall _ _) Hon _ Hret) as [??].
    destruct Hcmap. apply at_put_ne; [lia..|]. by intros <-. }
  (* the way to the tile *)
  assert (Hway : exists ret,
            came_along (put (cameFrom st) (elem current) (came_from current)) start
              (elem current) ret /\
            Forall (fun c' => c' ∈ elem current :: order) ret /\
            route_cost (reverse ret) = gu).
  { destruct (came_from current) as [p|] eqn:Hp.
    - destruct Hcfrom as [Hporder Hmove].
      destruct Hfrom as (gp & Hgp & ->).
      destruct (Hways p Hporder) as (g' & ret & Hg' & Hret & Hall & Hcostret & _).
      rewrite Hgp in Hg'. injection Hg' as <-.
      destruct (came_along_route _ _ _ _ _ _ _ Hret) as (Hhead & _ & _).
      exists (elem current :: ret). split_and!.
      + apply came_step with p; [|done|].
        * apply at_put_eq. by eapply at_shaped.
        * eapply came_along_ext; [|done]. by apply Hkeep.
      + apply Forall_cons. split; [by left|].
        eapply Forall_impl; [done|]. intros ??. by right.
      + rewrite reverse_cons, route_cost_snoc with (p := p); [lia|].
        by rewrite last_reverse.
    - rewrite Hcfrom in *. subst gu. exists [start]. split_and!.
      + apply came_start, at_put_eq. by eapply at_shaped.
      + apply Forall_singleton. by left.
      + done. }
  destruct (negb mappingMode && onTarget goals (elem current)) eqn:Htarget.
  { (* on a target: the path is the way to the tile *)
    apply andb_true_iff in Htarget as [Hmode%negb_true_iff Hgoaly%onTarget_goal].
    destruct Hway as (ret & Hret & _ & Hretcost).
    destruct (reconstruct _ _ _ _) as [ret0|] eqn:Hrec; simpl; [|done].
    intros [= <-].
    apply (reconstruct_unique _ _ _ Hret) in Hrec. simpl in Hrec. subst ret0.
    intros cells' (Hhead & (goal & Hlast & Hgoal') & Hroute).
    rewrite Hretcost.
    assert (Hout : goal ∉ order) by (intros Hin; by apply (Hgoal Hmode goal Hin)).
    pose proof (Hopt_y goal cells' Hhead Hlast Hroute Hout) as Hle'.
    rewrite !goal_estimate in Hle' by done. lia. }
  (* the neighbours are visited *)
  destruct (foldl _ _ deltaActions) as [frontier'' gScore'] eqn:Hfold.
  pose proof Hfold as Hfold'.
  apply (visit_fold _ _ _ _ _ deltaActions) in Hfold' as [_ Hin]; [|done].
  assert (Hyclosed : closed (put (closedSet st) (elem current) true) (elem current)).
  { rewrite at_put_eq; [done|]. by rewrite Hb. }
  apply (visit_fold_optimal _ _ _ _ _ _ _ gu) in Hfold
    as (Hg' & Hheap'' & Hsame & Hmono & Hwait & Hitems'' & Hbest' & Hlook);
    [|done..].
  assert (Hinv' :
    invariant (elem current :: order)
      {| frontier := frontier'';
         closedSet := put (closedSet st) (elem current) true;
         cameFrom := put (cameFrom st) (elem current) (came_from current);
         gScore := gScore' |}).
  { apply invariant_close; [done..|].
    intros it [Hit|[Hfromy Hmove]]%Hin.
    + destruct (Hitems _ (Hitems' _ Hit)) as [Hmap Hfromit]. split; [done|].
      destruct (came_from it); [|done]. destruct Hfromit. split; [by right|done].
    + split; [by eapply truelyPassableAbsolute_on_map, Hmove|].
      rewrite Hfromy. split; [by left|done]. }
  pose proof Hinv' as (_ & _ & _ & Hon' & Hiff' & _ & _).
  cbn [closedSet] in Hiff'.
  assert (Hkept : forall c, c ∈ elem current :: order ->
            at_ gScore' c = at_ (gScore st) c).
  { intros c Hc.
    assert (Hcon : on_map this c) by (by eapply Forall_forall in Hon').
    apply Hsame; [done|]. by rewrite (proj2 (Hiff' c Hcon) Hc). }
  assert (Hways' : forall c, c ∈ elem current :: order ->
            exists g ret,
              at_ gScore' c = Some (Cost g) /\
              came_along (put (cameFrom st) (elem current) (came_from current)) start
                c ret /\
              Forall (fun c' => c' ∈ elem current :: order) ret /\
              route_cost (reverse ret) = g /\
              forall cells,
                head cells = Some start -> last cells = Some c ->
                legal_route cells -> g <= route_cost cells).
  { intros c Hc. rewrite Hkept by done. apply elem_of_cons in Hc as [->|Hc].
    - destruct Hway as (ret & Hret & Hall & Hcostret).
      exists gu, ret. split_and!; [done..|].
      intros cells Hhead Hlast Hroute.
      pose proof (Hopt_y _ cells Hhead Hlast Hroute Hnew). lia.
    - destruct (Hways c Hc) as (g & ret & Hgc & Hret & Hall & Hcostret & Hleastc).
      exists g, ret. split_and!; [done| | |done|done].
      + eapply came_along_ext; [|done]. by apply Hkeep.
      + eapply Forall_impl; [done|]. intros ??. by right. }
  apply (IH (elem current :: order)); [done|done|].
  unfold search_optimal. cbn [gScore frontier cameFrom]. split_and!.
  - done.
  - by apply Hheap''.
  - by rewrite Hkept.
  - done.
  - done.
  - done.
  - intros _ it Hit.
    destruct (Hitems'' it Hit)
      as [Hit'|(Hfromy & Honit & gn & gs' & Hcostit & Hgn & Hgs' & Hle')].
    + destruct (decide (order = [])) as [Hempty|Hne].
      { destruct (Hfirst_round Hempty) as [_ Hnone]. rewrite Hnone in Hit'.
        by apply elem_of_nil in Hit'. }
      destruct (Hitemcost Hne it (Hitems' it Hit'))
        as (g & gs0 & Hc1 & Hgs0 & Hle0 & Hfrom0).
      destruct (Hitems it (Hitems' it Hit')) as [Honit Hfromit].
      destruct (Hmono _ gs0 Honit Hgs0) as (gs1 & Hgs1 & Hle1).
      exists g, gs1. split_and!; [done|done|lia|].
      destruct (came_from it) as [p|]; [|done].
      destruct Hfrom0 as (gp & Hgp & Hgeq). exists gp. split; [|done].
      rewrite Hkept; [done|]. right. apply Hfromit.
    + exists gn, gs'. split_and!; [done..|]. rewrite Hfromy. exists gu.
      split; [|done]. rewrite Hkept; [done|by left].
  - intros _ c g Hc Hcn Hcg. destruct (Hbest' c g Hc Hcg) as [Hold|?]; [|done].
    assert (Hcn' : c ∉ order) by (intros ?; apply Hcn; by right).
    destruct (decide (order = [])) as [Hempty|Hne].
    { exfalso. apply Hcn. destruct (Hfirst Hempty) as [_ Honly].
      rewrite (Honly c g Hc Hold). by destruct (Hfirst_round Hempty) as [-> _]; left. }
    destruct (Hbest Hne c g Hc Hcn' Hold) as (it & Hit & Helem & Hcostit).
    destruct (Hwaits it Hit) as [->|Hit'].
    { exfalso. apply Hcn. rewrite <- Helem. by left. }
    exists it. split; [by apply Hwait|done].
  - intros c n Hc Hmove. rewrite (Hkept c Hc).
    assert (Honn : on_map this n) by (eapply truelyPassableAbsolute_on_map, Hmove).
    apply elem_of_cons in Hc as [->|Hc].
    + pose proof Hmove as [(action & Haction & Hn) Hpass]. subst n.
      destruct (Hlook action Haction Hpass) as [Hnclosed|(gn & Hgn & Hlen)].
      * assert (Hnin : (((elem current).1 + action.1, (elem current).2 + action.2) : cell)
                       ∈ elem current :: order).
        { apply Hiff'; [done|].
          by destruct (at_ (put (closedSet st) (elem current) true) _) as [[|]|]. }
        destruct (Hways' _ Hnin) as (gn & retn & Hgn & _ & _ & _ & Hleastn).
        destruct Hway as (ret & Hret & _ & Hcostret).
        destruct (came_along_route _ _ _ _ _ _ _ Hret) as (Hhead & Hlast & Hroute).
        exists gu, gn. split_and!; [done|done|].
        rewrite <- Hcostret.
        rewrite <- (route_cost_snoc (reverse ret) (elem current)) by by rewrite last_reverse.
        apply Hleastn.
        -- pose proof (head_reverse ret) as Hfirst'. rewrite Hlast in Hfirst'.
           by destruct (reverse ret).
        -- by rewrite last_snoc.
        -- eapply legal_route_snoc; [done| |done]. by rewrite last_reverse.
      * by exists gu, gn.
    + destruct (Hrelaxed c n Hc Hmove) as (gc & gn & Hgc & Hgn & Hlen).
      destruct (Hmono n gn Honn Hgn) as (gn' & Hgn' & Hlen').
      exists gc, gn'. split_and!; [done|done|lia].
  - intros Hmode c Hc. apply elem_of_cons in Hc as [->|Hc]; [|by apply Hgoal].
    rewrite Hmode in Htarget. by apply onTarget_away.
Qed.

End search.

(** *** [findPath] *)

(** The search begins with the start alone, at no cost. *)
Lemma findPath_optimal FUEL_PER_MOVE this mappingMode goals tvmap deltaActions
  fuelFactor timeFactor start :
  on_map this start ->
  let rows := length (map this) in
  let cols := length (default [] (map this !! 0%nat)) in
  search_optimal FUEL_PER_MOVE this mappingMode goals tvmap deltaActions fuelFactor
    timeFactor start []
    {| frontier :=
         enqueue by_cost (constructor (A := item))
           {| cost := 0; elem := start; came_from := None |};
       closedSet := filled2D rows cols false;
       cameFrom := filled2D rows cols None;
       gScore := put (filled2D rows cols Infinity) start (Cost 0) |}.
Proof.
  intros Hstart rows cols. unfold search_optimal. cbn [gScore frontier cameFrom].
  pose proof (filled2D_shaped this Infinity) as Hshaped.
  split_and!; try done.
  - by apply put_shaped.
  - apply PriorityQueueFacts.enqueue_heap; [apply by_cost_trans|apply by_cost_total|].
    apply PriorityQueueFacts.is_heap_nil.
  - apply at_put_eq. by eapply at_shaped.
  - intros _. split.
    + exists {| cost := 0; elem := start; came_from := None |}. split; [|done].
      apply Permutation_singleton_r, PriorityQueueFacts.enqueue_Permutation.
    + intros c g Hc Hcg. destruct (decide (c = start)) as [|Hne]; [done|].
      destruct Hstart, Hc. rewrite at_put_ne in Hcg by (lia || done).
      by apply at_filled2D in Hcg.
  - by intros c ?%elem_of_nil.
  - by intros c n ?%elem_of_nil.
  - by intros _ c ?%elem_of_nil.
Qed.

(** What [findPath] returns, whatever the rounds, for a unit that pays
    for its moves: a path that no route to a target undercuts, or scores
    that are the least costs. *)
Lemma findPath_costs listPossibleMoves FUEL_PER_MOVE this targets_ mode
  start flags rounds r :
  let flags' := default no_flags flags in
  let mappingMode := default false (flags_map flags') in
  let start' := default (x (me this), y (me this)) start in
  let tvmap :=
    if mappingMode then map this
    else default (trueVisionPassableMap this) (flags_tvmap flags') in
  let deltaActions := listPossibleMoves (mover this flags') in
  let goals := if mappingMode then [] else goals_of targets_ in
  let route_cost :=
    route_cost FUEL_PER_MOVE this (factors mode).1 (factors mode).2 in
  on_map this start' ->
  (if mappingMode then 0 else 1) <= FUEL_PER_MOVE (unit (me this)) ->
  findPath listPossibleMoves FUEL_PER_MOVE this rounds targets_ mode start flags
  = Some (returns r) ->
  match r with
  | path cells =>
      forall cells',
        route_to this deltaActions tvmap start' goals cells' ->
        route_cost cells <= route_cost cells'
  | null => True
  | scores gScore =>
      forall c g, on_map this c -> at_ gScore c = Some (Cost g) ->
        (exists cells, head cells = Some start' /\ last cells = Some c /\
           legal_route this deltaActions tvmap cells /\ route_cost cells = g) /\
        forall cells, head cells = Some start' -> last cells = Some c ->
          legal_route this deltaActions tvmap cells -> g <= route_cost cells
  end.
Proof.
  intros flags' mappingMode start' tvmap deltaActions goals route_cost Hstart Hfuel.
  subst route_cost. unfold findPath. cbv zeta. fold flags' mappingMode start'.
  assert (Hfactors :
    (if default 0 mode =? 0 then (10, 1) else (1, 10))
    = ((factors mode).1, (factors mode).2)).
  { unfold factors. by destruct (_ =? 0). }
  rewrite Hfactors.
  set (fuelFactor := (factors mode).1). set (timeFactor := (factors mode).2).
  assert (Hconsistent : forall a b,
    estimate mappingMode goals a
    <= step_cost FUEL_PER_MOVE this fuelFactor timeFactor a b
       + estimate mappingMode goals b).
  { intros a b. destruct mappingMode eqn:Hmode.
    - pose proof (step_cost_nonneg FUEL_PER_MOVE this mode a b Hfuel).
      unfold estimate. fold fuelFactor timeFactor in H. lia.
    - pose proof (step_cost_length FUEL_PER_MOVE this mode a b Hfuel).
      pose proof (estimate_consistent false goals a b).
      fold fuelFactor timeFactor in H. lia. }
  assert (Hgoal : mappingMode = false ->
            forall c, c ∈ goals -> estimate mappingMode goals c = 0).
  { intros -> c Hc. by apply estimate_goal. }
  destruct (if mappingMode then Some [] else _) as [goals'|] eqn:Hpromote; [|done].
  assert (goals' = goals) as ->.
  { subst goals. destruct mappingMode; [congruence|].
    destruct targets_ as [tx ty|[|t ts]]; simpl; congruence. }
  fold tvmap.
  destruct (negb (existsb _ goals) && negb mappingMode); [by intros [= <-]|].
  fold (mover this flags'). fold deltaActions.
  destruct (PathFinder.search_loop _ _ _ _ _ _ _ _ _ _) as [r'|] eqn:Hloop; [|done].
  intros [= ->].
  by apply (search_loop_cheapest _ _ _ _ _ _ _ _ start' Hconsistent Hgoal _ [])
    in Hloop; [|done|apply findPath_invariant|apply findPath_optimal].
Qed.



(** X19: in the mapping mode the scores are the least costs.  For a unit
    whose [FUEL_PER_MOVE] is not negative, from a start on the map and
    given enough rounds, [findPath] returns scores in which every score
    of a tile of the map is the cost of a route of legal moves over the
    terrain from the start to the tile, and no such route costs less. *)
Theorem findPath_least_costs listPossibleMoves FUEL_PER_MOVE this targets_ mode
  start flags rounds :
  let flags' := default no_flags flags in
  let start' := default (x (me this), y (me this)) start in
  let deltaActions := listPossibleMoves (mover this flags') in
  let route_cost :=
    route_cost FUEL_PER_MOVE this (factors mode).1 (factors mode).2 in
  default false (flags_map flags') = true ->
  on_map this start' ->
  0 <= FUEL_PER_MOVE (unit (me this)) ->
  (enough_rounds this deltaActions <= rounds)%nat ->
  exists gScore,
    findPath listPossibleMoves FUEL_PER_MOVE this rounds targets_ mode start flags
    = Some (returns (scores gScore)) /\
    forall c g, on_map this c -> at_ gScore c = Some (Cost g) ->
      (exists cells,
         head cells = Some start' /\ last cells = Some c /\
         legal_route this deltaActions (map this) cells /\ route_cost cells = g) /\
      forall cells,
        head cells = Some start' -> last cells = Some c ->
        legal_route this deltaActions (map this) cells -> g <= route_cost cells.
Proof.
  intros flags' start' deltaActions route_cost Hmode Hstart Hfuel Hrounds.
  pose proof (findPath_expected listPossibleMoves FUEL_PER_MOVE this targets_ mode
                start flags rounds) as Hexpected.
  pose proof (findPath_costs listPossibleMoves FUEL_PER_MOVE this targets_ mode
                start flags rounds) as Hcosts.
  cbv zeta in Hexpected, Hcosts. fold flags' start' in Hexpected, Hcosts.
  rewrite Hmode in Hexpected, Hcosts. fold deltaActions in Hexpected, Hcosts.
  destruct (Hexpected Hstart (or_introl eq_refl) Hrounds) as (r & Hr & Hexp).
  specialize (Hcosts r Hstart Hfuel Hr).
  destruct r as [cells| |gScore]; [by destruct Hexp|done|].
  by exists gScore.
Qed.

Lemma findPath_least_costs_witness :
  exists gScore,
    findPath rook_moves one_fuel open_field 100 (targets []) None None
      (Some {| flags_map := Some true; flags_unit := None; flags_tvmap := None |})
    = Some (returns (scores gScore)) /\
    forall c g, on_map open_field c -> at_ gScore c = Some (Cost g) ->
      (exists cells,
         head cells = Some (0, 0) /\ last cells = Some c /\
         legal_route open_field (rook_moves 2) (map open_field) cells /\
         route_cost one_fuel open_field 10 1 cells = g) /\
      forall cells,
        head cells = Some (0, 0) -> last cells = Some c ->
        legal_route open_field (rook_moves 2) (map open_field) cells ->
        g <= route_cost one_fuel open_field 10 1 cells.
Proof.
  apply (findPath_least_costs rook_moves one_fuel open_field (targets []) None None
           (Some {| flags_map := Some true; flags_unit := None; flags_tvmap := None |})
           100%nat).
  - reflexivity.
  - by vm_compute.
  - by vm_compute.
  - vm_compute. lia.
Defined.

End CheapestFacts.

(** ** Navigation *)

Module NavigationFacts.

Import PriorityQueue PathFinder PathFinderFacts ReachFacts Helpers Tiles TilesFacts Navigation.

(** *** [equalsnd] *)

Lemma strictly_equal_leaves a b :
  uniform 0 a -> uniform 0 b -> strictly_equal a b = true <-> a = b.
Proof.
  destruct a as [x| | |xs], b as [y| | |ys]; simpl; try done.
  intros _ _. rewrite Z.eqb_eq. split; congruence.
Qed.

Lemma forallb_strictly_equal xs : forall ys,
  length xs = length ys ->
  Forall (uniform 0) xs -> Forall (uniform 0) ys ->
  forallb (fun xy => strictly_equal xy.1 xy.2) (zip xs ys) = true <-> xs = ys.
Proof.
  induction xs as [|x xs IH]; intros [|y ys] Hlen Hxs Hys; simplify_eq/=; [done|].
  apply Forall_cons in Hxs as [Hx Hxs]. apply Forall_cons in Hys as [Hy Hys].
  rewrite andb_true_iff, (strictly_equal_leaves x y), (IH ys) by done.
  split; [by intros [-> ->]|by intros [= -> ->]].
Qed.

Lemma equalsnd_uniform_arrays d : forall a b d',
  uniform (S d) a -> uniform (S d') b ->
  exists equal, equalsnd a b = inr equal /\ (equal = true <-> a = b).
Proof.
  induction d as [|d IH]; intros [x| | |xs] [y| | |ys] d' Ha Hb; try done;
    simpl in Ha, Hb; cbn [equalsnd].
  - destruct (Nat.eqb_spec (length xs) (length ys)) as [Hlen|Hlen]; cbn [negb].
    2:{ exists false. split; [done|]. split; [done|]. intros [= ->]. done. }
    destruct xs as [|x0 xs], ys as [|y0 ys]; try done.
    { exists true. by split. }
    pose proof (Forall_inv Ha) as Hx0.
    destruct x0 as [x0| | |?]; try done; cbn [isArray];
      (destruct y0 as [y0| | |ys0]; cbn [isArray eqb negb];
       [| | |exists false; split; [done|]; split; [done|]; intros [= ]]);
      (eexists; split; [done|];
       etrans; [apply forallb_strictly_equal; [done..|]|
                split; congruence]);
      destruct d'; try done; by apply Forall_inv in Hb.
  - destruct (Nat.eqb_spec (length xs) (length ys)) as [Hlen|Hlen]; cbn [negb].
    2:{ exists false. split; [done|]. split; [done|]. intros [= ->]. done. }
    destruct xs as [|x0 xs], ys as [|y0 ys]; try done.
    { exists true. by split. }
    pose proof (Forall_inv Ha) as Hx0.
    destruct x0 as [| | |xs0]; try done.
    destruct y0 as [y0| | |ys0];
      try (exists false; split; [done|]; split; [done|]; intros [= ]).
    destruct d' as [|d']; [by apply Forall_inv in Hb|].
    match goal with
    | |- context [?f xs ys] =>
        lazymatch type of f with _ -> _ -> sum _ _ => set (loop := f) end
    end.
    assert (forall xs' ys', length xs' = length ys' ->
              Forall (uniform (S d)) xs' -> Forall (uniform (S d')) ys' ->
              exists equal, loop xs' ys' = inr equal /\ (equal = true <-> xs' = ys'))
      as Hloop.
    { clear -IH. induction xs' as [|x xs' IHxs]; intros [|y ys'] Hlen Hxs Hys;
        simplify_eq/=.
      { exists true. by split. }
      apply Forall_cons in Hxs as [Hx Hxs]. apply Forall_cons in Hys as [Hy Hys].
      destruct (IH x y d' Hx Hy) as (equal & Hxy & Hequal).
      change (loop (x :: xs') (y :: ys'))
        with (match equalsnd x y with
              | inl e => inl e
              | inr false => inr false
              | inr true => loop xs' ys'
              end).
      rewrite Hxy. destruct equal.
      - destruct (IHxs ys' Hlen Hxs Hys) as (rest & -> & Hrest).
        exists rest. split; [done|]. rewrite Hrest.
        assert (x = y) as -> by by apply Hequal.
        split; [by intros ->|by intros [= ->]].
      - exists false. split; [done|]. split; [done|]. intros [= -> _].
        by destruct Hequal as [_ ?%(fun H => H eq_refl)]. }
    destruct (Hloop _ _ Hlen Ha Hb) as (equal & Hequal & Hiff).
    exists equal. split; [exact Hequal|]. rewrite Hiff. split; congruence.
Qed.

(** X27: on arrays that hold numbers, [null] and [undefined] at one and
    the same depth, [equalsnd] does not throw and returns true exactly
    when the two arrays are equal, whatever the depths of the two. *)
Theorem equalsnd_uniform d d' a b :
  uniform (S d) a -> uniform (S d') b ->
  exists equal, equalsnd a b = inr equal /\ (equal = true <-> a = b).
Proof. apply equalsnd_uniform_arrays. Qed.

Lemma equalsnd_uniform_witness :
  exists equal,
    equalsnd (Arr [Arr [Num 1; Num 2]; Arr [Num 3; Null]])
      (Arr [Arr [Num 1; Num 2]; Arr [Num 3; Undefined]]) = inr equal /\
    (equal = true <->
     Arr [Arr [Num 1; Num 2]; Arr [Num 3; Null]]
     = Arr [Arr [Num 1; Num 2]; Arr [Num 3; Undefined]]).
Proof.
  apply (equalsnd_uniform 1 1); repeat constructor.
Defined.

(** *** [navigationMove] *)

Lemma of_cell_inj c c' : of_cell c = of_cell c' -> c = c'.
Proof. destruct c, c'. by intros [= -> ->]. Qed.

Lemma of_cells_inj a : forall b, of_cells a = of_cells b -> a = b.
Proof.
  unfold of_cells. induction a as [|c a IH]; intros [|c' b]; try done.
  intros [= Hx Hy Hrest]. f_equal; [destruct c, c'; simpl in *; congruence|].
  apply IH. by f_equal.
Qed.

Lemma equalsnd_of_cell c c' :
  equalsnd (of_cell c) (of_cell c') = inr (bool_decide (c = c')).
Proof.
  destruct (equalsnd_uniform_arrays 0 (of_cell c) (of_cell c') 0)
    as (equal & -> & Hequal); [by repeat constructor..|].
  f_equal. destruct equal.
  - symmetry. apply bool_decide_eq_true_2, of_cell_inj. by apply Hequal.
  - symmetry. apply bool_decide_eq_false_2. intros ->.
    by destruct Hequal as [_ ?%(fun H => H eq_refl)].
Qed.

Lemma equalsnd_of_cells a b :
  equalsnd (of_cells a) (of_cells b) = inr (bool_decide (a = b)).
Proof.
  destruct (equalsnd_uniform_arrays 1 (of_cells a) (of_cells b) 1)
    as (equal & -> & Hequal).
  { apply Forall_fmap, Forall_true. intros c. by repeat constructor. }
  { apply Forall_fmap, Forall_true. intros c. by repeat constructor. }
  f_equal. destruct equal.
  - symmetry. apply bool_decide_eq_true_2, of_cells_inj. by apply Hequal.
  - symmetry. apply bool_decide_eq_false_2. intros ->.
    by destruct Hequal as [_ ?%(fun H => H eq_refl)].
Qed.

Lemma legal_route_steps this moves tvmap cells :
  legal_route this moves tvmap cells -> steps_along moves cells.
Proof.
  induction cells as [|a [|b rest] IH]; [done..|].
  intros [[(action & Hin & ->) _] Hrest]. split; [|by apply IH].
  simpl. by replace (a.1 + action.1 - a.1, a.2 + action.2 - a.2) with action
    by (destruct action; simpl; f_equal; lia).
Qed.

Section navigationMove.

Variable SPEED : Z -> Z.
Variable FUEL_PER_MOVE : Z -> Z.
Variable this : robot.
Variable _util_frozen : bool.
Variable time : Z.
Variable fuel : Z.

Local Abbreviation moves := (listPossibleMoves SPEED this None).
Local Abbreviation here := (x (me this), y (me this)).

(** The end of [navigationMove] on a path that begins where the robot is
    and goes on. *)
Lemma step_along_moves kept path_ next rest cached :
  _util_path kept = Some (here :: next :: rest) ->
  _util_path_targets kept = Some cached ->
  (exists goal, last (here :: next :: rest) = Some goal /\ goal ∈ cached) ->
  steps_along moves (here :: next :: rest) ->
  truelyPassableAbsolute this next None = true ->
  path_ = here :: next :: rest ->
  exists navMove kept',
    step_along FUEL_PER_MOVE this fuel kept = returned navMove kept' false /\
    kept_well moves kept' /\
    forall d, navMove = Some d ->
      d ∈ moves /\
      truelyPassableDelta this d.1 d.2 None = true /\
      FUEL_PER_MOVE (unit (me this)) * (d.1 * d.1 + d.2 * d.2) <= fuel /\
      (exists rest', _util_path kept' = Some ((here.1 + d.1, here.2 + d.2) :: rest')) /\
      _util_path_targets kept' = Some cached.
Proof.
  intros Hpath Htargets Hlast [Hstep Hsteps] Hpass _.
  unfold step_along. rewrite Hpath. cbn [lookup list_lookup].
  destruct (Z.ltb_spec fuel
              (FUEL_PER_MOVE (unit (me this))
               * ((next.1 - x (me this)) * (next.1 - x (me this))
                  + (next.2 - y (me this)) * (next.2 - y (me this))))) as [Hfuel|Hfuel].
  - eexists _, _. split; [done|]. split; [|done].
    intros cached' Hcached'. exists (here :: next :: rest).
    rewrite Htargets in Hcached'. injection Hcached' as <-. by split_and!.
  - eexists _, _. split; [done|]. split.
    + intros cached' Hcached'. cbn in Hcached'.
      rewrite Htargets in Hcached'. injection Hcached' as <-.
      exists (next :: rest). by split_and!.
    + intros d [= <-]. cbn [fst snd _util_path _util_path_targets drop].
      split_and!; [done|done|lia| |done].
      exists rest. do 2 f_equal. destruct next; simpl; f_equal; lia.
Qed.

(** X28: a robot on the map that asks for a move towards a target, or a
    list that holds one, gets an answer and no [TypeError], as long as the
    fields kept from call to call are as [navigationMove] leaves them
    (they are so at first, no targets being kept), and leaves them so.
    A move it returns is one of the robot's possible moves, onto a tile
    that is passable, for which the fuel is enough; the path kept then
    begins on the tile moved to, and the targets kept are those asked
    for. *)
Theorem navigationMove_moves rounds kept targets_ mode :
  on_map this here ->
  goals_of targets_ ≠ [] ->
  kept_well moves kept ->
  (enough_rounds this moves <= rounds)%nat ->
  exists navMove kept' refused,
    navigationMove SPEED FUEL_PER_MOVE this _util_frozen time fuel rounds kept
      targets_ mode
    = Some (returned navMove kept' refused) /\
    kept_well moves kept' /\
    forall d, navMove = Some d ->
      d ∈ moves /\
      truelyPassableDelta this d.1 d.2 None = true /\
      FUEL_PER_MOVE (unit (me this)) * (d.1 * d.1 + d.2 * d.2) <= fuel /\
      (exists rest, _util_path kept' = Some ((here.1 + d.1, here.2 + d.2) :: rest)) /\
      _util_path_targets kept' = Some (goals_of targets_).
Proof.
  intros Hhere Hgoals Hkept Hrounds. unfold navigationMove.
  destruct (_util_frozen || (time <? 40)).
  { eexists _, _, _. by split_and!. }
  cbv zeta.
  destruct (existsb _ (goals_of targets_)) eqn:Hon.
  { eexists _, _, _. by split_and!. }
  assert (Hpromoted :
    match targets_ with
    | target x y => Arr [of_cell (x, y)]
    | targets [] => Arr [Arr []]
    | targets ts => of_cells ts
    end = of_cells (goals_of targets_)).
  { destruct targets_ as [tx ty|[|t ts]]; [done|by destruct Hgoals|done]. }
  rewrite Hpromoted.
  assert (Haway : here ∉ goals_of targets_).
  { intros Hin. apply (proj1 (existsb_false _ _) Hon) in Hin.
    by rewrite !Z.eqb_refl in Hin. }
  destruct (recalculate this kept (of_cells (goals_of targets_)) (default 0 mode))
    as [e|[|]] eqn:Hrecalculate.
  - (* no test throws *)
    exfalso. unfold recalculate in Hrecalculate.
    destruct (_util_path_targets kept) as [cached|] eqn:Hcached; [|done].
    rewrite equalsnd_of_cells in Hrecalculate.
    destruct (Hkept cached Hcached) as (path_ & Hpath & (goal & Hlast & Hgoal) & Hsteps).
    case_bool_decide as Hsame; [subst cached|done]. cbn [negb] in Hrecalculate.
    destruct (negb (bool_decide _)); [done|].
    rewrite Hpath in Hrecalculate.
    destruct path_ as [|first [|next rest]]; [done| |].
    + change (default Undefined (of_cell <$> [first] !! 0%nat))
        with (of_cell first) in Hrecalculate.
      rewrite equalsnd_of_cell in Hrecalculate.
      case_bool_decide as Hfirst; [|done]. injection Hlast as <-. by subst first.
    + change (default Undefined (of_cell <$> (first :: next :: rest) !! 0%nat))
        with (of_cell first) in Hrecalculate.
      rewrite equalsnd_of_cell in Hrecalculate. by case_bool_decide.
  - (* a new search *)
    destruct (findPath_expected (fun unit => listPossibleMoves SPEED this (Some unit))
                FUEL_PER_MOVE this (targets (goals_of targets_)) (Some (default 0 mode))
                None None rounds Hhere (or_intror Hgoals) Hrounds)
      as (r & -> & Hexpected).
    destruct r as [cells| |gScore]; [| |done].
    2:{ eexists _, _, _. split; [done|]. by split. }
    destruct Hexpected as (_ & Hhead & Hlast & Hroute).
    destruct cells as [|first [|next rest]]; [done| |].
    { destruct Hlast as (goal & [= <-] & Hgoal). by injection Hhead as ->. }
    injection Hhead as ->.
    set (kept' := {| _util_path := _ |}).
    pose proof Hroute as [[_ Hpass] _].
    destruct (step_along_moves kept' _ next rest (goals_of targets_) eq_refl eq_refl
                Hlast (legal_route_steps _ _ _ _ Hroute) Hpass eq_refl)
      as (navMove & kept'' & -> & Hkept'' & Hmove).
    by eexists _, _, _.
  - (* the path that was kept *)
    unfold recalculate in Hrecalculate.
    destruct (_util_path_targets kept) as [cached|] eqn:Hcached; [|done].
    rewrite equalsnd_of_cells in Hrecalculate.
    destruct (Hkept cached Hcached) as (path_ & Hpath & Hlast & Hsteps).
    case_bool_decide as Hsame; [subst cached|done]. cbn [negb] in Hrecalculate.
    destruct (negb (bool_decide _)); [done|].
    rewrite Hpath in Hrecalculate.
    destruct path_ as [|first [|next rest]]; [done| |].
    { change (default Undefined (of_cell <$> [first] !! 0%nat))
        with (of_cell first) in Hrecalculate.
      rewrite equalsnd_of_cell in Hrecalculate. by case_bool_decide. }
    change (default Undefined (of_cell <$> (first :: next :: rest) !! 0%nat))
      with (of_cell first) in Hrecalculate.
    rewrite equalsnd_of_cell in Hrecalculate.
    change ((first :: next :: rest) !! 1%nat) with (Some next) in Hrecalculate.
    case_bool_decide as Hfirst; [subst first|done].
    injection Hrecalculate as Hpass%negb_false_iff.
    destruct (step_along_moves kept _ next rest (goals_of targets_) Hpath Hcached
                Hlast Hsteps Hpass eq_refl)
      as (navMove & kept'' & -> & Hkept'' & Hmove).
    by eexists _, _, _.
Qed.

End navigationMove.

Lemma navigationMove_moves_witness :
  exists navMove kept' refused,
    navigationMove (fun _ => 1) one_fuel open_field false 100 10 100
      {| _util_path := None; _util_path_targets := None; _util_path_mode := None |}
      (target 2 1) None
    = Some (returned navMove kept' refused) /\
    kept_well (listPossibleMoves (fun _ => 1) open_field None) kept' /\
    forall d, navMove = Some d ->
      d ∈ listPossibleMoves (fun _ => 1) open_field None /\
      truelyPassableDelta open_field d.1 d.2 None = true /\
      one_fuel 2 * (d.1 * d.1 + d.2 * d.2) <= 10 /\
      (exists rest, _util_path kept' = Some ((0 + d.1, 0 + d.2) :: rest)) /\
      _util_path_targets kept' = Some [(2, 1)].
Proof.
  apply (navigationMove_moves (fun _ => 1) one_fuel open_field false 100 10 100%nat
           {| _util_path := None; _util_path_targets := None; _util_path_mode := None |}
           (target 2 1) None).
  - by vm_compute.
  - discriminate.
  - intros cached. discriminate.
  - vm_compute. lia.
Defined.

End NavigationFacts.
